(** * Undo/redo history and expression editing: a shallow embedding

    The development follows three source files:
    - [src/hooks/useUndoRedo.ts]         (module [UndoRedo]),
    - [src/utils/expression-editor.ts]   (module [ExpressionUtils]),
    - [src/hooks/useExpressionEditor.ts] (module [ExpressionEditor]).

    JavaScript strings are sequences of UTF-16 code units; the numbers
    the code uses as lengths, indices, counters and bounds are taken to
    be integers ([Z]); arrays are lists.  A React state cell is a record
    field, and each hook action is a function from the state of the
    current render to the next state.  Calls to user-supplied callbacks
    are recorded in a log; [Date.now()] is an argument.

    Module [Spec] holds the notions the properties are stated with, and
    module [Layout] the view of a string as tokens separated by
    whitespace on which the formatting proof rests.  The properties
    follow, grouped by component. *)

From Stdlib Require Import ZArith NArith List Bool Lia String Ascii.
Import ListNotations.
Open Scope Z_scope.

(* ================================================================== *)
(** * JavaScript strings, arrays and the few built-ins the code uses    *)
(* ================================================================== *)

Module Js.

Definition codeUnit := N.
Definition JsString := list codeUnit.

(** An ASCII literal as a JavaScript string. *)
Definition str (s : string) : JsString :=
  map N_of_ascii (list_ascii_of_string s).

(** [a === b] on strings: same code units in the same order. *)
Fixpoint strictEq (a b : JsString) : bool :=
  match a, b with
  | [], [] => true
  | x :: a', y :: b' => N.eqb x y && strictEq a' b'
  | _, _ => false
  end.

(** [.length] of a string or an array. *)
Definition length {A} (l : list A) : Z := Z.of_nat (List.length l).

(** Relative index of [slice]: negative counts from the end, then clamp. *)
Definition relIndex (len i : Z) : Z :=
  if i <? 0 then Z.max (len + i) 0 else Z.min i len.

(** [l.slice(start, end)] for arrays and strings. *)
Definition slice {A} (l : list A) (start end_ : Z) : list A :=
  let len := length l in
  let from := relIndex len start in
  let to := relIndex len end_ in
  firstn (Z.to_nat (to - from)) (skipn (Z.to_nat from) l).

(** [l.slice(start)]: the end defaults to the length. *)
Definition sliceFrom {A} (l : list A) (start : Z) : list A :=
  slice l start (length l).

(** [l[i]]: [None] stands for [undefined]. *)
Definition index {A} (l : list A) (i : Z) : option A :=
  if i <? 0 then None else nth_error l (Z.to_nat i).

(** [arr.pop()] on a copy: the remaining array and the removed last element. *)
Fixpoint pop {A} (l : list A) : option (list A * A) :=
  match l with
  | [] => None
  | [x] => Some ([], x)
  | x :: r => match pop r with
              | Some (r', y) => Some (x :: r', y)
              | None => None
              end
  end.

(** [arr.shift()] on a copy: the removed first element and the remaining array. *)
Definition shift {A} (l : list A) : option (A * list A) :=
  match l with
  | [] => None
  | x :: r => Some (x, r)
  end.

(** The class [\s] of regular expressions, which is also what [trim],
    [trimStart] and [trimEnd] strip: WhiteSpace and LineTerminator. *)
Definition isWhiteSpace (c : codeUnit) : bool :=
  ((9 <=? c) && (c <=? 13) || (c =? 32) || (c =? 160) || (c =? 5760)
   || (8192 <=? c) && (c <=? 8202) || (c =? 8232) || (c =? 8233)
   || (c =? 8239) || (c =? 8287) || (c =? 12288) || (c =? 65279))%N.

Fixpoint dropWhile {A} (p : A -> bool) (l : list A) : list A :=
  match l with
  | [] => []
  | x :: r => if p x then dropWhile p r else l
  end.

Fixpoint takeWhile {A} (p : A -> bool) (l : list A) : list A :=
  match l with
  | [] => []
  | x :: r => if p x then x :: takeWhile p r else []
  end.

Definition trimStart (s : JsString) : JsString := dropWhile isWhiteSpace s.
Definition trimEnd (s : JsString) : JsString := rev (dropWhile isWhiteSpace (rev s)).
Definition trim (s : JsString) : JsString := trimEnd (trimStart s).

(** Code units of the characters the sources name. *)
Definition SPACE : codeUnit := 32%N.
Definition LPAREN : codeUnit := 40%N.
Definition RPAREN : codeUnit := 41%N.
Definition STAR : codeUnit := 42%N.
Definition PLUS : codeUnit := 43%N.
Definition MINUS : codeUnit := 45%N.
Definition SLASH : codeUnit := 47%N.
Definition LBRACKET : codeUnit := 91%N.
Definition RBRACKET : codeUnit := 93%N.

(** A match of a regular expression at the start of the remaining input:
    how many code units it consumes (at least one for every pattern used
    here) and the replacement text. *)
Definition Matcher := JsString -> option (nat * JsString).

(** [s.replace(/re/g, ...)]: scan from the left; where the pattern matches,
    emit the replacement and resume after the match, otherwise copy one
    code unit.  [skip] counts the code units of the current match that are
    still to be passed over. *)
Fixpoint replaceAll (re : Matcher) (skip : nat) (s : JsString) : JsString :=
  match s with
  | [] => []
  | c :: r =>
      match skip with
      | S k => replaceAll re k r
      | O =>
          match re s with
          | Some (n, replacement) => replacement ++ replaceAll re (Nat.pred n) r
          | None => c :: replaceAll re O r
          end
      end
  end.

(** A value of a property of an options object. *)
Inductive JsValue :=
| JUndefined
| JNumber (n : Z)
| JBoolean (b : bool)
| JFunction.

End Js.

(* ================================================================== *)
(** * src/hooks/useUndoRedo.ts                                          *)
(* ================================================================== *)

Module UndoRedo.
Import Js.

Inductive Action := ActUndo | ActRedo | ActSet.

(** [interface UseUndoRedoOptions]: three optional properties. *)
Record UseUndoRedoOptions := mkOptions {
  opt_maxHistory : option Z;
  opt_enableKeyboardShortcuts : option bool;
  opt_onChange : bool   (* whether a callback is supplied *)
}.

(** Reading a property of an options object by name; a name that the
    interface does not declare reads as [undefined]. *)
Definition getProperty (o : UseUndoRedoOptions) (name : string) : JsValue :=
  if String.eqb name "maxHistory" then
    match opt_maxHistory o with Some n => JNumber n | None => JUndefined end
  else if String.eqb name "enableKeyboardShortcuts" then
    match opt_enableKeyboardShortcuts o with Some b => JBoolean b | None => JUndefined end
  else if String.eqb name "onChange" then
    if opt_onChange o then JFunction else JUndefined
  else JUndefined.

Definition defaultOptions : UseUndoRedoOptions := mkOptions None None false.

(** The state cell of the hook. *)
Record HistoryState := mkHistory {
  value : JsString;
  undoStack : list JsString;
  redoStack : list JsString
}.

(** The hook instance as seen from outside: its state and the calls made
    to the change callback so far, oldest first. *)
Record Hook := mkHook {
  state : HistoryState;
  notified : list (JsString * Action)
}.

(** [callback?.(value, action)] *)
Definition optionalCall (callback : JsValue) (v : JsString) (a : Action)
  (log : list (JsString * Action)) : list (JsString * Action) :=
  match callback with
  | JFunction => log ++ [(v, a)]
  | _ => log
  end.

Section Instance.
Variable options : UseUndoRedoOptions.

(** [const { maxHistory = 50, enableKeyboardShortcuts = true,
            onChangeCallback = undefined } = options] *)
Definition maxHistory : Z :=
  match getProperty options "maxHistory" with
  | JNumber n => n
  | _ => 50
  end.

Definition onChangeCallback : JsValue :=
  getProperty options "onChangeCallback".

Definition useUndoRedo (initialValue : JsString) : Hook :=
  mkHook (mkHistory initialValue [] []) [].

Definition setValue (newValue : JsString) (h : Hook) : Hook :=
  let prevState := state h in
  mkHook
    (mkHistory
       newValue
       (if negb (strictEq (value prevState) newValue)
           && negb (strictEq (value prevState) [])
        then sliceFrom (undoStack prevState ++ [value prevState]) (- maxHistory)
        else undoStack prevState)
       [])
    (optionalCall onChangeCallback newValue ActSet (notified h)).

Definition undo (h : Hook) : Hook :=
  let prevState := state h in
  match pop (undoStack prevState) with
  | None => h
  | Some (newUndoStack, previousValue) =>
      mkHook
        (mkHistory
           previousValue
           newUndoStack
           (slice (value prevState :: redoStack prevState) 0 maxHistory))
        (optionalCall onChangeCallback previousValue ActUndo (notified h))
  end.

Definition redo (h : Hook) : Hook :=
  let prevState := state h in
  match shift (redoStack prevState) with
  | None => h
  | Some (nextValue, newRedoStack) =>
      mkHook
        (mkHistory
           nextValue
           (sliceFrom (undoStack prevState ++ [value prevState]) (- maxHistory))
           newRedoStack)
        (optionalCall onChangeCallback nextValue ActRedo (notified h))
  end.

Definition clearHistory (h : Hook) : Hook :=
  mkHook (mkHistory (value (state h)) [] []) (notified h).

Definition undoCount (h : Hook) : Z := length (undoStack (state h)).
Definition redoCount (h : Hook) : Z := length (redoStack (state h)).
Definition canUndo (h : Hook) : bool := undoCount h >? 0.
Definition canRedo (h : Hook) : bool := redoCount h >? 0.

(** The calls a client can make. *)
Inductive Call :=
| CSetValue (newValue : JsString)
| CUndo
| CRedo
| CClearHistory.

Definition perform (c : Call) (h : Hook) : Hook :=
  match c with
  | CSetValue v => setValue v h
  | CUndo => undo h
  | CRedo => redo h
  | CClearHistory => clearHistory h
  end.

Definition run (calls : list Call) (h : Hook) : Hook :=
  fold_left (fun h c => perform c h) calls h.

(** States a client can bring the hook to. *)
Inductive reachable (initialValue : JsString) : Hook -> Prop :=
| reach_init : reachable initialValue (useUndoRedo initialValue)
| reach_step : forall h c,
    reachable initialValue h -> reachable initialValue (perform c h).

End Instance.

End UndoRedo.

(* ================================================================== *)
(** * src/utils/expression-editor.ts                                    *)
(* ================================================================== *)

Module ExpressionUtils.
Import Js.

(** One pass of [validateExpression] over the code units: the counter
    after the loop, or [None] when the loop returned [false] because the
    counter went negative.  ([for ... of] walks code points; the
    delimiters are single code units outside the surrogate range, so the
    walk over code units takes the same decisions.) *)
Fixpoint countDelimiters (opening closing : codeUnit) (count : Z) (s : JsString)
  : option Z :=
  match s with
  | [] => Some count
  | char :: rest =>
      let c1 := if N.eqb char opening then count + 1 else count in
      let c2 := if N.eqb char closing then c1 - 1 else c1 in
      if c2 <? 0 then None else countDelimiters opening closing c2 rest
  end.

Definition validateExpression (expression : JsString) : bool :=
  if strictEq expression [] || strictEq (trim expression) [] then true
  else
    match countDelimiters LPAREN RPAREN 0 expression with
    | None => false
    | Some parenCount =>
        if negb (parenCount =? 0) then false
        else
          match countDelimiters LBRACKET RBRACKET 0 expression with
          | None => false
          | Some bracketCount => bracketCount =? 0
          end
    end.

(** The character class [[+\-*/]] of [insertOperator] and [formatExpression]. *)
Definition isArithmeticOperator (c : codeUnit) : bool :=
  N.eqb c PLUS || N.eqb c MINUS || N.eqb c STAR || N.eqb c SLASH.

(** [/[+\-*/]$/.test(s)] *)
Definition endsWithOperator (s : JsString) : bool :=
  match pop s with
  | Some (_, c) => isArithmeticOperator c
  | None => false
  end.

Record Edit := mkEdit {
  expression : JsString;
  cursorPos : Z
}.

Definition insertOperator (expression operator : JsString) (cursorPos : Z) : Edit :=
  let before := trimEnd (slice expression 0 cursorPos) in
  let after := trimStart (sliceFrom expression cursorPos) in
  if (length before >? 0) && endsWithOperator before then
    let newBefore := slice before 0 (-1) in
    let newExpression := newBefore ++ [SPACE] ++ operator ++ [SPACE] ++ after in
    mkEdit newExpression (length newBefore + length operator + 2)
  else
    let newExpression := before ++ [SPACE] ++ operator ++ [SPACE] ++ after in
    mkEdit newExpression (length before + length operator + 2).

(** The four patterns of [formatExpression], each with its replacement. *)

(** [/\s+/g] replaced by one space *)
Definition reSpaces : Matcher := fun s =>
  match takeWhile isWhiteSpace s with
  | [] => None
  | run => Some (List.length run, [SPACE])
  end.

(** [/\(\s+/g] replaced by an opening parenthesis *)
Definition reOpenSpaces : Matcher := fun s =>
  match s with
  | c :: r =>
      if N.eqb c LPAREN then
        match takeWhile isWhiteSpace r with
        | [] => None
        | run => Some (S (List.length run), [LPAREN])
        end
      else None
  | [] => None
  end.

(** [/\s+\)/g] replaced by a closing parenthesis *)
Definition reSpacesClose : Matcher := fun s =>
  let run := takeWhile isWhiteSpace s in
  match run, dropWhile isWhiteSpace s with
  | _ :: _, c :: _ =>
      if N.eqb c RPAREN then Some (S (List.length run), [RPAREN]) else None
  | _, _ => None
  end.

(** [/\s*([+\-*/])\s*/g] replaced by [' $1 '] *)
Definition reOperator : Matcher := fun s =>
  match dropWhile isWhiteSpace s with
  | c :: r =>
      if isArithmeticOperator c then
        Some ((List.length (takeWhile isWhiteSpace s)
               + S (List.length (takeWhile isWhiteSpace r)))%nat,
              [SPACE; c; SPACE])
      else None
  | [] => None
  end.

Definition formatExpression (expression : JsString) : JsString :=
  trim
    (replaceAll reOperator 0
       (replaceAll reSpacesClose 0
          (replaceAll reOpenSpaces 0
             (replaceAll reSpaces 0 expression)))).

(** The loop of [findMatchingParen]: [rest] is [expression] from index [i]. *)
Fixpoint scanForward (rest : JsString) (depth i : Z) : Z :=
  match rest with
  | [] => -1
  | c :: r =>
      let d1 := if N.eqb c LPAREN then depth + 1 else depth in
      let d2 := if N.eqb c RPAREN then d1 - 1 else d1 in
      if d2 =? 0 then i else scanForward r d2 (i + 1)
  end.

Definition findMatchingParen (expression : JsString) (openPos : Z) : Z :=
  match index expression openPos with
  | Some c =>
      if N.eqb c LPAREN
      then scanForward (skipn (Z.to_nat (openPos + 1)) expression) 1 (openPos + 1)
      else -1
  | None => -1
  end.

(** The loop of [findMatchingOpenParen]: [before] holds [expression[i]],
    [expression[i-1]], ..., [expression[0]] in that order. *)
Fixpoint scanBackward (before : JsString) (depth i : Z) : Z :=
  match before with
  | [] => -1
  | c :: r =>
      let d1 := if N.eqb c RPAREN then depth + 1 else depth in
      let d2 := if N.eqb c LPAREN then d1 - 1 else d1 in
      if d2 =? 0 then i else scanBackward r d2 (i - 1)
  end.

Definition findMatchingOpenParen (expression : JsString) (closePos : Z) : Z :=
  match index expression closePos with
  | Some c =>
      if N.eqb c RPAREN
      then scanBackward (rev (firstn (Z.to_nat closePos) expression)) 1 (closePos - 1)
      else -1
  | None => -1
  end.

Definition insertFunction (expression functionName : JsString) (cursorPos : Z) : Edit :=
  let before := trimEnd (slice expression 0 cursorPos) in
  let after := trimStart (sliceFrom expression cursorPos) in
  let newExpression := before ++ functionName ++ [LPAREN] ++ after ++ [RPAREN] in
  mkEdit newExpression (length before + length functionName + 1).

Definition insertParentheses (expression : JsString) (cursorPos : Z) : Edit :=
  let before := slice expression 0 cursorPos in
  let after := sliceFrom expression cursorPos in
  let newExpression := before ++ [LPAREN; RPAREN] ++ after in
  mkEdit newExpression (length before + 1).

Definition getExpressionBefore (expression : JsString) (cursorPos : Z) : JsString :=
  slice expression 0 cursorPos.

Definition getExpressionAfter (expression : JsString) (cursorPos : Z) : JsString :=
  sliceFrom expression cursorPos.

(** The loop of [isCursorInParentheses]: [rest] is [expression] from
    index [i]; the loop runs while [i < cursorPos && i < expression.length]. *)
Fixpoint countOpenBefore (rest : JsString) (i cursorPos openCount : Z) : Z :=
  match rest with
  | [] => openCount
  | c :: r =>
      if i <? cursorPos then
        let o1 := if N.eqb c LPAREN then openCount + 1 else openCount in
        let o2 := if N.eqb c RPAREN then o1 - 1 else o1 in
        countOpenBefore r (i + 1) cursorPos o2
      else openCount
  end.

Definition isCursorInParentheses (expression : JsString) (cursorPos : Z) : bool :=
  countOpenBefore expression 0 cursorPos 0 >? 0.

Definition LBRACE : codeUnit := 123%N.
Definition RBRACE : codeUnit := 125%N.

(** The class [[\s()[\]{}+\-*/]] of [tokenizeExpression]. *)
Definition isTokenBoundary (c : codeUnit) : bool :=
  isWhiteSpace c
  || N.eqb c LPAREN || N.eqb c RPAREN
  || N.eqb c LBRACKET || N.eqb c RBRACKET
  || N.eqb c LBRACE || N.eqb c RBRACE
  || isArithmeticOperator c.

(** A non-empty string is truthy. *)
Definition truthy (s : JsString) : bool := negb (strictEq s []).

(** The loop of [tokenizeExpression] with its two variables.  ([for ... of]
    walks code points; a code point outside the basic plane is two code
    units, neither of which is in the class, and both are appended to
    [current], as the walk over code units does.) *)
Fixpoint tokenizeLoop (rest current : JsString) (tokens : list JsString)
  : list JsString * JsString :=
  match rest with
  | [] => (tokens, current)
  | char :: r =>
      if isTokenBoundary char then
        let tokens1 := if truthy current then tokens ++ [current] else tokens in
        let current1 := if truthy current then [] else current in
        let tokens2 := if truthy (trim [char]) then tokens1 ++ [[char]] else tokens1 in
        tokenizeLoop r current1 tokens2
      else tokenizeLoop r (current ++ [char]) tokens
  end.

Definition tokenizeExpression (expression : JsString) : list JsString :=
  let (tokens, current) := tokenizeLoop expression [] [] in
  if truthy current then tokens ++ [current] else tokens.

Definition CARET : codeUnit := 94%N.
Definition PERCENT : codeUnit := 37%N.

(** The class [[+\-*/^%]] of [isOperator]. *)
Definition isOperatorCharacter (c : codeUnit) : bool :=
  isArithmeticOperator c || N.eqb c CARET || N.eqb c PERCENT.

(** [/[+\-*/^%]/.test(char)]: the pattern has no anchors, so the test is
    for a match anywhere in the argument. *)
Definition isOperator (char : JsString) : bool :=
  existsb isOperatorCharacter char.

(** The class [[a-zA-Z0-9_]] of [getWordAtCursor]. *)
Definition isWordCharacter (c : codeUnit) : bool :=
  ((97 <=? c) && (c <=? 122) || (65 <=? c) && (c <=? 90)
   || (48 <=? c) && (c <=? 57) || (c =? 95))%N.

(** [/[a-zA-Z0-9_]/.test(expression[i])]: [test] converts its argument to
    a string, and [undefined] becomes ['undefined'], which matches. *)
Definition testWordCharacter (x : option codeUnit) : bool :=
  match x with
  | Some c => isWordCharacter c
  | None => true
  end.

(** The two [while] loops of [getWordAtCursor]; each iteration moves the
    index by one, so [fuel] bounds the iterations. *)
Fixpoint wordStart (fuel : nat) (expression : JsString) (start : Z) : Z :=
  match fuel with
  | O => start
  | S f =>
      if (start >? 0) && testWordCharacter (index expression (start - 1))
      then wordStart f expression (start - 1)
      else start
  end.

Fixpoint wordEnd (fuel : nat) (expression : JsString) (end_ : Z) : Z :=
  match fuel with
  | O => end_
  | S f =>
      if (end_ <? length expression) && testWordCharacter (index expression end_)
      then wordEnd f expression (end_ + 1)
      else end_
  end.

Definition getWordAtCursor (expression : JsString) (cursorPos : Z) : JsString :=
  let start := wordStart (Z.to_nat cursorPos) expression cursorPos in
  let end_ := wordEnd (Z.to_nat (length expression - cursorPos)) expression cursorPos in
  slice expression start end_.

End ExpressionUtils.

(* ================================================================== *)
(** * src/hooks/useExpressionEditor.ts                                  *)
(* ================================================================== *)

Module ExpressionEditor.
Import Js.

(** [interface UseExpressionEditorOptions extends UseUndoRedoOptions];
    [undoRedoOptions] is the rest of the destructured object. *)
Record UseExpressionEditorOptions := mkEditorOptions {
  undoRedoOptions : UndoRedo.UseUndoRedoOptions;
  initialExpression : option JsString;
  onExpressionChange : bool;   (* whether a callback is supplied *)
  validator : option (JsString -> bool)
}.

(** The state cells of the hook, the history hook it owns, and the
    expressions passed to [onExpressionChange] so far. *)
Record Editor := mkEditor {
  undoRedo : UndoRedo.Hook;
  cursorPosition : Z;
  selectionStart : Z;
  selectionEnd : Z;
  isValid : bool;
  lastModifiedTime : Z;
  expressionChanges : list JsString
}.

(** [expression: undoRedo.value] *)
Definition expression (e : Editor) : JsString :=
  UndoRedo.value (UndoRedo.state (undoRedo e)).

Definition withCursorPosition (position : Z) (e : Editor) : Editor :=
  mkEditor (undoRedo e) position (selectionStart e) (selectionEnd e)
    (isValid e) (lastModifiedTime e) (expressionChanges e).

Definition withIsValid (valid : bool) (e : Editor) : Editor :=
  mkEditor (undoRedo e) (cursorPosition e) (selectionStart e) (selectionEnd e)
    valid (lastModifiedTime e) (expressionChanges e).

Section Instance.
Variable options : UseExpressionEditorOptions.

Definition initialValue : JsString :=
  match initialExpression options with Some s => s | None => [] end.

(** [now] is the value of [Date.now()] at the call. *)
Definition useExpressionEditor (now : Z) : Editor :=
  mkEditor (UndoRedo.useUndoRedo initialValue)
    (length initialValue) 0 0 true now [].

Definition notifyChange (s : JsString) (log : list JsString) : list JsString :=
  if onExpressionChange options then log ++ [s] else log.

Definition setExpression (now : Z) (expression : JsString) (e : Editor) : Editor :=
  let valid :=
    match validator options with
    | Some validate => validate expression
    | None => true
    end in
  let e1 := withIsValid valid e in
  if valid then
    mkEditor
      (UndoRedo.setValue (undoRedoOptions options) expression (undoRedo e1))
      (length expression)
      (selectionStart e1) (selectionEnd e1) (isValid e1)
      now
      (notifyChange expression (expressionChanges e1))
  else e1.

Definition insertText (now : Z) (text : JsString) (e : Editor) : Editor :=
  let newExpression :=
    slice (expression e) 0 (cursorPosition e)
    ++ text
    ++ sliceFrom (expression e) (cursorPosition e) in
  withCursorPosition (cursorPosition e + length text)
    (setExpression now newExpression e).

Definition deleteText (now : Z) (start end_ : Z) (e : Editor) : Editor :=
  let newExpression :=
    slice (expression e) 0 start ++ sliceFrom (expression e) end_ in
  withCursorPosition (Z.max 0 start) (setExpression now newExpression e).

Definition replaceText (now : Z) (start end_ : Z) (replacement : JsString)
  (e : Editor) : Editor :=
  let newExpression :=
    slice (expression e) 0 start ++ replacement ++ sliceFrom (expression e) end_ in
  withCursorPosition (start + length replacement)
    (setExpression now newExpression e).

Definition clear (now : Z) (e : Editor) : Editor :=
  withCursorPosition 0 (setExpression now [] e).

(** The exported [setCursorPosition], which clamps. *)
Definition setCursorPosition (pos : Z) (e : Editor) : Editor :=
  withCursorPosition (Z.max 0 (Z.min pos (length (expression e)))) e.

(** The text mutations of the controller. *)
Inductive Mutation :=
| MSetExpression (expression : JsString)
| MInsertText (text : JsString)
| MDeleteText (start end_ : Z)
| MReplaceText (start end_ : Z) (replacement : JsString)
| MClear.

Definition mutate (now : Z) (m : Mutation) (e : Editor) : Editor :=
  match m with
  | MSetExpression s => setExpression now s e
  | MInsertText t => insertText now t e
  | MDeleteText a b => deleteText now a b e
  | MReplaceText a b r => replaceText now a b r e
  | MClear => clear now e
  end.

(** The exported [setSelection], which clamps both ends. *)
Definition setSelection (start end_ : Z) (e : Editor) : Editor :=
  mkEditor (undoRedo e) (cursorPosition e)
    (Z.max 0 (Z.min start (length (expression e))))
    (Z.max 0 (Z.min end_ (length (expression e))))
    (isValid e) (lastModifiedTime e) (expressionChanges e).


(** [undo] and [redo] of the controller read the stacks and the value of
    the current render: the cursor is computed from the entry the history
    hook is about to restore, and [onExpressionChange] receives the
    expression of the current render. *)
Definition undo (now : Z) (e : Editor) : Editor :=
  let history := UndoRedo.state (undoRedo e) in
  mkEditor
    (UndoRedo.undo (undoRedoOptions options) (undoRedo e))
    (match pop (UndoRedo.undoStack history) with
     | Some (_, top) => length top
     | None => 0
     end)
    (selectionStart e) (selectionEnd e) (isValid e)
    now
    (notifyChange (expression e) (expressionChanges e)).

Definition redo (now : Z) (e : Editor) : Editor :=
  let history := UndoRedo.state (undoRedo e) in
  mkEditor
    (UndoRedo.redo (undoRedoOptions options) (undoRedo e))
    (match shift (UndoRedo.redoStack history) with
     | Some (next, _) => length next
     | None => length (expression e)
     end)
    (selectionStart e) (selectionEnd e) (isValid e)
    now
    (notifyChange (expression e) (expressionChanges e)).

(** The button handlers of [ExpressionBuilderWithSmartInsertion]
    ([src/examples/undo-redo-integration.tsx]): both calls are made from
    one render, so the clamp of the exported [setCursorPosition] reads the
    expression of that render while the state it updates already holds
    the result of [setExpression]. *)
Definition builderApply (now : Z) (edit : ExpressionUtils.Edit) (e : Editor) : Editor :=
  withCursorPosition
    (cursorPosition (setCursorPosition (ExpressionUtils.cursorPos edit) e))
    (setExpression now (ExpressionUtils.expression edit) e).

Definition builderInsertFunction (now : Z) (functionName : JsString) (e : Editor)
  : Editor :=
  builderApply now
    (ExpressionUtils.insertFunction (expression e) functionName (cursorPosition e)) e.

Definition builderInsertOperator (now : Z) (op : JsString) (e : Editor) : Editor :=
  builderApply now
    (ExpressionUtils.insertOperator (expression e) op (cursorPosition e)) e.

(** The synchronous operations of the controller and of the builder. *)
Inductive Operation :=
| OMutate (m : Mutation)
| OUndo
| ORedo
| OSetCursorPosition (pos : Z)
| OSetSelection (start end_ : Z)
| OBuilderInsertFunction (functionName : JsString)
| OBuilderInsertOperator (op : JsString).

Definition operate (now : Z) (op : Operation) (e : Editor) : Editor :=
  match op with
  | OMutate m => mutate now m e
  | OUndo => undo now e
  | ORedo => redo now e
  | OSetCursorPosition pos => setCursorPosition pos e
  | OSetSelection a b => setSelection a b e
  | OBuilderInsertFunction name => builderInsertFunction now name e
  | OBuilderInsertOperator op => builderInsertOperator now op e
  end.

(** States a client can bring the controller to. *)
Inductive reachable : Editor -> Prop :=
| reach_init : forall now, reachable (useExpressionEditor now)
| reach_step : forall now op e, reachable e -> reachable (operate now op e).

End Instance.

End ExpressionEditor.

(* ================================================================== *)
(** * Notions the properties are stated with                            *)
(* ================================================================== *)

Module Spec.
Import Js.

(** The values a client observed as current just before each [setValue]
    of a sequence that recorded an edit, oldest first: a [setValue]
    records the value it replaces when that value differs from the new
    one and is not the empty string. *)
Fixpoint observedBefore (current : JsString) (newValues : list JsString)
  : list JsString :=
  match newValues with
  | [] => []
  | v :: rest =>
      (if negb (strictEq current v) && negb (strictEq current [])
       then [current] else [])
      ++ observedBefore v rest
  end.

(** [s] ends with none of the code units satisfying [p]. *)
Definition endsOutside (p : codeUnit -> bool) (s : JsString) : Prop :=
  forall s' c, s = s' ++ [c] -> p c = false.

(** [s] starts with none of the code units satisfying [p]. *)
Definition startsOutside (p : codeUnit -> bool) (s : JsString) : Prop :=
  forall c s', s = c :: s' -> p c = false.

(** Nesting weight of a code unit, and of a string: opening minus
    closing parentheses. *)
Definition parenWeight (c : codeUnit) : Z :=
  (if N.eqb c LPAREN then 1 else 0) - (if N.eqb c RPAREN then 1 else 0).

Fixpoint balance (s : JsString) : Z :=
  match s with
  | [] => 0
  | c :: r => parenWeight c + balance r
  end.

(** Nesting weight for any pair of delimiters. *)
Definition delimiterWeight (opening closing c : codeUnit) : Z :=
  (if N.eqb c opening then 1 else 0) - (if N.eqb c closing then 1 else 0).

Fixpoint delimiterBalance (opening closing : codeUnit) (s : JsString) : Z :=
  match s with
  | [] => 0
  | c :: r => delimiterWeight opening closing c + delimiterBalance opening closing r
  end.

(** No prefix closes more than it opens, and the whole string closes
    exactly what it opens. *)
Definition wellNested (opening closing : codeUnit) (s : JsString) : Prop :=
  (forall k, 0 <= delimiterBalance opening closing (firstn k s))
  /\ delimiterBalance opening closing s = 0.

(** The code units of a string that are not whitespace, in order. *)
Definition content (s : JsString) : JsString :=
  filter (fun c => negb (isWhiteSpace c)) s.

(** Every entry of [l] but the last satisfies [P]. *)
Definition allButLast {A} (P : A -> Prop) (l : list A) : Prop :=
  forall front x back, l = front ++ x :: back -> back <> [] -> P x.

(** What the store keeps: no empty string on the undo stack, none on the
    redo stack except possibly in its last place, and a non-empty current
    value whenever something can be redone. *)
Definition noEmptyEntries (h : UndoRedo.Hook) : Prop :=
  Forall (fun s => s <> []) (UndoRedo.undoStack (UndoRedo.state h))
  /\ allButLast (fun s => s <> []) (UndoRedo.redoStack (UndoRedo.state h))
  /\ (UndoRedo.redoStack (UndoRedo.state h) <> [] -> UndoRedo.value (UndoRedo.state h) <> []).

(** One loop of [validateExpression] ended with a count of zero. *)
Definition balancedCount (o c : codeUnit) (s : JsString) : bool :=
  match ExpressionUtils.countDelimiters o c 0 s with
  | Some m => m =? 0
  | None => false
  end.

(** Every string the history holds (the current value, the undo stack,
    the redo stack) satisfies [P]. *)
Definition historyAll (P : JsString -> Prop) (h : UndoRedo.Hook) : Prop :=
  P (UndoRedo.value (UndoRedo.state h))
  /\ Forall P (UndoRedo.undoStack (UndoRedo.state h))
  /\ Forall P (UndoRedo.redoStack (UndoRedo.state h)).

(** The code units that validation looks at. *)
Definition isValidatedDelimiter (c : codeUnit) : bool :=
  N.eqb c LPAREN || N.eqb c RPAREN || N.eqb c LBRACKET || N.eqb c RBRACKET.

Definition delimiters (s : JsString) : JsString := filter isValidatedDelimiter s.

End Spec.

(* ================================================================== *)
(** * Layouts: a string seen as tokens separated by whitespace          *)
(* ================================================================== *)

Module Layout.
Import Js ExpressionUtils.

(** A string is a sequence of code units that are not whitespace, each
    preceded by a (possibly empty) run of whitespace, and a final run. *)
Inductive Layout :=
| End (trailing : JsString)
| Tok (gap : JsString) (c : codeUnit) (rest : Layout).

Fixpoint render (l : Layout) : JsString :=
  match l with
  | End t => t
  | Tok g c r => g ++ c :: render r
  end.

Fixpoint wellFormed (l : Layout) : bool :=
  match l with
  | End t => forallb isWhiteSpace t
  | Tok g c r => forallb isWhiteSpace g && negb (isWhiteSpace c) && wellFormed r
  end.

Definition addSpace (a : codeUnit) (l : Layout) : Layout :=
  match l with
  | End t => End (a :: t)
  | Tok g c r => Tok (a :: g) c r
  end.

Fixpoint parse (s : JsString) : Layout :=
  match s with
  | [] => End []
  | a :: r => if isWhiteSpace a then addSpace a (parse r) else Tok [] a (parse r)
  end.

Definition leadGap (l : Layout) : JsString :=
  match l with
  | End t => t
  | Tok g _ _ => g
  end.

Definition trimStartL (l : Layout) : Layout :=
  match l with
  | End _ => End []
  | Tok _ c r => Tok [] c r
  end.

Fixpoint trimEndL (l : Layout) : Layout :=
  match l with
  | End _ => End []
  | Tok g c r => Tok g c (trimEndL r)
  end.

(** What each replacement of [formatExpression] does to the gaps. *)

Definition oneSpace (g : JsString) : JsString :=
  match g with
  | [] => []
  | _ => [SPACE]
  end.

Fixpoint collapseGaps (l : Layout) : Layout :=
  match l with
  | End t => End (oneSpace t)
  | Tok g c r => Tok (oneSpace g) c (collapseGaps r)
  end.

(** [afterOpen]: the previous token is an opening parenthesis. *)
Fixpoint closeUpAfterOpen (afterOpen : bool) (l : Layout) : Layout :=
  match l with
  | End t => End (if afterOpen then [] else t)
  | Tok g c r =>
      Tok (if afterOpen then [] else g) c (closeUpAfterOpen (N.eqb c LPAREN) r)
  end.

Fixpoint closeUpBeforeClose (l : Layout) : Layout :=
  match l with
  | End t => End t
  | Tok g c r => Tok (if N.eqb c RPAREN then [] else g) c (closeUpBeforeClose r)
  end.

(** [afterOp]: the previous token is an operator, whose replacement ended
    with a space and swallowed the gap that followed. *)
Fixpoint spaceOperators (afterOp : bool) (l : Layout) : Layout :=
  match l with
  | End t => End (if afterOp then [SPACE] else t)
  | Tok g c r =>
      Tok ((if afterOp then [SPACE] else [])
           ++ (if isArithmeticOperator c then [SPACE]
               else if afterOp then [] else g))
        c (spaceOperators (isArithmeticOperator c) r)
  end.

Definition spaced (afterOpen afterOp : bool) (l : Layout) : Layout :=
  spaceOperators afterOp
    (closeUpBeforeClose (closeUpAfterOpen afterOpen (collapseGaps l))).

Definition formatL (l : Layout) : Layout :=
  trimEndL (trimStartL (spaced false false l)).

(** All whitespace of [l] is made of spaces. *)
Fixpoint onlySpaces (l : Layout) : Prop :=
  match l with
  | End t => Forall (fun a => a = SPACE) t
  | Tok g _ r => Forall (fun a => a = SPACE) g /\ onlySpaces r
  end.

(** The tokens still to come when the loop of [tokenizeExpression] is at
    [s] with [current] pending. *)
Definition flush (current : JsString) : list JsString :=
  if truthy current then [current] else [].

Definition tokensFrom (current s : JsString) : list JsString :=
  let (tokens, last) := tokenizeLoop s current [] in tokens ++ flush last.

(** What the loop emits, and what it leaves pending, over a gap [g]
    followed by a code unit [c] that is not whitespace. *)
Definition pendingAfterGap (current g : JsString) : JsString :=
  match g with
  | [] => current
  | _ => []
  end.

Definition tokHead (current g : JsString) (c : codeUnit) : list JsString :=
  (match g with [] => [] | _ => flush current end)
  ++ (if isTokenBoundary c then flush (pendingAfterGap current g) ++ [[c]] else []).

Definition tokNext (current g : JsString) (c : codeUnit) : JsString :=
  if isTokenBoundary c then [] else pendingAfterGap current g ++ [c].


End Layout.

(* ================================================================== *)
(** * Facts about the JavaScript built-ins                              *)
(* ================================================================== *)

Section JsFacts.
Import Js.

Lemma strictEq_spec (a b : JsString) : strictEq a b = true <-> a = b.
Proof.
  revert b; induction a as [|x a IH]; intros [|y b]; simpl;
    try (split; [discriminate | discriminate]); try tauto.
  rewrite andb_true_iff, N.eqb_eq, IH.
  split; [intros [-> ->]; reflexivity | intros [= -> ->]; auto].
Qed.

Lemma strictEq_refl (a : JsString) : strictEq a a = true.
Proof. apply strictEq_spec; reflexivity. Qed.

Lemma length_app {A} (l1 l2 : list A) :
  Js.length (l1 ++ l2) = Js.length l1 + Js.length l2.
Proof. unfold Js.length; rewrite List.length_app; lia. Qed.

Lemma length_cons {A} (x : A) (l : list A) :
  Js.length (x :: l) = 1 + Js.length l.
Proof. unfold Js.length; simpl List.length; lia. Qed.

Lemma length_nonneg {A} (l : list A) : 0 <= Js.length l.
Proof. unfold Js.length; lia. Qed.

Lemma pop_snoc {A} (l : list A) (x : A) : pop (l ++ [x]) = Some (l, x).
Proof.
  induction l as [|y l IH]; simpl; [reflexivity|].
  rewrite IH. destruct (l ++ [x]) eqn:E; [destruct l; discriminate | reflexivity].
Qed.

Lemma pop_Some {A} (l r : list A) (x : A) : pop l = Some (r, x) -> l = r ++ [x].
Proof.
  induction l as [|y l' _] using rev_ind; [discriminate|].
  rewrite pop_snoc; intros [= <- <-]; reflexivity.
Qed.

Lemma pop_None {A} (l : list A) : pop l = None -> l = [].
Proof.
  induction l as [|y l' _] using rev_ind; [reflexivity|].
  rewrite pop_snoc; discriminate.
Qed.

Lemma relIndex_range (len i : Z) : 0 <= len -> 0 <= relIndex len i <= len.
Proof. intros H; unfold relIndex; destruct (i <? 0) eqn:E; lia. Qed.

(** [l.slice(k)] is what remains of [l] after dropping a prefix. *)
Lemma sliceFrom_skipn {A} (l : list A) (k : Z) :
  sliceFrom l k = skipn (Z.to_nat (relIndex (Js.length l) k)) l.
Proof.
  unfold sliceFrom, slice.
  assert (H := relIndex_range (Js.length l) k (length_nonneg l)).
  assert (E : relIndex (Js.length l) (Js.length l) = Js.length l)
    by (unfold relIndex; destruct (Js.length l <? 0) eqn:?; lia).
  rewrite E. apply firstn_all2.
  rewrite length_skipn. unfold Js.length in *. lia.
Qed.

Lemma sliceFrom_suffix {A} (l : list A) (k : Z) :
  exists dropped, l = dropped ++ sliceFrom l k.
Proof.
  rewrite sliceFrom_skipn.
  exists (firstn (Z.to_nat (relIndex (Js.length l) k)) l).
  symmetry; apply firstn_skipn.
Qed.

(** [l.slice(-m)] keeps the last [m] elements when [m] is positive. *)
Lemma sliceFrom_neg_length {A} (l : list A) (m : Z) :
  1 <= m -> Js.length (sliceFrom l (- m)) = Z.min (Js.length l) m.
Proof.
  intros Hm. rewrite sliceFrom_skipn. unfold Js.length, relIndex.
  rewrite length_skipn.
  destruct (- m <? 0) eqn:E; lia.
Qed.

(** [l.slice(0, m)] is a prefix of [l]. *)
Lemma slice_0_firstn {A} (l : list A) (m : Z) :
  slice l 0 m = firstn (Z.to_nat (relIndex (Js.length l) m)) l.
Proof.
  unfold slice.
  assert (E : relIndex (Js.length l) 0 = 0)
    by (unfold relIndex; simpl; pose proof (length_nonneg l); lia).
  rewrite E. simpl. f_equal. lia.
Qed.

Lemma slice_0_cons {A} (x : A) (l : list A) (m : Z) :
  1 <= m -> exists kept, slice (x :: l) 0 m = x :: kept.
Proof.
  intros Hm. rewrite slice_0_firstn.
  assert (H : (1 <= Z.to_nat (relIndex (Js.length (x :: l)) m))%nat).
  { unfold relIndex, Js.length. simpl List.length.
    destruct (m <? 0) eqn:E; lia. }
  destruct (Z.to_nat _) as [|n]; [lia|].
  simpl. eauto.
Qed.

End JsFacts.

(* ================================================================== *)
(** * The history store                                                 *)
(* ================================================================== *)

Section HistoryFacts.
Import Js UndoRedo.

Lemma onChangeCallback_undefined (options : UseUndoRedoOptions) :
  onChangeCallback options = JUndefined.
Proof. reflexivity. Qed.

Lemma notified_perform options (c : Call) (h : Hook) :
  notified (perform options c h) = notified h.
Proof.
  destruct c; simpl; unfold setValue, undo, redo;
    rewrite ?onChangeCallback_undefined; try reflexivity.
  - destruct (pop _) as [[? ?]|]; reflexivity.
  - destruct (shift _) as [[? ?]|]; reflexivity.
Qed.

Lemma run_app options (c1 c2 : list Call) (h : Hook) :
  run options (c1 ++ c2) h = run options c2 (run options c1 h).
Proof. apply fold_left_app. Qed.

Lemma reachable_run options initial (calls : list Call) (h : Hook) :
  reachable options initial h -> reachable options initial (run options calls h).
Proof.
  revert h; induction calls as [|c calls IH]; intros h Hr; simpl; [exact Hr|].
  apply IH. constructor. exact Hr.
Qed.

(** With a bound of at least one the undo stack respects it. *)
Lemma undoStack_bounded options initial (h : Hook) :
  1 <= maxHistory options ->
  reachable options initial h ->
  undoCount h <= maxHistory options.
Proof.
  intros Hm Hr. induction Hr as [|h c Hr IH].
  - unfold undoCount, Js.length; simpl. lia.
  - unfold undoCount in *. destruct c; simpl.
    + unfold setValue; simpl.
      destruct (negb _ && negb _); [|exact IH].
      rewrite sliceFrom_neg_length by exact Hm. lia.
    + unfold undo. destruct (pop _) as [[rest x]|] eqn:E; [|exact IH].
      simpl. apply pop_Some in E. rewrite E, length_app in IH.
      unfold Js.length in *; simpl in *; lia.
    + unfold redo. destruct (shift _) as [[x rest]|]; [|exact IH].
      simpl. rewrite sliceFrom_neg_length by exact Hm. lia.
    + unfold Js.length; simpl. lia.
Qed.

Lemma last_cons_default {A} (x : A) (l : list A) (d d' : A) :
  last (x :: l) d = last (x :: l) d'.
Proof.
  revert x; induction l as [|y l IH]; intros x; [reflexivity|].
  change (last (y :: l) d = last (y :: l) d'). apply IH.
Qed.

(** After a sequence of [setValue] calls the current value is the last
    one set and the undo stack is what is left of the observed values. *)
Lemma setValues_history options (newValues : list JsString) (h : Hook) :
  let h' := run options (map CSetValue newValues) h in
  value (state h') = last newValues (value (state h)) /\
  exists evicted,
    undoStack (state h) ++ Spec.observedBefore (value (state h)) newValues
    = evicted ++ undoStack (state h').
Proof.
  revert h; induction newValues as [|v rest IH]; intros h; simpl.
  - split; [reflexivity|]. exists []. rewrite app_nil_r. reflexivity.
  - specialize (IH (setValue options v h)). cbv zeta in IH.
    destruct IH as [Hv [ev Hs]]. split.
    + rewrite Hv. simpl. destruct rest as [|j rest]; [reflexivity|].
      apply last_cons_default.
    + simpl in Hs.
      destruct (negb _ && negb _).
      * destruct (sliceFrom_suffix (undoStack (state h) ++ [value (state h)])
                    (- maxHistory options)) as [d Hd].
        exists (d ++ ev). rewrite <- app_assoc, <- Hs, !app_assoc.
        f_equal. exact Hd.
      * exists ev. exact Hs.
Qed.

(** The number of entries kept after a sequence of [setValue] calls. *)
Lemma setValues_undoCount options (newValues : list JsString) (h : Hook) :
  1 <= maxHistory options ->
  undoCount h <= maxHistory options ->
  undoCount (run options (map CSetValue newValues) h)
  = Z.min (undoCount h
           + Js.length (Spec.observedBefore (value (state h)) newValues))
      (maxHistory options).
Proof.
  intros Hm. revert h; induction newValues as [|v rest IH]; intros h Hb; simpl.
  - change (Js.length (@nil JsString)) with 0. lia.
  - assert (Hstep : undoCount (setValue options v h) <= maxHistory options).
    { unfold undoCount in *; unfold setValue; simpl.
      destruct (negb _ && negb _); [|exact Hb].
      rewrite sliceFrom_neg_length by exact Hm. lia. }
    rewrite (IH _ Hstep). unfold undoCount in *; unfold setValue; simpl.
    destruct (negb _ && negb _); simpl.
    + rewrite sliceFrom_neg_length by exact Hm.
      rewrite !length_app, !length_cons.
      change (Js.length (@nil JsString)) with 0.
      pose proof (length_nonneg (Spec.observedBefore v rest)). lia.
    + reflexivity.
Qed.

(** [n] undos walk down the undo stack. *)
Lemma undo_iter_value options (n : nat) (h : Hook) :
  (n < List.length (undoStack (state h)))%nat ->
  value (state (Nat.iter (S n) (undo options) h))
  = nth n (rev (undoStack (state h))) [].
Proof.
  revert h; induction n as [|n IH]; intros h Hn.
  - simpl. unfold undo.
    destruct (pop _) as [[rest x]|] eqn:E.
    + apply pop_Some in E. rewrite E, rev_unit. reflexivity.
    + apply pop_None in E. rewrite E in Hn. simpl in Hn. lia.
  - rewrite Nat.iter_succ_r.
    unfold undo at 2.
    destruct (pop _) as [[rest x]|] eqn:E.
    + apply pop_Some in E. rewrite IH.
      * simpl. rewrite E, rev_unit. reflexivity.
      * simpl. rewrite E, List.length_app in Hn. simpl in Hn. lia.
    + apply pop_None in E. rewrite E in Hn. simpl in Hn. lia.
Qed.

End HistoryFacts.

Section HistoryProperties.
Import Js UndoRedo.

(** C2 -- After any sequence of [setValue] calls from the initial value,
    [n] undo calls, with [n] between one and the number of recorded
    edits ([undoCount], the entries held by the undo stack), make current
    the value that was observed before the [n]-th last recording
    [setValue].  With a bound of at least one, [undoCount] is the number
    of recording calls capped at [maxHistory].  Scenario 1: from
    ['initial'], [setValue('modified')] gives ['modified'] and undoCount
    1; [undo()] gives ['initial'] and redoCount 1; [redo()] gives
    ['modified'] and redoCount 0. *)
Theorem setValue_then_undo_restores_observed :
  (forall options initial newValues (n : nat),
      let h := run options (map CSetValue newValues) (useUndoRedo initial) in
      (1 <= n)%nat ->
      Z.of_nat n <= undoCount h ->
      value (state (Nat.iter n (undo options) h))
      = nth (n - 1) (rev (Spec.observedBefore initial newValues)) [])
  /\ (forall options initial newValues,
         let h := run options (map CSetValue newValues) (useUndoRedo initial) in
         1 <= maxHistory options ->
         undoCount h
         = Z.min (Js.length (Spec.observedBefore initial newValues))
             (maxHistory options))
  /\ (let h0 := useUndoRedo (str "initial") in
      let h1 := setValue defaultOptions (str "modified") h0 in
      let h2 := undo defaultOptions h1 in
      let h3 := redo defaultOptions h2 in
      (value (state h1) = str "modified" /\ undoCount h1 = 1)
      /\ (value (state h2) = str "initial" /\ redoCount h2 = 1)
      /\ (value (state h3) = str "modified" /\ redoCount h3 = 0)).
Proof.
  split; [|split].
  - intros options initial newValues n h Hn Hc.
    destruct (setValues_history options newValues (useUndoRedo initial))
      as [_ [evicted Hs]].
    fold h in Hs. simpl in Hs. rewrite Hs.
    unfold undoCount, Js.length in Hc.
    destruct n as [|n]; [lia|].
    rewrite undo_iter_value by lia.
    rewrite rev_app_distr, app_nth1 by (rewrite length_rev; lia).
    f_equal. lia.
  - intros options initial newValues h Hm. unfold h.
    rewrite setValues_undoCount; [reflexivity | exact Hm |].
    unfold undoCount, Js.length; simpl. lia.
  - vm_compute. repeat split; reflexivity.
Qed.

Lemma setValue_then_undo_restores_observed_witness :
  let options := mkOptions (Some 2) None false in
  let newValues := [str "b"; str "b"; str "c"; str "d"] in
  let h := run options (map CSetValue newValues) (useUndoRedo (str "a")) in
  (1 <= 2)%nat /\ Z.of_nat 2 <= undoCount h /\
  value (state (Nat.iter 2 (undo options) h)) = str "b".
Proof.
  intros options newValues h.
  split; [lia|]. split; [vm_compute; discriminate|].
  apply (proj1 setValue_then_undo_restores_observed options (str "a") newValues 2%nat).
  - lia.
  - vm_compute; discriminate.
Defined.

(** C3 (the code departs from it) -- The hook reads the property
    [onChangeCallback] of its options, which [UseUndoRedoOptions] does
    not declare, so a callback supplied as [onChange] is never invoked:
    no sequence of calls adds to the log of notifications, and
    [setValue], [undo], [redo] with [onChange] supplied change the value
    and notify nobody. *)
Theorem onChange_is_never_invoked :
  (forall options calls h, notified (run options calls h) = notified h)
  /\ (let options := mkOptions None None true in
      let h := run options [CSetValue (str "modified"); CUndo; CRedo]
                 (useUndoRedo (str "initial")) in
      getProperty options "onChange" = JFunction
      /\ value (state h) = str "modified"
      /\ notified h = []).
Proof.
  split.
  - intros options calls; induction calls as [|c calls IH]; intros h.
    + reflexivity.
    + change (run options (c :: calls) h)
        with (run options calls (perform options c h)).
      rewrite IH. apply notified_perform.
  - vm_compute. repeat split; reflexivity.
Qed.

(** C4, as the code has it -- [setValue] with the current value leaves
    the current value and the undo stack as they are and empties the
    redo stack; the state is unchanged when the redo stack was empty. *)
Theorem setValue_same_value_clears_redo :
  forall options h,
    let h' := setValue options (value (state h)) h in
    value (state h') = value (state h)
    /\ undoStack (state h') = undoStack (state h)
    /\ redoStack (state h') = []
    /\ (redoStack (state h) = [] -> state h' = state h).
Proof.
  intros options h h'. unfold h', setValue; simpl.
  rewrite strictEq_refl. simpl.
  repeat split.
  intros E. destruct h as [[v u r] log]; simpl in *. subst r. reflexivity.
Qed.

(** C4 as stated fails: after ['a'] -> ['b'] and one undo the redo stack
    holds ['b']; [setValue('a')] with the current value empties it. *)
Lemma setValue_same_value_not_noop :
  ~ (forall options initial h newValue,
        reachable options initial h ->
        newValue = value (state h) ->
        state (setValue options newValue h) = state h).
Proof.
  intros H.
  specialize (H defaultOptions (str "a")
                (run defaultOptions [CSetValue (str "b"); CUndo]
                   (useUndoRedo (str "a")))
                (str "a")).
  assert (C : state (setValue defaultOptions (str "a")
                       (run defaultOptions [CSetValue (str "b"); CUndo]
                          (useUndoRedo (str "a"))))
              = state (run defaultOptions [CSetValue (str "b"); CUndo]
                         (useUndoRedo (str "a")))).
  { apply H; [apply reachable_run; constructor | reflexivity]. }
  vm_compute in C. discriminate C.
Qed.

(** C5, as the code has it -- With a bound of at least one, in every
    state where undo is available or redo is not, [undo] immediately
    followed by [redo] leaves the current value as it was. *)
Theorem undo_redo_roundtrip :
  forall options h,
    1 <= maxHistory options ->
    undoStack (state h) <> [] \/ redoStack (state h) = [] ->
    value (state (redo options (undo options h))) = value (state h).
Proof.
  intros options h Hm Hs. unfold undo.
  destruct (pop (undoStack (state h))) as [[rest x]|] eqn:E.
  - unfold redo; simpl.
    destruct (slice_0_cons (value (state h)) (redoStack (state h))
                (maxHistory options) Hm) as [kept ->].
    reflexivity.
  - apply pop_None in E. destruct Hs as [Hs|Hs]; [contradiction|].
    unfold redo. rewrite Hs. reflexivity.
Qed.

Lemma undo_redo_roundtrip_witness :
  let h := setValue defaultOptions (str "modified") (useUndoRedo (str "initial")) in
  1 <= maxHistory defaultOptions
  /\ (undoStack (state h) <> [] \/ redoStack (state h) = [])
  /\ value (state (redo defaultOptions (undo defaultOptions h))) = str "modified".
Proof.
  intros h.
  split; [vm_compute; discriminate|].
  split; [right; reflexivity|].
  apply (undo_redo_roundtrip defaultOptions h).
  - vm_compute; discriminate.
  - right; reflexivity.
Defined.

(** C5 as stated fails: after ['a'] -> ['b'] and one undo, the undo stack
    is empty and the redo stack holds ['b']; a further [undo] does
    nothing and the [redo] after it moves the value to ['b']. *)
Lemma undo_redo_not_roundtrip :
  ~ (forall options initial h,
        reachable options initial h ->
        value (state (redo options (undo options h))) = value (state h)).
Proof.
  intros H.
  specialize (H defaultOptions (str "a")
                (run defaultOptions [CSetValue (str "b"); CUndo]
                   (useUndoRedo (str "a")))
                (reachable_run _ _ _ _ (reach_init _ _))).
  vm_compute in H. discriminate H.
Qed.

(** C7 (the code departs from it) -- With [maxHistory] 0 the cap
    [slice(-maxHistory)] is [slice(-0)], which keeps the whole array:
    two edits from ['a'] leave two entries on the undo stack. *)
Theorem undoStack_exceeds_maxHistory_zero :
  let options := mkOptions (Some 0) None false in
  let h := run options [CSetValue (str "b"); CSetValue (str "c")]
             (useUndoRedo (str "a")) in
  maxHistory options = 0
  /\ reachable options (str "a") h
  /\ undoStack (state h) = [str "a"; str "b"]
  /\ undoCount h > maxHistory options.
Proof.
  intros options h. split; [reflexivity|]. split.
  - apply reachable_run. constructor.
  - vm_compute. split; reflexivity.
Qed.

End HistoryProperties.

(* ================================================================== *)
(** * The expression editor controller                                  *)
(* ================================================================== *)

Section EditorProperties.
Import Js ExpressionEditor.

(** [setExpression] and [clear] keep the cursor inside the expression,
    whether the validator accepts or rejects. *)
Lemma setExpression_clear_cursor_in_bounds options now (e : Editor) :
  0 <= cursorPosition e <= Js.length (expression e) ->
  (forall s,
      0 <= cursorPosition (setExpression options now s e)
      <= Js.length (expression (setExpression options now s e)))
  /\ 0 <= cursorPosition (clear options now e)
     <= Js.length (expression (clear options now e)).
Proof.
  intros Hc. split; [intros s|]; unfold clear, setExpression;
    destruct (match validator options with
              | Some validate => validate _
              | None => true
              end);
    unfold expression in *; simpl; try exact Hc;
    pose proof (length_nonneg (UndoRedo.value (UndoRedo.state (undoRedo e))));
    unfold Js.length in *; simpl; lia.
Qed.

Lemma length_slice_prefix {A} (l : list A) (k : Z) :
  0 <= k <= Js.length l -> Js.length (slice l 0 k) = k.
Proof.
  intros Hk. rewrite slice_0_firstn. unfold Js.length, relIndex in *.
  rewrite length_firstn. destruct (k <? 0) eqn:E; lia.
Qed.

Lemma setExpression_accepted options now (s : JsString) (e : Editor) :
  isValid (setExpression options now s e) = true ->
  expression (setExpression options now s e) = s.
Proof.
  unfold setExpression.
  destruct (match validator options with
            | Some validate => validate s
            | None => true
            end); [reflexivity | discriminate].
Qed.

(** A mutation that the validator accepts, made with the cursor and the
    start of the range inside the expression, leaves the cursor inside
    the new expression. *)
Lemma accepted_mutation_cursor_in_bounds options now (m : Mutation) (e : Editor) :
  isValid (mutate options now m e) = true ->
  0 <= cursorPosition e <= Js.length (expression e) ->
  match m with
  | MDeleteText start _ | MReplaceText start _ _ =>
      0 <= start <= Js.length (expression e)
  | _ => True
  end ->
  0 <= cursorPosition (mutate options now m e)
  <= Js.length (expression (mutate options now m e)).
Proof.
  intros Hv Hc Hm.
  destruct m as [s|text|start end_|start end_ replacement|]; simpl in *.
  - apply setExpression_clear_cursor_in_bounds. exact Hc.
  - unfold insertText in *.
    change (expression (withCursorPosition ?p ?x)) with (expression x).
    rewrite setExpression_accepted by exact Hv.
    rewrite !length_app, length_slice_prefix by exact Hc.
    pose proof (length_nonneg text).
    pose proof (length_nonneg (sliceFrom (expression e) (cursorPosition e))).
    simpl. lia.
  - unfold deleteText in *.
    change (expression (withCursorPosition ?p ?x)) with (expression x).
    rewrite setExpression_accepted by exact Hv.
    rewrite !length_app, length_slice_prefix by exact Hm.
    pose proof (length_nonneg (sliceFrom (expression e) end_)).
    simpl. lia.
  - unfold replaceText in *.
    change (expression (withCursorPosition ?p ?x)) with (expression x).
    rewrite setExpression_accepted by exact Hv.
    rewrite !length_app, length_slice_prefix by exact Hm.
    pose proof (length_nonneg replacement).
    pose proof (length_nonneg (sliceFrom (expression e) end_)).
    simpl. lia.
  - apply setExpression_clear_cursor_in_bounds. exact Hc.
Qed.

(** C1 -- When the injected validator rejects [s], [setExpression(s)]
    sets [isValid] to false and changes nothing else: the expression and
    the whole history hook (current value, undo stack, redo stack) stay
    as they were. *)
Theorem setExpression_rejects_invalid :
  forall options validate now s e,
    validator options = Some validate ->
    validate s = false ->
    let e' := setExpression options now s e in
    isValid e' = false
    /\ expression e' = expression e
    /\ UndoRedo.value (UndoRedo.state (undoRedo e'))
       = UndoRedo.value (UndoRedo.state (undoRedo e))
    /\ UndoRedo.undoStack (UndoRedo.state (undoRedo e'))
       = UndoRedo.undoStack (UndoRedo.state (undoRedo e))
    /\ UndoRedo.redoStack (UndoRedo.state (undoRedo e'))
       = UndoRedo.redoStack (UndoRedo.state (undoRedo e))
    /\ e' = withIsValid false e.
Proof.
  intros options validate now s e Hv Hs e'.
  assert (E : e' = withIsValid false e).
  { unfold e', setExpression. rewrite Hv, Hs. reflexivity. }
  rewrite E. repeat split.
Qed.

Lemma setExpression_rejects_invalid_witness :
  let options :=
    mkEditorOptions UndoRedo.defaultOptions (Some (str "1 + 2")) false
      (Some ExpressionUtils.validateExpression) in
  let e := useExpressionEditor options 0 in
  let e' := setExpression options 1 (str "(1 + 2") e in
  ExpressionUtils.validateExpression (str "(1 + 2") = false
  /\ isValid e' = false
  /\ expression e' = str "1 + 2"
  /\ UndoRedo.undoStack (UndoRedo.state (undoRedo e')) = [].
Proof.
  intros options e e'.
  destruct (setExpression_rejects_invalid options
              ExpressionUtils.validateExpression 1 (str "(1 + 2") e
              eq_refl eq_refl) as [H1 [H2 [_ [H4 _]]]].
  split; [reflexivity|]. split; [exact H1|]. split; [exact H2 | exact H4].
Defined.

(** C6 (the code departs from it) -- [insertText], [deleteText] and
    [replaceText] store a cursor computed from their arguments whatever
    became of the expression.  A rejected [insertText('(')] on the empty
    expression leaves the expression empty and the cursor at 1; without
    any validator, [deleteText(5, 7)] on ['abc'] leaves ['abc'] and the
    cursor at 5. *)
Theorem mutation_leaves_cursor_past_end :
  (let options :=
     mkEditorOptions UndoRedo.defaultOptions None false
       (Some ExpressionUtils.validateExpression) in
   let e := mutate options 1 (MInsertText (str "(")) (useExpressionEditor options 0) in
   isValid e = false
   /\ expression e = []
   /\ cursorPosition e = 1
   /\ cursorPosition e > Js.length (expression e))
  /\ (let options :=
        mkEditorOptions UndoRedo.defaultOptions (Some (str "abc")) false None in
      let e := mutate options 1 (MDeleteText 5 7) (useExpressionEditor options 0) in
      isValid e = true
      /\ expression e = str "abc"
      /\ cursorPosition e = 5
      /\ cursorPosition e > Js.length (expression e)).
Proof.
  vm_compute. repeat split; reflexivity.
Qed.

End EditorProperties.

(* ================================================================== *)
(** * Matching parentheses                                              *)
(* ================================================================== *)

Section ParenFacts.
Import Js ExpressionUtils Spec.

Lemma balance_app (a b : JsString) : balance (a ++ b) = balance a + balance b.
Proof. induction a as [|c a IH]; simpl; [reflexivity | rewrite IH; lia]. Qed.

Lemma parenWeight_range (c : codeUnit) : -1 <= parenWeight c <= 1.
Proof.
  unfold parenWeight. destruct (N.eqb c LPAREN), (N.eqb c RPAREN); lia.
Qed.

Lemma parenWeight_neg (c : codeUnit) : parenWeight c = -1 -> c = RPAREN.
Proof.
  unfold parenWeight.
  destruct (N.eqb c LPAREN), (N.eqb_spec c RPAREN); auto; lia.
Qed.

Lemma forward_step (c : codeUnit) (depth : Z) :
  (let d1 := if N.eqb c LPAREN then depth + 1 else depth in
   if N.eqb c RPAREN then d1 - 1 else d1) = depth + parenWeight c.
Proof.
  unfold parenWeight. destruct (N.eqb c LPAREN), (N.eqb c RPAREN); simpl; lia.
Qed.

Lemma backward_step (c : codeUnit) (depth : Z) :
  (let d1 := if N.eqb c RPAREN then depth + 1 else depth in
   if N.eqb c LPAREN then d1 - 1 else d1) = depth - parenWeight c.
Proof.
  unfold parenWeight. destruct (N.eqb c LPAREN), (N.eqb c RPAREN); simpl; lia.
Qed.

(** A successful forward scan stops at a closing parenthesis; the text it
    passed over never let the depth fall below one. *)
Lemma scanForward_found (rest : JsString) :
  forall depth i j,
    1 <= depth -> 0 <= i ->
    scanForward rest depth i = j -> j <> -1 ->
    exists mid rest',
      rest = mid ++ RPAREN :: rest'
      /\ j = i + Js.length mid
      /\ depth + balance mid = 1
      /\ forall k, 1 <= depth + balance (firstn k mid).
Proof.
  induction rest as [|c r IH]; intros depth i j Hd Hi Hscan Hj; simpl in Hscan.
  - congruence.
  - rewrite forward_step in Hscan.
    pose proof (parenWeight_range c) as Hw.
    destruct (depth + parenWeight c =? 0) eqn:E.
    + apply Z.eqb_eq in E.
      exists [], r. repeat split.
      * simpl. f_equal. apply parenWeight_neg. lia.
      * unfold Js.length; simpl. lia.
      * simpl. assert (parenWeight c = -1) by lia. lia.
      * intros k. rewrite firstn_nil. simpl. lia.
    + apply Z.eqb_neq in E.
      destruct (IH (depth + parenWeight c) (i + 1) j) as [mid [rest' [H1 [H2 [H3 H4]]]]];
        try lia; try assumption.
      exists (c :: mid), rest'. repeat split.
      * simpl. f_equal. exact H1.
      * rewrite length_cons. lia.
      * simpl. lia.
      * intros [|k]; simpl; [lia|]. specialize (H4 k). lia.
Qed.

Lemma scanBackward_cons (c : codeUnit) (r : JsString) (depth i : Z) :
  scanBackward (c :: r) depth i
  = if depth - parenWeight c =? 0 then i
    else scanBackward r (depth - parenWeight c) (i - 1).
Proof. simpl. rewrite backward_step. reflexivity. Qed.

(** The backward scan over text whose every tail is balanced or closing
    stops at the opening parenthesis before it. *)
Lemma scanBackward_finds (mid : JsString) :
  forall depth before i,
    balance mid = depth - 1 ->
    (forall k, balance (skipn k mid) <= depth - 1) ->
    scanBackward (rev mid ++ LPAREN :: before) depth i = i - Js.length mid.
Proof.
  induction mid as [|c mid IH] using rev_ind; intros depth before i Hb Hs.
  - change (rev [] ++ LPAREN :: before) with (LPAREN :: before).
    rewrite scanBackward_cons. simpl in Hb.
    change (parenWeight LPAREN) with 1.
    replace (depth - 1 =? 0) with true by (symmetry; apply Z.eqb_eq; lia).
    unfold Js.length; simpl. lia.
  - rewrite rev_unit.
    change ((c :: rev mid) ++ LPAREN :: before)
      with (c :: (rev mid ++ LPAREN :: before)).
    rewrite scanBackward_cons.
    rewrite balance_app in Hb. simpl in Hb.
    assert (Hc : parenWeight c <= depth - 1).
    { specialize (Hs (List.length mid)).
      rewrite skipn_app, skipn_all, Nat.sub_diag in Hs. simpl in Hs. lia. }
    replace (depth - parenWeight c =? 0) with false
      by (symmetry; apply Z.eqb_neq; lia).
    rewrite IH.
    + rewrite length_app. unfold Js.length; simpl. lia.
    + lia.
    + intros k. specialize (Hs (Nat.min k (List.length mid))).
      rewrite skipn_app in Hs.
      replace (Nat.min k (List.length mid) - List.length mid)%nat with 0%nat in Hs by lia.
      rewrite balance_app in Hs. simpl in Hs.
      destruct (Nat.le_gt_cases k (List.length mid)) as [Hk|Hk].
      * rewrite Nat.min_l in Hs by exact Hk. lia.
      * rewrite skipn_all2 by lia. simpl. lia.
Qed.

Lemma index_Some_split {A} (l : list A) (i : Z) (x : A) :
  index l i = Some x ->
  exists before after,
    l = before ++ x :: after /\ Js.length before = i.
Proof.
  unfold index. destruct (i <? 0) eqn:E; [discriminate|].
  intros H. apply nth_error_split in H. destruct H as [b [a [-> Hl]]].
  exists b, a. split; [reflexivity|]. unfold Js.length. lia.
Qed.

Lemma index_app_middle {A} (before after : list A) (x : A) :
  index (before ++ x :: after) (Js.length before) = Some x.
Proof.
  unfold index, Js.length.
  replace (Z.of_nat (List.length before) <? 0) with false by (symmetry; apply Z.ltb_ge; lia).
  rewrite Nat2Z.id, nth_error_app2, Nat.sub_diag by lia. reflexivity.
Qed.

(** C10 -- When [expression[openPos]] is an opening parenthesis and
    [findMatchingParen] returns an index [j] other than -1, then
    [findMatchingOpenParen] at [j] returns [openPos]. *)
Theorem findMatchingOpenParen_inverts_findMatchingParen :
  forall expression openPos j,
    index expression openPos = Some LPAREN ->
    findMatchingParen expression openPos = j ->
    j <> -1 ->
    findMatchingOpenParen expression j = openPos.
Proof.
  intros expression openPos j Hopen Hfind Hj.
  unfold findMatchingParen in Hfind. rewrite Hopen in Hfind. simpl in Hfind.
  destruct (index_Some_split _ _ _ Hopen) as [before [after [-> Hlen]]].
  assert (Hskip : skipn (Z.to_nat (openPos + 1)) (before ++ LPAREN :: after) = after).
  { replace (Z.to_nat (openPos + 1)) with (List.length before + 1)%nat
      by (unfold Js.length in Hlen; lia).
    rewrite skipn_app, skipn_all2, Nat.add_comm by lia.
    replace (1 + List.length before - List.length before)%nat with 1%nat by lia.
    reflexivity. }
  rewrite Hskip in Hfind.
  pose proof (length_nonneg before) as Hnn.
  destruct (scanForward_found after 1 (openPos + 1) j) as [mid [rest' [-> [Hjv [Hbal Hpre]]]]];
    try lia; try assumption.
  unfold findMatchingOpenParen.
  assert (Hjl : j = Js.length (before ++ LPAREN :: mid)).
  { rewrite length_app, length_cons. lia. }
  replace (before ++ LPAREN :: mid ++ RPAREN :: rest')
    with ((before ++ LPAREN :: mid) ++ RPAREN :: rest')
    by (rewrite <- app_assoc; reflexivity).
  rewrite Hjl at 1. rewrite index_app_middle. simpl.
  replace (Z.to_nat j) with (List.length (before ++ LPAREN :: mid))
    by (rewrite Hjl; unfold Js.length; lia).
  rewrite firstn_app, firstn_all, Nat.sub_diag, firstn_O, app_nil_r.
  rewrite rev_app_distr. simpl. rewrite <- app_assoc. simpl.
  rewrite scanBackward_finds.
  - lia.
  - lia.
  - intros k. specialize (Hpre k).
    pose proof (firstn_skipn k mid) as Hfs.
    apply (f_equal balance) in Hfs. rewrite balance_app in Hfs. lia.
Qed.

Lemma findMatchingOpenParen_inverts_findMatchingParen_witness :
  index (str "a((1) + (2))") 1 = Some LPAREN
  /\ findMatchingParen (str "a((1) + (2))") 1 = 11
  /\ 11 <> -1
  /\ findMatchingOpenParen (str "a((1) + (2))") 11 = 1.
Proof.
  split; [reflexivity|]. split; [reflexivity|]. split; [lia|].
  apply (findMatchingOpenParen_inverts_findMatchingParen (str "a((1) + (2))") 1 11).
  - reflexivity.
  - reflexivity.
  - lia.
Defined.

End ParenFacts.

(* ================================================================== *)
(** * Trimming and global replacement                                   *)
(* ================================================================== *)

Section ScanFacts.
Import Js.
Variable p : codeUnit -> bool.

Lemma takeWhile_app_all (w x : JsString) :
  forallb p w = true -> takeWhile p (w ++ x) = w ++ takeWhile p x.
Proof.
  induction w as [|a w IH]; simpl; [reflexivity|].
  intros H. apply andb_true_iff in H. destruct H as [-> H].
  rewrite IH by exact H. reflexivity.
Qed.

Lemma dropWhile_app_all (w x : JsString) :
  forallb p w = true -> dropWhile p (w ++ x) = dropWhile p x.
Proof.
  induction w as [|a w IH]; simpl; [reflexivity|].
  intros H. apply andb_true_iff in H. destruct H as [-> H].
  apply IH. exact H.
Qed.

Lemma dropWhile_all (w : JsString) : forallb p w = true -> dropWhile p w = [].
Proof.
  intros H. rewrite <- (app_nil_r w), dropWhile_app_all by exact H. reflexivity.
Qed.

Lemma dropWhile_app_stop (a b : JsString) (c : codeUnit) :
  p c = false -> dropWhile p (a ++ c :: b) = dropWhile p a ++ c :: b.
Proof.
  intros Hc. induction a as [|x a IH]; simpl.
  - rewrite Hc. reflexivity.
  - destruct (p x); [exact IH | reflexivity].
Qed.

(** [dropWhile] splits a string into a run inside [p] and a rest that
    does not start inside [p]. *)
Lemma dropWhile_split (s : JsString) :
  exists run,
    s = run ++ dropWhile p s
    /\ forallb p run = true
    /\ Spec.startsOutside p (dropWhile p s).
Proof.
  induction s as [|a s [run [H1 [H2 H3]]]]; simpl.
  - exists []. repeat split. intros c s' E; discriminate.
  - destruct (p a) eqn:E.
    + exists (a :: run). simpl. rewrite E, H2. repeat split.
      * f_equal. exact H1.
      * exact H3.
    + exists []. repeat split. intros c s' [= <- <-]. exact E.
Qed.

Lemma forallb_rev (w : JsString) : forallb p (rev w) = forallb p w.
Proof.
  induction w as [|a w IH]; simpl; [reflexivity|].
  rewrite forallb_app, IH. simpl. rewrite andb_true_r. apply andb_comm.
Qed.

End ScanFacts.

Section TrimFacts.
Import Js.

(** [trimEnd] splits a string into a rest that does not end with
    whitespace and a run of whitespace. *)
Lemma trimEnd_split (s : JsString) :
  exists run,
    s = trimEnd s ++ run
    /\ forallb isWhiteSpace run = true
    /\ Spec.endsOutside isWhiteSpace (trimEnd s).
Proof.
  unfold trimEnd.
  destruct (dropWhile_split isWhiteSpace (rev s)) as [run [H1 [H2 H3]]].
  exists (rev run). repeat split.
  - rewrite <- rev_app_distr, <- H1, rev_involutive. reflexivity.
  - rewrite forallb_rev. exact H2.
  - intros s' c E. apply (H3 c (rev s')).
    apply (f_equal (@rev codeUnit)) in E.
    rewrite rev_involutive, rev_unit in E. exact E.
Qed.

Lemma trimEnd_all (w : JsString) :
  forallb isWhiteSpace w = true -> trimEnd w = [].
Proof.
  intros H. unfold trimEnd. rewrite dropWhile_all; [reflexivity|].
  rewrite forallb_rev. exact H.
Qed.

Lemma trimEnd_app_stop (x y : JsString) (c : codeUnit) :
  isWhiteSpace c = false -> trimEnd (x ++ c :: y) = x ++ c :: trimEnd y.
Proof.
  intros Hc. unfold trimEnd.
  rewrite rev_app_distr. simpl. rewrite <- app_assoc. simpl.
  rewrite dropWhile_app_stop by exact Hc.
  rewrite rev_app_distr. simpl. rewrite rev_involutive, <- app_assoc.
  reflexivity.
Qed.

(** Passing over the rest of a match. *)
Lemma replaceAll_skip (re : Matcher) (w x : JsString) :
  replaceAll re (List.length w) (w ++ x) = replaceAll re 0 x.
Proof.
  induction w as [|a w IH]; simpl; [destruct x; reflexivity | exact IH].
Qed.

(** A match at the head of the input. *)
Lemma replaceAll_match (re : Matcher) (w x replacement : JsString) :
  w <> [] ->
  re (w ++ x) = Some (List.length w, replacement) ->
  replaceAll re 0 (w ++ x) = replacement ++ replaceAll re 0 x.
Proof.
  destruct w as [|a w]; [congruence|]. intros _ H.
  change (replaceAll re 0 ((a :: w) ++ x))
    with (match re ((a :: w) ++ x) with
          | Some (n, r) => r ++ replaceAll re (Nat.pred n) (w ++ x)
          | None => a :: replaceAll re 0 (w ++ x)
          end).
  rewrite H. simpl Nat.pred. rewrite replaceAll_skip. reflexivity.
Qed.

(** No match at the head of the input. *)
Lemma replaceAll_nomatch (re : Matcher) (a : codeUnit) (x : JsString) :
  re (a :: x) = None ->
  replaceAll re 0 (a :: x) = a :: replaceAll re 0 x.
Proof. intros H. simpl. rewrite H. reflexivity. Qed.

(** No match anywhere inside [w]. *)
Lemma replaceAll_copy (re : Matcher) (w x : JsString) :
  (forall w1 a w2, w = w1 ++ a :: w2 -> re (a :: w2 ++ x) = None) ->
  replaceAll re 0 (w ++ x) = w ++ replaceAll re 0 x.
Proof.
  induction w as [|a w IH]; intros H; [reflexivity|].
  change ((a :: w) ++ x) with (a :: (w ++ x)).
  rewrite replaceAll_nomatch by (apply (H [] a w); reflexivity).
  rewrite IH; [reflexivity|].
  intros w1 b w2 E. apply (H (a :: w1) b w2). rewrite E. reflexivity.
Qed.

Lemma whitespace_not_delimiter (a : codeUnit) :
  isWhiteSpace a = true ->
  N.eqb a LPAREN = false /\ N.eqb a RPAREN = false
  /\ ExpressionUtils.isArithmeticOperator a = false.
Proof.
  intros H. unfold ExpressionUtils.isArithmeticOperator.
  repeat split;
    repeat match goal with
      | |- context [N.eqb a ?k] =>
          destruct (N.eqb_spec a k); [subst a; vm_compute in H; discriminate H|]
      end; reflexivity.
Qed.

End TrimFacts.

(* ================================================================== *)
(** * formatExpression on layouts                                       *)
(* ================================================================== *)

Section LayoutFacts.
Import Js ExpressionUtils Layout.

Lemma render_addSpace (a : codeUnit) (l : Layout) :
  render (addSpace a l) = a :: render l.
Proof. destruct l; reflexivity. Qed.

Lemma wellFormed_addSpace (a : codeUnit) (l : Layout) :
  isWhiteSpace a = true -> wellFormed l = true -> wellFormed (addSpace a l) = true.
Proof. intros Ha; destruct l; simpl; rewrite Ha; auto. Qed.

Lemma render_parse (s : JsString) : render (parse s) = s.
Proof.
  induction s as [|a s IH]; simpl; [reflexivity|].
  destruct (isWhiteSpace a); [rewrite render_addSpace | simpl]; rewrite IH; reflexivity.
Qed.

Lemma wellFormed_parse (s : JsString) : wellFormed (parse s) = true.
Proof.
  induction s as [|a s IH]; simpl; [reflexivity|].
  destruct (isWhiteSpace a) eqn:E.
  - apply wellFormed_addSpace; assumption.
  - simpl. rewrite E, IH. reflexivity.
Qed.

Lemma wellFormed_Tok (g : JsString) (c : codeUnit) (r : Layout) :
  wellFormed (Tok g c r) = true ->
  forallb isWhiteSpace g = true /\ isWhiteSpace c = false /\ wellFormed r = true.
Proof.
  simpl. rewrite !andb_true_iff, negb_true_iff. tauto.
Qed.

Lemma takeWhile_gap (g x : JsString) (c : codeUnit) :
  forallb isWhiteSpace g = true -> isWhiteSpace c = false ->
  takeWhile isWhiteSpace (g ++ c :: x) = g.
Proof.
  intros Hg Hc. rewrite takeWhile_app_all by exact Hg. simpl.
  rewrite Hc. apply app_nil_r.
Qed.

Lemma dropWhile_gap (g x : JsString) (c : codeUnit) :
  forallb isWhiteSpace g = true -> isWhiteSpace c = false ->
  dropWhile isWhiteSpace (g ++ c :: x) = c :: x.
Proof.
  intros Hg Hc. rewrite dropWhile_app_all by exact Hg. simpl.
  rewrite Hc. reflexivity.
Qed.

Lemma takeWhile_whitespace (t : JsString) :
  forallb isWhiteSpace t = true -> takeWhile isWhiteSpace t = t.
Proof.
  intros H. rewrite <- (app_nil_r t) at 1.
  rewrite takeWhile_app_all by exact H. apply app_nil_r.
Qed.

Lemma render_leadGap (l : Layout) : render l = leadGap l ++ render (trimStartL l).
Proof. destruct l; simpl; [rewrite app_nil_r|]; reflexivity. Qed.

Lemma wellFormed_leadGap (l : Layout) :
  wellFormed l = true -> forallb isWhiteSpace (leadGap l) = true.
Proof. destruct l; simpl; [auto|]. rewrite !andb_true_iff. tauto. Qed.

Lemma takeWhile_render (l : Layout) :
  wellFormed l = true -> takeWhile isWhiteSpace (render l) = leadGap l.
Proof.
  destruct l as [t|g c r]; intros H.
  - apply takeWhile_whitespace. exact H.
  - apply wellFormed_Tok in H. destruct H as [Hg [Hc _]].
    apply takeWhile_gap; assumption.
Qed.

Lemma dropWhile_render (l : Layout) :
  wellFormed l = true -> dropWhile isWhiteSpace (render l) = render (trimStartL l).
Proof.
  destruct l as [t|g c r]; intros H.
  - apply dropWhile_all. exact H.
  - apply wellFormed_Tok in H. destruct H as [Hg [Hc _]].
    apply dropWhile_gap; assumption.
Qed.

Lemma forallb_suffix (w1 w2 : JsString) :
  forallb isWhiteSpace (w1 ++ w2) = true -> forallb isWhiteSpace w2 = true.
Proof. rewrite forallb_app, andb_true_iff. tauto. Qed.

(** [trim] *)

Lemma trimStart_render (l : Layout) :
  wellFormed l = true -> trimStart (render l) = render (trimStartL l).
Proof. apply dropWhile_render. Qed.

Lemma trimEnd_render (l : Layout) :
  wellFormed l = true -> trimEnd (render l) = render (trimEndL l).
Proof.
  induction l as [t|g c r IH]; intros H.
  - apply trimEnd_all. exact H.
  - apply wellFormed_Tok in H. destruct H as [_ [Hc Hr]].
    simpl. rewrite trimEnd_app_stop by exact Hc. rewrite IH by exact Hr.
    reflexivity.
Qed.

Lemma wellFormed_trimStartL (l : Layout) :
  wellFormed l = true -> wellFormed (trimStartL l) = true.
Proof. destruct l; simpl; [auto|]. rewrite !andb_true_iff. tauto. Qed.

(** [replace(/\s+/g, ' ')] *)

Lemma oneSpace_whitespace (g : JsString) : forallb isWhiteSpace (oneSpace g) = true.
Proof. destruct g; reflexivity. Qed.

Lemma reSpaces_gap (a : codeUnit) (g x : JsString) :
  forallb isWhiteSpace (a :: g) = true ->
  Spec.startsOutside isWhiteSpace x ->
  replaceAll reSpaces 0 ((a :: g) ++ x) = SPACE :: replaceAll reSpaces 0 x.
Proof.
  intros Hg Hx.
  apply (replaceAll_match reSpaces (a :: g) x [SPACE]); [discriminate|].
  unfold reSpaces. rewrite takeWhile_app_all by exact Hg.
  replace (takeWhile isWhiteSpace x) with (@nil codeUnit).
  - rewrite app_nil_r. reflexivity.
  - destruct x as [|c x]; [reflexivity|]. simpl.
    rewrite (Hx c x eq_refl). reflexivity.
Qed.

Lemma collapseGaps_render (l : Layout) :
  wellFormed l = true ->
  replaceAll reSpaces 0 (render l) = render (collapseGaps l).
Proof.
  induction l as [t|g c r IH]; intros H.
  - simpl in *. destruct t as [|a t]; [reflexivity|].
    rewrite <- (app_nil_r (a :: t)).
    rewrite reSpaces_gap; [reflexivity | exact H | intros c s' E; discriminate].
  - apply wellFormed_Tok in H. destruct H as [Hg [Hc Hr]].
    assert (Htok : replaceAll reSpaces 0 (c :: render r)
                   = c :: render (collapseGaps r)).
    { rewrite replaceAll_nomatch, IH by (auto; unfold reSpaces; simpl; rewrite Hc; reflexivity).
      reflexivity. }
    simpl. destruct g as [|a g]; [exact Htok|].
    rewrite reSpaces_gap; [rewrite Htok; reflexivity | exact Hg |].
    intros c' s' [= <- _]. exact Hc.
Qed.

Lemma wellFormed_collapseGaps (l : Layout) :
  wellFormed l = true -> wellFormed (collapseGaps l) = true.
Proof.
  induction l as [t|g c r IH]; intros H; simpl.
  - apply oneSpace_whitespace.
  - apply wellFormed_Tok in H. destruct H as [Hg [Hc Hr]].
    rewrite oneSpace_whitespace, Hc, IH by exact Hr. reflexivity.
Qed.

End LayoutFacts.

Section FormatFacts.
Import Js ExpressionUtils Layout.

(** [replace(/\(\s+/g, '(')] *)

Lemma reOpenSpaces_whitespace (a : codeUnit) (x : JsString) :
  isWhiteSpace a = true -> reOpenSpaces (a :: x) = None.
Proof.
  intros Ha. unfold reOpenSpaces.
  destruct (whitespace_not_delimiter a Ha) as [-> _]. reflexivity.
Qed.

Lemma reOpenSpaces_copy (g x : JsString) :
  forallb isWhiteSpace g = true ->
  replaceAll reOpenSpaces 0 (g ++ x) = g ++ replaceAll reOpenSpaces 0 x.
Proof.
  intros Hg. apply replaceAll_copy. intros w1 a w2 E.
  apply reOpenSpaces_whitespace.
  rewrite E in Hg. apply forallb_suffix in Hg. simpl in Hg.
  apply andb_true_iff in Hg. tauto.
Qed.

Lemma closeUpAfterOpen_render (l : Layout) :
  wellFormed l = true ->
  replaceAll reOpenSpaces 0 (render l) = render (closeUpAfterOpen false l)
  /\ replaceAll reOpenSpaces 0 (render (trimStartL l))
     = render (closeUpAfterOpen true l).
Proof.
  induction l as [t|g c r IH]; intros H.
  - split; [|reflexivity]. simpl.
    rewrite <- (app_nil_r t) at 1. rewrite reOpenSpaces_copy by exact H.
    apply app_nil_r.
  - apply wellFormed_Tok in H. destruct H as [Hg [Hc Hr]].
    destruct (IH Hr) as [IHa IHb].
    assert (Htok : replaceAll reOpenSpaces 0 (c :: render r)
                   = c :: render (closeUpAfterOpen (N.eqb c LPAREN) r)).
    { pose proof (render_leadGap r) as Hrr.
      pose proof (takeWhile_render r Hr) as Htw.
      destruct (N.eqb c LPAREN) eqn:E.
      - destruct (leadGap r) as [|a g'] eqn:El.
        + rewrite replaceAll_nomatch.
          * simpl in Hrr. rewrite Hrr, IHb. reflexivity.
          * unfold reOpenSpaces. rewrite E, Htw. reflexivity.
        + rewrite Hrr.
          change (c :: (a :: g') ++ render (trimStartL r))
            with ((c :: a :: g') ++ render (trimStartL r)).
          rewrite (replaceAll_match reOpenSpaces (c :: a :: g') _ [LPAREN]).
          * rewrite IHb. apply N.eqb_eq in E. subst c. reflexivity.
          * discriminate.
          * unfold reOpenSpaces.
            change ((c :: a :: g') ++ render (trimStartL r))
              with (c :: ((a :: g') ++ render (trimStartL r))).
            cbv beta iota. rewrite E, <- Hrr, Htw. reflexivity.
      - rewrite replaceAll_nomatch, IHa; [reflexivity|].
        unfold reOpenSpaces. rewrite E. reflexivity. }
    split; simpl.
    + rewrite reOpenSpaces_copy by exact Hg. rewrite Htok. reflexivity.
    + exact Htok.
Qed.

Lemma wellFormed_closeUpAfterOpen (l : Layout) :
  forall afterOpen,
    wellFormed l = true -> wellFormed (closeUpAfterOpen afterOpen l) = true.
Proof.
  induction l as [t|g c r IH]; intros afterOpen H; simpl.
  - destruct afterOpen; [reflexivity | exact H].
  - apply wellFormed_Tok in H. destruct H as [Hg [Hc Hr]].
    rewrite Hc, IH by exact Hr. destruct afterOpen; simpl; [reflexivity|].
    rewrite Hg. reflexivity.
Qed.

(** [replace(/\s+\)/g, ')')] *)

Lemma reSpacesClose_whitespace (t : JsString) :
  forallb isWhiteSpace t = true -> reSpacesClose t = None.
Proof.
  intros H. unfold reSpacesClose. rewrite dropWhile_all by exact H.
  destruct (takeWhile isWhiteSpace t); reflexivity.
Qed.

Lemma reSpacesClose_gap (g x : JsString) (c : codeUnit) :
  forallb isWhiteSpace g = true -> isWhiteSpace c = false ->
  reSpacesClose (g ++ c :: x)
  = match g with
    | [] => None
    | _ => if N.eqb c RPAREN then Some (S (List.length g), [RPAREN]) else None
    end.
Proof.
  intros Hg Hc. unfold reSpacesClose.
  rewrite takeWhile_gap, dropWhile_gap by assumption.
  destruct g; reflexivity.
Qed.

Lemma closeUpBeforeClose_render (l : Layout) :
  wellFormed l = true ->
  replaceAll reSpacesClose 0 (render l) = render (closeUpBeforeClose l).
Proof.
  induction l as [t|g c r IH]; intros H.
  - simpl. rewrite <- (app_nil_r t) at 1.
    rewrite replaceAll_copy; [apply app_nil_r|].
    intros w1 a w2 E. rewrite app_nil_r. apply reSpacesClose_whitespace.
    simpl in H. rewrite E in H. apply forallb_suffix in H. exact H.
  - apply wellFormed_Tok in H. destruct H as [Hg [Hc Hr]].
    assert (Htok : replaceAll reSpacesClose 0 (c :: render r)
                   = c :: render (closeUpBeforeClose r)).
    { rewrite replaceAll_nomatch, IH; auto.
      apply (reSpacesClose_gap [] (render r) c eq_refl Hc). }
    simpl. destruct (N.eqb c RPAREN) eqn:E.
    + destruct g as [|a g]; [exact Htok|].
      replace ((a :: g) ++ c :: render r) with (((a :: g) ++ [c]) ++ render r)
        by (rewrite <- app_assoc; reflexivity).
      rewrite (replaceAll_match reSpacesClose _ _ [RPAREN]).
      * rewrite IH by exact Hr. apply N.eqb_eq in E. subst c. reflexivity.
      * discriminate.
      * rewrite <- app_assoc. simpl app at 2.
        rewrite reSpacesClose_gap, E by assumption.
        rewrite List.length_app, Nat.add_1_r. reflexivity.
    + rewrite replaceAll_copy; [rewrite Htok; reflexivity|].
      intros w1 a w2 E'.
      change (a :: w2 ++ c :: render r) with ((a :: w2) ++ c :: render r).
      rewrite reSpacesClose_gap, E; [reflexivity | | exact Hc].
      rewrite E' in Hg. apply forallb_suffix in Hg. exact Hg.
Qed.

Lemma wellFormed_closeUpBeforeClose (l : Layout) :
  wellFormed l = true -> wellFormed (closeUpBeforeClose l) = true.
Proof.
  induction l as [t|g c r IH]; intros H; simpl; [exact H|].
  apply wellFormed_Tok in H. destruct H as [Hg [Hc Hr]].
  rewrite Hc, IH by exact Hr. destruct (N.eqb c RPAREN); simpl; [reflexivity|].
  rewrite Hg. reflexivity.
Qed.

End FormatFacts.

Section OperatorSpacing.
Import Js ExpressionUtils Layout.

(** [replace(/\s*([+\-*/])\s*/g, ' $1 ')] *)

Lemma reOperator_whitespace (t : JsString) :
  forallb isWhiteSpace t = true -> reOperator t = None.
Proof.
  intros H. unfold reOperator. rewrite dropWhile_all by exact H. reflexivity.
Qed.

Lemma reOperator_gap (g : JsString) (c : codeUnit) (r : Layout) :
  forallb isWhiteSpace g = true -> isWhiteSpace c = false ->
  wellFormed r = true ->
  reOperator (g ++ c :: render r)
  = if isArithmeticOperator c
    then Some ((List.length g + S (List.length (leadGap r)))%nat, [SPACE; c; SPACE])
    else None.
Proof.
  intros Hg Hc Hr. unfold reOperator.
  rewrite takeWhile_gap, dropWhile_gap, takeWhile_render by assumption.
  reflexivity.
Qed.

Lemma spaceOperators_render (l : Layout) :
  wellFormed l = true ->
  replaceAll reOperator 0 (render l) = render (spaceOperators false l)
  /\ SPACE :: replaceAll reOperator 0 (render (trimStartL l))
     = render (spaceOperators true l).
Proof.
  induction l as [t|g c r IH]; intros H.
  - split; [|reflexivity]. simpl. rewrite <- (app_nil_r t) at 1.
    rewrite replaceAll_copy; [apply app_nil_r|].
    intros w1 a w2 E. rewrite app_nil_r. apply reOperator_whitespace.
    simpl in H. rewrite E in H. apply forallb_suffix in H. exact H.
  - apply wellFormed_Tok in H. destruct H as [Hg [Hc Hr]].
    destruct (IH Hr) as [IHa IHb].
    destruct (isArithmeticOperator c) eqn:E.
    + (* the operator, the gap before it and the gap after it are one match *)
      assert (Hop : forall g', forallb isWhiteSpace g' = true ->
                replaceAll reOperator 0 (g' ++ c :: render r)
                = SPACE :: c :: render (spaceOperators true r)).
      { intros g' Hg'. rewrite <- IHb.
        pose proof (reOperator_gap g' c r Hg' Hc Hr) as Hm. rewrite E in Hm.
        rewrite (render_leadGap r) in Hm |- *.
        replace (g' ++ c :: leadGap r ++ render (trimStartL r))
          with ((g' ++ c :: leadGap r) ++ render (trimStartL r)) in Hm |- *
          by (rewrite <- app_assoc; reflexivity).
        rewrite (replaceAll_match reOperator _ _ [SPACE; c; SPACE]).
        - reflexivity.
        - destruct g'; discriminate.
        - rewrite Hm, List.length_app. reflexivity. }
      split; cbn [render spaceOperators trimStartL app]; rewrite E.
      * rewrite Hop by exact Hg. reflexivity.
      * pose proof (Hop [] eq_refl) as Hop0.
        change ([] ++ c :: render r) with (c :: render r) in Hop0.
        rewrite Hop0. reflexivity.
    + assert (Htok : replaceAll reOperator 0 (c :: render r)
                     = c :: render (spaceOperators false r)).
      { rewrite replaceAll_nomatch, IHa; [reflexivity|].
        pose proof (reOperator_gap [] c r eq_refl Hc Hr) as Hm.
        rewrite E in Hm. exact Hm. }
      split; cbn [render spaceOperators trimStartL app]; rewrite E.
      * rewrite replaceAll_copy; [rewrite Htok; reflexivity|].
        intros w1 a w2 E'.
        change (a :: w2 ++ c :: render r) with ((a :: w2) ++ c :: render r).
        rewrite reOperator_gap, E; [reflexivity | | exact Hc | exact Hr].
        rewrite E' in Hg. apply forallb_suffix in Hg. exact Hg.
      * rewrite Htok. reflexivity.
Qed.

Lemma wellFormed_spaceOperators (l : Layout) :
  forall afterOp,
    wellFormed l = true -> wellFormed (spaceOperators afterOp l) = true.
Proof.
  induction l as [t|g c r IH]; intros afterOp H; simpl.
  - destruct afterOp; [reflexivity | exact H].
  - apply wellFormed_Tok in H. destruct H as [Hg [Hc Hr]].
    rewrite Hc, IH by exact Hr.
    destruct afterOp, (isArithmeticOperator c); simpl; try reflexivity.
    rewrite Hg. reflexivity.
Qed.

Lemma wellFormed_trimEndL (l : Layout) :
  wellFormed l = true -> wellFormed (trimEndL l) = true.
Proof.
  induction l as [t|g c r IH]; intros H; simpl; [reflexivity|].
  apply wellFormed_Tok in H. destruct H as [Hg [Hc Hr]].
  rewrite Hg, Hc, IH by exact Hr. reflexivity.
Qed.

Lemma wellFormed_spaced (l : Layout) (afterOpen afterOp : bool) :
  wellFormed l = true -> wellFormed (spaced afterOpen afterOp l) = true.
Proof.
  intros H. unfold spaced.
  apply wellFormed_spaceOperators, wellFormed_closeUpBeforeClose,
    wellFormed_closeUpAfterOpen, wellFormed_collapseGaps, H.
Qed.

Lemma wellFormed_formatL (l : Layout) :
  wellFormed l = true -> wellFormed (formatL l) = true.
Proof.
  intros H. unfold formatL.
  apply wellFormed_trimEndL, wellFormed_trimStartL, wellFormed_spaced, H.
Qed.

(** [formatExpression] acts on the gaps of a layout. *)
Lemma formatExpression_render (l : Layout) :
  wellFormed l = true -> formatExpression (render l) = render (formatL l).
Proof.
  intros H. unfold formatExpression, formatL, spaced, trim.
  pose proof (wellFormed_collapseGaps l H) as H1.
  pose proof (wellFormed_closeUpAfterOpen _ false H1) as H2.
  pose proof (wellFormed_closeUpBeforeClose _ H2) as H3.
  pose proof (wellFormed_spaceOperators _ false H3) as H4.
  rewrite (collapseGaps_render l H).
  rewrite (proj1 (closeUpAfterOpen_render _ H1)).
  rewrite (closeUpBeforeClose_render _ H2).
  rewrite (proj1 (spaceOperators_render _ H3)).
  rewrite (trimStart_render _ H4).
  rewrite (trimEnd_render _ (wellFormed_trimStartL _ H4)).
  reflexivity.
Qed.

(** On layouts the four replacements are idempotent, and trimming
    commutes with them. *)

Lemma oneSpace_idem (g : JsString) : oneSpace (oneSpace g) = oneSpace g.
Proof. destruct g; reflexivity. Qed.

Lemma spaced_idem (l : Layout) :
  forall afterOpen afterOp,
    spaced afterOpen afterOp (spaced afterOpen afterOp l)
    = spaced afterOpen afterOp l.
Proof.
  induction l as [t|g c r IH]; intros afterOpen afterOp.
  - unfold spaced; simpl. destruct afterOp, afterOpen; simpl;
      rewrite ?oneSpace_idem; reflexivity.
  - change (spaced afterOpen afterOp (Tok g c r))
      with (Tok ((if afterOp then [SPACE] else [])
                 ++ (if isArithmeticOperator c then [SPACE]
                     else if afterOp then []
                          else if N.eqb c RPAREN then []
                               else if afterOpen then [] else oneSpace g))
              c (spaced (N.eqb c LPAREN) (isArithmeticOperator c) r)).
    unfold spaced at 1. simpl. fold (spaced (N.eqb c LPAREN) (isArithmeticOperator c)
                                      (spaced (N.eqb c LPAREN) (isArithmeticOperator c) r)).
    rewrite IH. f_equal.
    destruct afterOp, (isArithmeticOperator c), (N.eqb c RPAREN), afterOpen;
      simpl; rewrite ?oneSpace_idem; reflexivity.
Qed.

Lemma spaced_trimEndL (l : Layout) :
  forall afterOpen afterOp,
    trimEndL (spaced afterOpen afterOp (trimEndL l))
    = trimEndL (spaced afterOpen afterOp l).
Proof.
  induction l as [t|g c r IH]; intros afterOpen afterOp.
  - reflexivity.
  - unfold spaced in *. simpl. f_equal. apply IH.
Qed.

Lemma spaced_trimStartL (l : Layout) (afterOpen afterOp : bool) :
  trimStartL (spaced afterOpen afterOp (trimStartL l))
  = trimStartL (spaced afterOpen afterOp l).
Proof. destruct l; reflexivity. Qed.

Lemma trimEndL_trimStartL (l : Layout) :
  trimEndL (trimStartL l) = trimStartL (trimEndL l).
Proof. destruct l; reflexivity. Qed.

Lemma formatL_idem (l : Layout) : formatL (formatL l) = formatL l.
Proof.
  unfold formatL.
  rewrite (trimEndL_trimStartL (spaced false false (trimEndL _))).
  rewrite spaced_trimEndL.
  rewrite <- trimEndL_trimStartL.
  rewrite spaced_trimStartL.
  rewrite spaced_idem. reflexivity.
Qed.

(** C9 -- [formatExpression] is idempotent: formatting a formatted
    string changes nothing. *)
Theorem formatExpression_idempotent :
  forall s, formatExpression (formatExpression s) = formatExpression s.
Proof.
  intros s. rewrite <- (render_parse s).
  pose proof (wellFormed_parse s) as H.
  rewrite (formatExpression_render _ H).
  rewrite (formatExpression_render _ (wellFormed_formatL _ H)).
  rewrite formatL_idem. reflexivity.
Qed.

End OperatorSpacing.

(* ================================================================== *)
(** * Smart operator insertion                                          *)
(* ================================================================== *)

Section InsertOperator.
Import Js ExpressionUtils.

Lemma slice_drop_last {A} (kept : list A) (c : A) :
  slice (kept ++ [c]) 0 (-1) = kept.
Proof.
  rewrite slice_0_firstn, length_app.
  change (Js.length [c]) with 1.
  pose proof (length_nonneg kept) as Hk.
  replace (Z.to_nat (relIndex (Js.length kept + 1) (-1))) with (List.length kept).
  - rewrite firstn_app, firstn_all, Nat.sub_diag. apply app_nil_r.
  - unfold relIndex. change (-1 <? 0) with true. cbv iota.
    unfold Js.length in *. lia.
Qed.

Lemma endsWithOperator_snoc (kept : JsString) (c : codeUnit) :
  endsWithOperator (kept ++ [c]) = isArithmeticOperator c.
Proof. unfold endsWithOperator. rewrite pop_snoc. reflexivity. Qed.

Lemma isArithmeticOperator_spec (c : codeUnit) :
  isArithmeticOperator c = true <-> In c (str "+-*/").
Proof.
  unfold isArithmeticOperator. rewrite !orb_true_iff, !N.eqb_eq.
  change (str "+-*/") with [PLUS; MINUS; STAR; SLASH]. cbn [In].
  intuition congruence.
Qed.

(** [insertOperator] cuts the expression at the cursor, strips the
    whitespace that ends the prefix and the whitespace that starts the
    suffix; when the stripped prefix ends in one of the four characters
    [+ - * /] that character is dropped and the new operator takes its
    place, and when it ends in any other character, or is empty, the new
    operator follows the stripped prefix; in both cases the operator
    stands between two spaces and the returned cursor is just after the
    space that follows it.  Scenario 2: [insertOperator('5', '+', 1)] is
    [{expression: '5 + ', cursorPos: 4}]. *)
Lemma insertOperator_spaces_or_replaces :
  (forall expr op pos,
      let before := trimEnd (slice expr 0 pos) in
      let after := trimStart (sliceFrom expr pos) in
      let result := insertOperator expr op pos in
      (exists run,
          slice expr 0 pos = before ++ run /\ forallb isWhiteSpace run = true)
      /\ Spec.endsOutside isWhiteSpace before
      /\ (exists run,
             sliceFrom expr pos = run ++ after /\ forallb isWhiteSpace run = true)
      /\ Spec.startsOutside isWhiteSpace after
      /\ (forall kept c,
             before = kept ++ [c] -> In c (str "+-*/") ->
             expression result = kept ++ [SPACE] ++ op ++ [SPACE] ++ after
             /\ cursorPos result = Js.length (kept ++ [SPACE] ++ op ++ [SPACE]))
      /\ ((forall kept c, before = kept ++ [c] -> ~ In c (str "+-*/")) ->
          expression result = before ++ [SPACE] ++ op ++ [SPACE] ++ after
          /\ cursorPos result = Js.length (before ++ [SPACE] ++ op ++ [SPACE])))
  /\ insertOperator (str "5") (str "+") 1 = mkEdit (str "5 + ") 4.
Proof.
  split; [|reflexivity].
  intros expr op pos before after result.
  destruct (trimEnd_split (slice expr 0 pos)) as [runB [HB1 [HB2 HB3]]].
  destruct (dropWhile_split isWhiteSpace (sliceFrom expr pos)) as [runA [HA1 [HA2 HA3]]].
  fold before in HB1, HB3.
  change (dropWhile isWhiteSpace (sliceFrom expr pos)) with after in HA1, HA3.
  split; [exists runB; auto|]. split; [exact HB3|].
  split; [exists runA; auto|]. split; [exact HA3|].
  assert (Hlen : forall x : JsString,
             Js.length (x ++ [SPACE] ++ op ++ [SPACE])
             = Js.length x + Js.length op + 2).
  { intros x. rewrite !length_app. change (Js.length [SPACE]) with 1. lia. }
  split.
  - intros kept c Hk Hc. apply isArithmeticOperator_spec in Hc.
    unfold result, insertOperator. fold before after.
    rewrite Hk, endsWithOperator_snoc, Hc, slice_drop_last, Hlen.
    replace (Js.length (kept ++ [c]) >? 0) with true.
    + simpl. split; reflexivity.
    + symmetry. apply Z.gtb_lt. rewrite length_app.
      pose proof (length_nonneg kept). change (Js.length [c]) with 1. lia.
  - intros Hno.
    unfold result, insertOperator. fold before after.
    replace ((Js.length before >? 0) && endsWithOperator before) with false.
    + simpl. rewrite Hlen. split; reflexivity.
    + symmetry. destruct before as [|b0 before'] using rev_ind.
      * reflexivity.
      * rewrite endsWithOperator_snoc.
        destruct (isArithmeticOperator b0) eqn:E; [|apply andb_false_r].
        apply isArithmeticOperator_spec in E.
        destruct (Hno _ _ eq_refl E).
Qed.

(** C8 -- [insertOperator] replaces a trailing operator only when it is
    one of [+ - * /].  The characters [^] and [%] are operators for
    [isOperator], and the editor component passes a typed [^] to
    [insertOperator]; yet whenever the stripped prefix ends in [^] or [%]
    that operator stays and the new one is put behind it, so that two
    operators stand in a row.  [insertOperator('2^', '+', 2)] is
    ['2^ + '] and [insertOperator('50%', '*', 3)] is ['50% * ']; typing
    [^] and then [+] after ['2'] gives ['2 ^ + '], while typing [*] and
    then [+] gives ['2  + ']. *)
Theorem insertOperator_stacks_after_caret :
  (forall expr op pos kept c,
      trimEnd (slice expr 0 pos) = kept ++ [c] ->
      In c (str "^%") ->
      isOperator [c] = true
      /\ insertOperator expr op pos
         = mkEdit
             (kept ++ [c] ++ [SPACE] ++ op ++ [SPACE]
                   ++ trimStart (sliceFrom expr pos))
             (Js.length (kept ++ [c] ++ [SPACE] ++ op ++ [SPACE])))
  /\ isOperator (str "^") = true
  /\ isOperator (str "%") = true
  /\ insertOperator (str "2^") (str "+") 2 = mkEdit (str "2^ + ") 5
  /\ insertOperator (str "50%") (str "*") 3 = mkEdit (str "50% * ") 6
  /\ (let typed := insertOperator (str "2") (str "^") 1 in
      typed = mkEdit (str "2 ^ ") 4
      /\ insertOperator (expression typed) (str "+") (cursorPos typed)
         = mkEdit (str "2 ^ + ") 6)
  /\ (let typed := insertOperator (str "2") (str "*") 1 in
      typed = mkEdit (str "2 * ") 4
      /\ insertOperator (expression typed) (str "+") (cursorPos typed)
         = mkEdit (str "2  + ") 5).
Proof.
  split; [|repeat split].
  intros expr op pos kept c Hk Hc.
  change (str "^%") with [CARET; PERCENT] in Hc. cbn [In] in Hc.
  assert (Hop : isOperator [c] = true).
  { destruct Hc as [<- | [<- | []]]; reflexivity. }
  assert (Hnot : ~ In c (str "+-*/")).
  { change (str "+-*/") with [PLUS; MINUS; STAR; SLASH]. cbn [In].
    destruct Hc as [<- | [<- | []]]; intros [H | [H | [H | [H | []]]]];
      discriminate H. }
  split; [exact Hop|].
  destruct (proj1 insertOperator_spaces_or_replaces expr op pos)
    as (_ & _ & _ & _ & _ & Hstack).
  cbv zeta in Hstack. rewrite Hk in Hstack.
  destruct Hstack as [He Hp].
  - intros kept' c' Hsame. apply app_inj_tail in Hsame.
    destruct Hsame as [_ <-]. exact Hnot.
  - destruct (insertOperator expr op pos) as [e p].
    cbn [expression cursorPos] in He, Hp. rewrite He, Hp, <- !app_assoc.
    reflexivity.
Qed.

(** The operator that is replaced leaves the whitespace before it. *)
Example insertOperator_replaces :
  insertOperator (str "5 +") (str "*") 3 = mkEdit (str "5  * ") 5.
Proof. reflexivity. Qed.

(** The replaced class is [+ - * /] only: a caret stays. *)
Example insertOperator_after_caret :
  insertOperator (str "2^") (str "+") 2 = mkEdit (str "2^ + ") 5.
Proof. reflexivity. Qed.

End InsertOperator.

(* ================================================================== *)
(** * The values the test file and the guide state                      *)
(* ================================================================== *)

Section Examples.
Import Js.

Example slice_negative_start :
  sliceFrom [1; 2; 3; 4] (-3) = [2; 3; 4] /\ sliceFrom [1; 2; 3; 4] 0 = [1; 2; 3; 4]
  /\ slice [1; 2; 3; 4] 0 2 = [1; 2] /\ slice [1; 2; 3; 4] 3 1 = [].
Proof. repeat split. Qed.

Example respects_max_history_limit :
  let options := UndoRedo.mkOptions (Some 3) None false in
  UndoRedo.undoCount
    (UndoRedo.run options
       (map UndoRedo.CSetValue [str "1"; str "2"; str "3"; str "4"])
       (UndoRedo.useUndoRedo (str "initial"))) = 3.
Proof. reflexivity. Qed.

Example first_edit_from_empty_not_recorded :
  UndoRedo.undoCount
    (UndoRedo.setValue UndoRedo.defaultOptions (str "a") (UndoRedo.useUndoRedo []))
  = 0.
Proof. reflexivity. Qed.

Example validateExpression_boundaries :
  ExpressionUtils.validateExpression (str "") = true
  /\ ExpressionUtils.validateExpression (str "(") = false
  /\ ExpressionUtils.validateExpression (str "())") = false
  /\ ExpressionUtils.validateExpression (str "[(1+2)]") = true
  /\ ExpressionUtils.validateExpression (str "[1, 2, 3") = false.
Proof. repeat split. Qed.

Example find_matching_parentheses :
  ExpressionUtils.findMatchingParen (str "(1 + 2)") 0 = 6
  /\ ExpressionUtils.findMatchingOpenParen (str "(1 + 2)") 6 = 0
  /\ ExpressionUtils.findMatchingParen (str "(()") 0 = -1
  /\ ExpressionUtils.findMatchingParen (str "1 + 2") 0 = -1
  /\ ExpressionUtils.findMatchingParen (str "(1)") 7 = -1.
Proof. repeat split. Qed.

Example formatExpression_values :
  ExpressionUtils.formatExpression (str "2+3") = str "2 + 3"
  /\ ExpressionUtils.formatExpression (str "( 1+2 )*3") = str "(1 + 2) * 3"
  /\ ExpressionUtils.formatExpression (str "a  -  -b") = str "a -  - b"
  /\ ExpressionUtils.formatExpression (str "-x") = str "- x"
  /\ ExpressionUtils.formatExpression ([9%N] ++ str "1 *" ++ [10%N] ++ str "2 ")
     = str "1 * 2"
  /\ ExpressionUtils.formatExpression (str "   ") = [].
Proof. repeat split. Qed.

Example delete_text_in_range :
  let options :=
    ExpressionEditor.mkEditorOptions UndoRedo.defaultOptions
      (Some (str "sin(x) + cos(x)")) false None in
  ExpressionEditor.expression
    (ExpressionEditor.deleteText options 1 0 7
       (ExpressionEditor.useExpressionEditor options 0))
  = str "+ cos(x)".
Proof. reflexivity. Qed.

End Examples.

(* ================================================================== *)
(** * More on the history store                                         *)
(* ================================================================== *)

Section SliceFacts.
Import Js.

Lemma slice_0_length_le {A} (l : list A) (m : Z) :
  0 <= m -> Js.length (slice l 0 m) <= m.
Proof.
  intros Hm. rewrite slice_0_firstn. unfold Js.length, relIndex.
  rewrite length_firstn. destruct (m <? 0) eqn:E; lia.
Qed.

Lemma slice_0_all {A} (l : list A) (m : Z) :
  Js.length l <= m -> slice l 0 m = l.
Proof.
  intros Hm. rewrite slice_0_firstn. apply firstn_all2.
  pose proof (length_nonneg l). unfold Js.length, relIndex in *.
  destruct (m <? 0) eqn:E; lia.
Qed.

Lemma slice_0_prefix {A} (l : list A) (m : Z) :
  exists dropped, l = slice l 0 m ++ dropped.
Proof.
  rewrite slice_0_firstn. eexists. symmetry. apply firstn_skipn.
Qed.

Lemma sliceFrom_neg_all {A} (l : list A) (m : Z) :
  0 <= m -> Js.length l <= m -> sliceFrom l (- m) = l.
Proof.
  intros Hm Hl. rewrite sliceFrom_skipn.
  replace (Z.to_nat (relIndex (Js.length l) (- m))) with 0%nat; [reflexivity|].
  pose proof (length_nonneg l). unfold relIndex.
  destruct (- m <? 0) eqn:E; lia.
Qed.

(** [l.slice(-m)] keeps the last element when [m] is not negative. *)
Lemma sliceFrom_neg_keeps_last {A} (l : list A) (x : A) (m : Z) :
  0 <= m -> exists kept, sliceFrom (l ++ [x]) (- m) = kept ++ [x].
Proof.
  intros Hm.
  destruct (sliceFrom_suffix (l ++ [x]) (- m)) as [dropped Hd].
  destruct (sliceFrom (l ++ [x]) (- m)) as [|y rest] eqn:E
    using rev_ind.
  - exfalso.
    assert (Hlen : Js.length (sliceFrom (l ++ [x]) (- m)) = 0)
      by (rewrite E; reflexivity).
    rewrite sliceFrom_skipn in Hlen.
    unfold Js.length, relIndex in Hlen.
    rewrite length_skipn, List.length_app in Hlen. simpl in Hlen.
    destruct (- m <? 0) eqn:E'; lia.
  - rewrite app_assoc in Hd. apply app_inj_tail in Hd. destruct Hd as [_ <-].
    exists rest. reflexivity.
Qed.

(** [l.slice(a, b)] for indices inside the array. *)
Lemma slice_inside {A} (l : list A) (a b : Z) :
  0 <= a <= Js.length l -> 0 <= b <= Js.length l ->
  slice l a b = firstn (Z.to_nat (b - a)) (skipn (Z.to_nat a) l).
Proof.
  intros Ha Hb. unfold slice, relIndex.
  destruct (a <? 0) eqn:Ea; [lia|]. destruct (b <? 0) eqn:Eb; [lia|].
  rewrite !Z.min_l by lia. reflexivity.
Qed.

Lemma slice_middle {A} (a m b : list A) :
  slice (a ++ m ++ b) (Js.length a) (Js.length a + Js.length m) = m.
Proof.
  pose proof (length_nonneg a). pose proof (length_nonneg m).
  pose proof (length_nonneg b).
  rewrite slice_inside by (rewrite !length_app; lia).
  replace (Z.to_nat (Js.length a)) with (List.length a)
    by (unfold Js.length; lia).
  replace (Z.to_nat (Js.length a + Js.length m - Js.length a))
    with (List.length m) by (unfold Js.length; lia).
  rewrite skipn_app, skipn_all, Nat.sub_diag. simpl.
  rewrite firstn_app, firstn_all, Nat.sub_diag. simpl. apply app_nil_r.
Qed.

(** Cutting at any integer position loses nothing. *)
Lemma slice_sliceFrom {A} (l : list A) (k : Z) :
  slice l 0 k ++ sliceFrom l k = l.
Proof. rewrite slice_0_firstn, sliceFrom_skipn. apply firstn_skipn. Qed.

End SliceFacts.

Section HistoryMore.
Import Js UndoRedo Spec.

Lemma undoStack_bounded_witness :
  let options := mkOptions (Some 2) None false in
  let h := run options [CSetValue (str "b"); CSetValue (str "c"); CSetValue (str "d"); CUndo]
             (useUndoRedo (str "a")) in
  1 <= maxHistory options
  /\ reachable options (str "a") h
  /\ undoCount h <= maxHistory options.
Proof.
  intros options h.
  assert (Hm : 1 <= maxHistory options) by (vm_compute; discriminate).
  assert (Hr : reachable options (str "a") h) by (apply reachable_run; constructor).
  split; [exact Hm|]. split; [exact Hr|].
  apply (undoStack_bounded options (str "a") h Hm Hr).
Defined.

(** The redo stack respects every bound that is not negative (zero
    included, unlike the undo stack). *)
Theorem redoStack_bounded options initial (h : Hook) :
  0 <= maxHistory options ->
  reachable options initial h ->
  redoCount h <= maxHistory options.
Proof.
  intros Hm Hr. unfold redoCount. induction Hr as [|h c Hr IH].
  - simpl. exact Hm.
  - destruct c; simpl.
    + exact Hm.
    + unfold undo. destruct (pop _) as [[rest x]|]; [|exact IH].
      simpl. apply slice_0_length_le. exact Hm.
    + unfold redo. destruct (redoStack (state h)) as [|x rest] eqn:E; simpl.
      * rewrite E. exact IH.
      * rewrite length_cons in IH. lia.
    + exact Hm.
Qed.

Lemma redoStack_bounded_witness :
  let options := mkOptions (Some 0) None false in
  let h := run options [CSetValue (str "b"); CUndo] (useUndoRedo (str "a")) in
  0 <= maxHistory options
  /\ reachable options (str "a") h
  /\ redoCount h <= maxHistory options.
Proof.
  intros options h.
  assert (Hm : 0 <= maxHistory options) by (vm_compute; discriminate).
  assert (Hr : reachable options (str "a") h) by (apply reachable_run; constructor).
  split; [exact Hm|]. split; [exact Hr|].
  apply (redoStack_bounded options (str "a") h Hm Hr).
Defined.

Lemma allButLast_prefix {A} (P : A -> Prop) (l dropped : list A) :
  allButLast P (l ++ dropped) -> allButLast P l.
Proof.
  intros H front x back E Hb. apply (H front x (back ++ dropped)).
  - rewrite E, <- app_assoc. reflexivity.
  - destruct back; [congruence | discriminate].
Qed.

Lemma Forall_sliceFrom {A} (P : A -> Prop) (l : list A) (k : Z) :
  Forall P l -> Forall P (sliceFrom l k).
Proof.
  intros H. destruct (sliceFrom_suffix l k) as [dropped Hd].
  rewrite Hd in H. apply Forall_app in H. tauto.
Qed.

Lemma Forall_slice_0 {A} (P : A -> Prop) (l : list A) (m : Z) :
  Forall P l -> Forall P (slice l 0 m).
Proof.
  intros H. destruct (slice_0_prefix l m) as [dropped Hd].
  rewrite Hd in H. apply Forall_app in H. tauto.
Qed.

Lemma strictEq_nil_false (s : JsString) : strictEq s [] = false <-> s <> [].
Proof. destruct s; simpl; split; congruence. Qed.

Lemma noEmptyEntries_perform options (c : Call) (h : Hook) :
  noEmptyEntries h -> noEmptyEntries (perform options c h).
Proof.
  intros [Hu [Hr Hv]]. destruct c; simpl.
  - unfold setValue, noEmptyEntries; simpl. split; [|split].
    + destruct (negb (strictEq (value (state h)) newValue)) ; simpl; [|exact Hu].
      destruct (strictEq (value (state h)) []) eqn:E; simpl; [exact Hu|].
      apply Forall_sliceFrom, Forall_app. split; [exact Hu|].
      constructor; [apply strictEq_nil_false; exact E | constructor].
    + intros front x back E. destruct front; discriminate.
    + congruence.
  - unfold undo. destruct (pop (undoStack (state h))) as [[rest x]|] eqn:E;
      [|repeat split; assumption].
    apply pop_Some in E. rewrite E in Hu. apply Forall_app in Hu.
    destruct Hu as [Hrest Hx]. inversion Hx as [|? ? Hx' _]; subst.
    unfold noEmptyEntries; simpl. split; [exact Hrest|]. split; [|auto].
    destruct (slice_0_prefix (value (state h) :: redoStack (state h))
                (maxHistory options)) as [dropped Hd].
    apply (allButLast_prefix _ _ dropped). rewrite <- Hd.
    intros front y back E' Hb. destruct front as [|z front]; simpl in E'.
    + injection E' as <- <-. apply Hv. exact Hb.
    + injection E' as _ E'. apply (Hr front y back E' Hb).
  - unfold redo. destruct (redoStack (state h)) as [|next rest] eqn:E; simpl;
      [unfold noEmptyEntries; rewrite E; repeat split; assumption|].
    unfold noEmptyEntries; simpl. split; [|split].
    + apply Forall_sliceFrom, Forall_app. split; [exact Hu|].
      constructor; [apply Hv; discriminate | constructor].
    + intros front y back E' Hb. apply (Hr (next :: front) y back); [|exact Hb].
      rewrite E'. reflexivity.
    + intros Hne. apply (Hr [] next rest eq_refl Hne).
  - unfold noEmptyEntries; simpl. repeat split; [constructor | | congruence].
    intros front x back E. destruct front; discriminate.
Qed.

(** The empty string is never recorded: in every reachable state the undo
    stack holds no empty string, so [undo] never turns a non-empty value
    into the empty one. *)
Theorem undo_never_restores_empty options initial (h : Hook) :
  reachable options initial h ->
  Forall (fun s => s <> []) (undoStack (state h))
  /\ (value (state (undo options h)) = [] -> value (state h) = []).
Proof.
  intros Hr.
  assert (Hinv : noEmptyEntries h).
  { induction Hr as [|h c Hr IH].
    - unfold noEmptyEntries; simpl. repeat split; [constructor | | congruence].
      intros front x back E. destruct front; discriminate.
    - apply noEmptyEntries_perform. exact IH. }
  destruct Hinv as [Hu _]. split; [exact Hu|].
  unfold undo. destruct (pop (undoStack (state h))) as [[rest x]|] eqn:E; [|auto].
  simpl. intros ->. apply pop_Some in E. rewrite E in Hu.
  apply Forall_app in Hu. destruct Hu as [_ Hx].
  inversion Hx; subst. congruence.
Qed.

Lemma undo_never_restores_empty_witness :
  let h := run defaultOptions
             [CSetValue (str "a"); CSetValue []; CSetValue (str "b"); CUndo; CRedo]
             (useUndoRedo []) in
  reachable defaultOptions [] h
  /\ undoStack (state h) = [str "a"]
  /\ Forall (fun s => s <> []) (undoStack (state h)).
Proof.
  intros h.
  assert (Hr : reachable defaultOptions [] h) by (apply reachable_run; constructor).
  split; [exact Hr|]. split; [reflexivity|].
  apply (proj1 (undo_never_restores_empty defaultOptions [] h Hr)).
Defined.

End HistoryMore.

Section HistoryRoundTrips.
Import Js UndoRedo.

(** Below the bound, [undo] and [redo] undo each other on the whole
    state; and [redo] followed by [undo] always gives the value back. *)
Theorem undo_redo_inverse options (h : Hook) :
  1 <= maxHistory options ->
  undoCount h <= maxHistory options ->
  redoCount h <= maxHistory options ->
  (undoStack (state h) <> [] -> redoCount h < maxHistory options ->
   state (redo options (undo options h)) = state h)
  /\ (redoStack (state h) <> [] -> undoCount h < maxHistory options ->
      state (undo options (redo options h)) = state h)
  /\ (redoStack (state h) <> [] ->
      value (state (undo options (redo options h))) = value (state h)).
Proof.
  intros Hm Hu Hr. destruct h as [[v u r] log]. unfold undoCount, redoCount in *.
  simpl in *. split; [|split].
  - intros Hne Hlt. unfold undo; simpl.
    destruct (pop u) as [[rest x]|] eqn:E.
    + apply pop_Some in E. subst u. unfold redo; simpl.
      rewrite slice_0_all by (rewrite length_cons; lia). simpl.
      rewrite sliceFrom_neg_all; [reflexivity | lia | exact Hu].
    + apply pop_None in E. contradiction.
  - intros Hne Hlt. unfold redo; simpl.
    destruct r as [|next rest]; [contradiction|]. simpl.
    unfold undo; simpl.
    rewrite sliceFrom_neg_all
      by (rewrite ?length_app; change (Js.length [v]) with 1; lia).
    rewrite pop_snoc. simpl.
    rewrite slice_0_all by exact Hr. reflexivity.
  - intros Hne. unfold redo; simpl.
    destruct r as [|next rest]; [contradiction|]. simpl.
    unfold undo; simpl.
    destruct (sliceFrom_neg_keeps_last u v (maxHistory options)) as [kept ->]; [lia|].
    rewrite pop_snoc. reflexivity.
Qed.

Lemma undo_redo_inverse_witness :
  let options := mkOptions (Some 3) None false in
  let h := run options [CSetValue (str "b"); CSetValue (str "c"); CUndo]
             (useUndoRedo (str "a")) in
  1 <= maxHistory options
  /\ undoCount h <= maxHistory options
  /\ redoCount h <= maxHistory options
  /\ state (redo options (undo options h)) = state h
  /\ state (undo options (redo options h)) = state h.
Proof.
  intros options h.
  assert (H1 : 1 <= maxHistory options) by (vm_compute; discriminate).
  assert (H2 : undoCount h <= maxHistory options) by (vm_compute; discriminate).
  assert (H3 : redoCount h <= maxHistory options) by (vm_compute; discriminate).
  destruct (undo_redo_inverse options h H1 H2 H3) as [Ha [Hb _]].
  split; [exact H1|]. split; [exact H2|]. split; [exact H3|]. split.
  - apply Ha; [vm_compute; discriminate | vm_compute; reflexivity].
  - apply Hb; [vm_compute; discriminate | vm_compute; reflexivity].
Defined.

(** An edit of a non-empty value can be undone and redone at once, with
    any bound of at least one: [undo] gives the old value back and leaves
    the new one as the only redo entry, and [redo] sets it again. *)
Theorem edit_undo_redo options (newValue : JsString) (h : Hook) :
  1 <= maxHistory options ->
  value (state h) <> [] ->
  newValue <> value (state h) ->
  let edited := setValue options newValue h in
  value (state (undo options edited)) = value (state h)
  /\ redoStack (state (undo options edited)) = [newValue]
  /\ value (state (redo options (undo options edited))) = newValue.
Proof.
  intros Hm Hne Hdiff edited. unfold edited, setValue, undo; simpl.
  replace (strictEq (value (state h)) newValue) with false.
  - replace (strictEq (value (state h)) []) with false
      by (symmetry; apply strictEq_nil_false; exact Hne).
    simpl.
    destruct (sliceFrom_neg_keeps_last (undoStack (state h)) (value (state h))
                (maxHistory options)) as [kept ->]; [lia|].
    rewrite pop_snoc. simpl.
    rewrite slice_0_all by (change (Js.length [newValue]) with 1; lia).
    repeat split.
  - symmetry. destruct (strictEq (value (state h)) newValue) eqn:E; [|reflexivity].
    apply strictEq_spec in E. congruence.
Qed.

Lemma edit_undo_redo_witness :
  let options := mkOptions (Some 1) None false in
  let h := setValue options (str "b") (useUndoRedo (str "a")) in
  let edited := setValue options (str "c") h in
  1 <= maxHistory options
  /\ value (state h) <> []
  /\ str "c" <> value (state h)
  /\ value (state (undo options edited)) = str "b"
  /\ value (state (redo options (undo options edited))) = str "c".
Proof.
  intros options h edited.
  assert (H1 : 1 <= maxHistory options) by (vm_compute; discriminate).
  assert (H2 : value (state h) <> []) by (vm_compute; discriminate).
  assert (H3 : str "c" <> value (state h)) by (vm_compute; discriminate).
  destruct (edit_undo_redo options (str "c") h H1 H2 H3) as [Ha [_ Hc]].
  split; [exact H1|]. split; [exact H2|]. split; [exact H3|].
  split; [exact Ha | exact Hc].
Defined.

End HistoryRoundTrips.

(* ================================================================== *)
(** * Validation                                                        *)
(* ================================================================== *)

Section Validation.
Import Js ExpressionUtils Spec.

Lemma countDelimiters_cons (o c char : codeUnit) (n : Z) (s : JsString) :
  countDelimiters o c n (char :: s)
  = if n + delimiterWeight o c char <? 0 then None
    else countDelimiters o c (n + delimiterWeight o c char) s.
Proof.
  simpl. unfold delimiterWeight.
  destruct (N.eqb char o), (N.eqb char c).
  - replace (n + (1 - 1)) with (n + 1 - 1) by lia. reflexivity.
  - replace (n + (1 - 0)) with (n + 1) by lia. reflexivity.
  - replace (n + (0 - 1)) with (n - 1) by lia. reflexivity.
  - replace (n + (0 - 0)) with n by lia. reflexivity.
Qed.

Lemma countDelimiters_app (o c : codeUnit) (a b : JsString) :
  forall n,
    countDelimiters o c n (a ++ b)
    = match countDelimiters o c n a with
      | Some m => countDelimiters o c m b
      | None => None
      end.
Proof.
  induction a as [|x a IH]; intros n; [reflexivity|].
  change ((x :: a) ++ b) with (x :: (a ++ b)).
  rewrite !countDelimiters_cons.
  destruct (n + delimiterWeight o c x <? 0); [reflexivity | apply IH].
Qed.

(** The loop succeeds exactly when no prefix goes negative, and then
    returns the start count plus the balance. *)
Lemma countDelimiters_Some (o c : codeUnit) (s : JsString) :
  forall n m,
    0 <= n ->
    (countDelimiters o c n s = Some m
     <-> (forall k, 0 <= n + delimiterBalance o c (firstn k s))
         /\ m = n + delimiterBalance o c s).
Proof.
  induction s as [|x s IH]; intros n m Hn.
  - simpl. split.
    + intros [= <-]. split; [intros k; rewrite firstn_nil; simpl|]; lia.
    + intros [_ ->]. f_equal. lia.
  - rewrite countDelimiters_cons.
    destruct (n + delimiterWeight o c x <? 0) eqn:E.
    + split; [discriminate|]. intros [H _]. specialize (H 1%nat).
      simpl in H. apply Z.ltb_lt in E. lia.
    + apply Z.ltb_ge in E. rewrite (IH _ m E). simpl. split.
      * intros [H ->]. split; [|lia].
        intros [|k]; simpl; [lia|]. specialize (H k). lia.
      * intros [H ->]. split; [|lia].
        intros k. specialize (H (S k)). simpl in H. lia.
Qed.

Lemma whitespace_not_bracket (a : codeUnit) :
  isWhiteSpace a = true ->
  N.eqb a LBRACKET = false /\ N.eqb a RBRACKET = false
  /\ N.eqb a LBRACE = false /\ N.eqb a RBRACE = false.
Proof.
  intros H.
  repeat split;
    match goal with
    | |- N.eqb a ?k = false =>
        destruct (N.eqb_spec a k); [subst a; vm_compute in H; discriminate H|]
    end; reflexivity.
Qed.

(** Whitespace carries no weight for the two pairs that are validated. *)
Lemma delimiterWeight_whitespace (a : codeUnit) :
  isWhiteSpace a = true ->
  delimiterWeight LPAREN RPAREN a = 0 /\ delimiterWeight LBRACKET RBRACKET a = 0.
Proof.
  intros H. unfold delimiterWeight.
  destruct (whitespace_not_delimiter a H) as [-> [-> _]].
  destruct (whitespace_not_bracket a H) as [-> [-> _]]. split; reflexivity.
Qed.

(** The loop does not see whitespace. *)
Lemma countDelimiters_content (o c : codeUnit) (s : JsString) :
  (forall a, isWhiteSpace a = true -> delimiterWeight o c a = 0) ->
  forall n, 0 <= n ->
    countDelimiters o c n (content s) = countDelimiters o c n s.
Proof.
  intros Hw. induction s as [|x s IH]; intros n Hn; [reflexivity|].
  rewrite (countDelimiters_cons o c x n s). unfold content. cbn [filter].
  fold (content s).
  destruct (isWhiteSpace x) eqn:E; cbn [negb].
  - rewrite (Hw x E), Z.add_0_r.
    replace (n <? 0) with false by (symmetry; apply Z.ltb_ge; lia).
    apply IH. exact Hn.
  - rewrite countDelimiters_cons.
    destruct (n + delimiterWeight o c x <? 0) eqn:En; [reflexivity|].
    apply IH. apply Z.ltb_ge in En. exact En.
Qed.

Lemma content_whitespace (w : JsString) :
  forallb isWhiteSpace w = true -> content w = [].
Proof.
  induction w as [|a w IH]; [reflexivity|]. simpl.
  intros H. apply andb_true_iff in H. destruct H as [Ha Hw].
  unfold content. cbn [filter]. rewrite Ha. cbn [negb]. apply IH. exact Hw.
Qed.

Lemma content_app (a b : JsString) : content (a ++ b) = content a ++ content b.
Proof. apply filter_app. Qed.

Lemma dropWhile_nil_all (p : codeUnit -> bool) (l : JsString) :
  dropWhile p l = [] -> forallb p l = true.
Proof.
  induction l as [|x l IH]; [reflexivity|]. simpl.
  destruct (p x); [exact IH | discriminate].
Qed.

Lemma trim_nil_whitespace (s : JsString) :
  trim s = [] -> forallb isWhiteSpace s = true.
Proof.
  unfold trim. intros H.
  destruct (trimEnd_split (trimStart s)) as [run [H1 [H2 _]]].
  rewrite H in H1. simpl in H1.
  destruct (dropWhile_split isWhiteSpace s) as [run' [H3 [H4 _]]].
  unfold trimStart in H1. rewrite H3, forallb_app, H4, H1, H2. reflexivity.
Qed.

(** [validateExpression] in terms of its two loops; the early exit for
    blank strings agrees with them. *)
Lemma validateExpression_counts (s : JsString) :
  validateExpression s
  = balancedCount LPAREN RPAREN s && balancedCount LBRACKET RBRACKET s.
Proof.
  unfold validateExpression, balancedCount.
  destruct (strictEq s [] || strictEq (trim s) []) eqn:E.
  - assert (Hw : forallb isWhiteSpace s = true).
    { apply orb_true_iff in E. destruct E as [E|E]; apply strictEq_spec in E.
      - subst s. reflexivity.
      - apply trim_nil_whitespace. exact E. }
    rewrite <- (countDelimiters_content LPAREN RPAREN s), content_whitespace;
      [| exact Hw | intros a Ha; apply delimiterWeight_whitespace; exact Ha | lia].
    rewrite <- (countDelimiters_content LBRACKET RBRACKET s), content_whitespace;
      [| exact Hw | intros a Ha; apply delimiterWeight_whitespace; exact Ha | lia].
    reflexivity.
  - destruct (countDelimiters LPAREN RPAREN 0 s) as [pc|]; [|reflexivity].
    destruct (pc =? 0); simpl; [|reflexivity].
    destruct (countDelimiters LBRACKET RBRACKET 0 s); reflexivity.
Qed.

Lemma balancedCount_wellNested (o c : codeUnit) (s : JsString) :
  balancedCount o c s = true <-> wellNested o c s.
Proof.
  unfold balancedCount, wellNested.
  destruct (countDelimiters o c 0 s) as [m|] eqn:E.
  - apply countDelimiters_Some in E; [|lia]. destruct E as [Hp ->].
    rewrite Z.eqb_eq. simpl in *. split.
    + intros H. split; [exact Hp | exact H].
    + tauto.
  - split; [discriminate|]. intros [Hp Hb]. exfalso.
    assert (H : countDelimiters o c 0 s = Some 0).
    { apply countDelimiters_Some; [lia|]. split; [exact Hp | lia]. }
    congruence.
Qed.

(** [validateExpression] accepts exactly the strings in which round
    parentheses and square brackets are each well nested, the two pairs
    being counted independently of one another. *)
Theorem validateExpression_wellNested (s : JsString) :
  validateExpression s = true
  <-> wellNested LPAREN RPAREN s /\ wellNested LBRACKET RBRACKET s.
Proof.
  rewrite validateExpression_counts, andb_true_iff, !balancedCount_wellNested.
  reflexivity.
Qed.

(** The two pairs are not checked against each other. *)
Example validateExpression_interleaved :
  validateExpression (str "([)]") = true.
Proof. reflexivity. Qed.

End Validation.

(* ================================================================== *)
(** * Cutting at the cursor and inserting a pair of parentheses         *)
(* ================================================================== *)

Section InsertParentheses.
Import Js ExpressionUtils Spec.

(** The text before and the text after the cursor make up the
    expression, wherever the cursor is said to be; for a cursor inside
    the expression the text before it has the cursor's length. *)
Theorem before_after_cursor (s : JsString) (pos : Z) :
  getExpressionBefore s pos ++ getExpressionAfter s pos = s
  /\ (0 <= pos <= Js.length s -> Js.length (getExpressionBefore s pos) = pos).
Proof.
  unfold getExpressionBefore, getExpressionAfter. split.
  - apply slice_sliceFrom.
  - apply length_slice_prefix.
Qed.

Lemma countDelimiters_nonneg (o c : codeUnit) (s : JsString) (n m : Z) :
  0 <= n -> countDelimiters o c n s = Some m -> 0 <= m.
Proof.
  intros Hn H. apply countDelimiters_Some in H; [|exact Hn].
  destruct H as [Hp ->]. specialize (Hp (List.length s)).
  rewrite firstn_all in Hp. exact Hp.
Qed.

Lemma balancedCount_insert_pair (o c : codeUnit) (a b : JsString) :
  (o = LPAREN /\ c = RPAREN) \/ (o = LBRACKET /\ c = RBRACKET) ->
  balancedCount o c (a ++ [LPAREN; RPAREN] ++ b) = balancedCount o c (a ++ b).
Proof.
  intros Hoc. unfold balancedCount.
  rewrite !countDelimiters_app.
  destruct (countDelimiters o c 0 a) as [m|] eqn:E; [|reflexivity].
  apply countDelimiters_nonneg in E; [|lia].
  rewrite countDelimiters_app.
  replace (countDelimiters o c m [LPAREN; RPAREN]) with (Some m); [reflexivity|].
  destruct Hoc as [[-> ->]|[-> ->]]; simpl.
  - destruct (m + 1 <? 0) eqn:E1; [lia|].
    destruct (m + 1 - 1 <? 0) eqn:E2; [lia|]. f_equal. lia.
  - destruct (m <? 0) eqn:E1; [lia | reflexivity].
Qed.

(** Inserting a pair of parentheses, at any cursor, never changes
    whether the expression validates. *)
Theorem insertParentheses_preserves_validity (s : JsString) (pos : Z) :
  validateExpression (expression (insertParentheses s pos)) = validateExpression s.
Proof.
  unfold insertParentheses. cbn [expression].
  rewrite !validateExpression_counts, !balancedCount_insert_pair by auto.
  rewrite slice_sliceFrom. reflexivity.
Qed.

(** The two inserted parentheses match each other, the cursor lies
    between them, and taking them out gives the expression back. *)
Theorem insertParentheses_pair (s : JsString) (pos : Z) :
  let r := insertParentheses s pos in
  findMatchingParen (expression r) (cursorPos r - 1) = cursorPos r
  /\ findMatchingOpenParen (expression r) (cursorPos r) = cursorPos r - 1
  /\ slice (expression r) 0 (cursorPos r - 1)
     ++ sliceFrom (expression r) (cursorPos r + 1) = s.
Proof.
  unfold insertParentheses. cbn [expression cursorPos].
  set (before := slice s 0 pos). set (after := sliceFrom s pos).
  pose proof (length_nonneg before) as Hb.
  replace (Js.length before + 1 - 1) with (Js.length before) by lia.
  split; [|split].
  - unfold findMatchingParen.
    change (before ++ [LPAREN; RPAREN] ++ after)
      with (before ++ LPAREN :: (RPAREN :: after)).
    rewrite index_app_middle. simpl N.eqb. cbv iota.
    replace (Z.to_nat (Js.length before + 1)) with (List.length before + 1)%nat
      by (unfold Js.length; lia).
    rewrite skipn_app, skipn_all2, Nat.add_comm by lia.
    replace (1 + List.length before - List.length before)%nat with 1%nat by lia.
    reflexivity.
  - unfold findMatchingOpenParen.
    replace (before ++ [LPAREN; RPAREN] ++ after)
      with ((before ++ [LPAREN]) ++ RPAREN :: after)
      by (rewrite <- app_assoc; reflexivity).
    replace (Js.length before + 1) with (Js.length (before ++ [LPAREN]))
      by (rewrite length_app; reflexivity).
    rewrite index_app_middle. simpl N.eqb. cbv iota.
    replace (Z.to_nat (Js.length (before ++ [LPAREN])))
      with (List.length (before ++ [LPAREN])) by (unfold Js.length; lia).
    rewrite firstn_app, firstn_all, Nat.sub_diag, firstn_O, app_nil_r.
    rewrite rev_unit. rewrite length_app.
    change (Js.length [LPAREN]) with 1. simpl. lia.
  - pose proof (length_nonneg after) as Ha.
    rewrite slice_0_firstn, sliceFrom_skipn.
    rewrite !length_app. change (Js.length [LPAREN; RPAREN]) with 2.
    unfold relIndex.
    replace (Js.length before <? 0) with false by (symmetry; apply Z.ltb_ge; lia).
    replace (Js.length before + 1 + 1 <? 0) with false
      by (symmetry; apply Z.ltb_ge; lia).
    rewrite !Z.min_l by lia.
    replace (Z.to_nat (Js.length before)) with (List.length before)
      by (unfold Js.length; lia).
    replace (Z.to_nat (Js.length before + 1 + 1)) with (List.length before + 2)%nat
      by (unfold Js.length; lia).
    rewrite firstn_app, firstn_all, Nat.sub_diag, firstn_O, app_nil_r.
    rewrite skipn_app, skipn_all2 by lia.
    replace (List.length before + 2 - List.length before)%nat with 2%nat by lia.
    simpl. apply slice_sliceFrom.
Qed.

End InsertParentheses.

(* ================================================================== *)
(** * More on matching parentheses                                      *)
(* ================================================================== *)

Section ParenMore.
Import Js ExpressionUtils Spec.

Lemma balance_delimiterBalance (s : JsString) :
  balance s = delimiterBalance LPAREN RPAREN s.
Proof. induction s as [|c s IH]; simpl; [|rewrite IH]; reflexivity. Qed.

Lemma balance_rev (s : JsString) : balance (rev s) = balance s.
Proof.
  induction s as [|c s IH]; [reflexivity|].
  simpl. rewrite balance_app, IH. simpl. lia.
Qed.

Lemma balance_firstn_skipn (k : nat) (s : JsString) :
  balance (firstn k s) + balance (skipn k s) = balance s.
Proof. rewrite <- balance_app, firstn_skipn. reflexivity. Qed.

Lemma parenWeight_pos (c : codeUnit) : parenWeight c = 1 -> c = LPAREN.
Proof.
  unfold parenWeight.
  destruct (N.eqb_spec c LPAREN), (N.eqb c RPAREN); auto; lia.
Qed.

Lemma scanForward_cons (c : codeUnit) (r : JsString) (depth i : Z) :
  scanForward (c :: r) depth i
  = if depth + parenWeight c =? 0 then i
    else scanForward r (depth + parenWeight c) (i + 1).
Proof. simpl. rewrite forward_step. reflexivity. Qed.

(** The forward scan over text that keeps the depth at one or more stops
    at the closing parenthesis after it. *)
Lemma scanForward_finds (mid : JsString) :
  forall depth rest i,
    depth + balance mid = 1 ->
    (forall k, 1 <= depth + balance (firstn k mid)) ->
    scanForward (mid ++ RPAREN :: rest) depth i = i + Js.length mid.
Proof.
  induction mid as [|c mid IH]; intros depth rest i Hb Hp.
  - simpl in Hb. change ([] ++ RPAREN :: rest) with (RPAREN :: rest).
    rewrite scanForward_cons. change (parenWeight RPAREN) with (-1).
    replace (depth + -1 =? 0) with true by (symmetry; apply Z.eqb_eq; lia).
    unfold Js.length; simpl. lia.
  - change ((c :: mid) ++ RPAREN :: rest) with (c :: (mid ++ RPAREN :: rest)).
    rewrite scanForward_cons. simpl in Hb.
    pose proof (Hp 1%nat) as H1. simpl in H1.
    replace (depth + parenWeight c =? 0) with false
      by (symmetry; apply Z.eqb_neq; lia).
    rewrite IH.
    + rewrite length_cons. lia.
    + lia.
    + intros k. specialize (Hp (S k)). simpl in Hp. lia.
Qed.

(** A successful backward scan stops at an opening parenthesis; the text
    it passed over never let the depth fall below one. *)
Lemma scanBackward_found (before : JsString) :
  forall depth i j,
    1 <= depth ->
    Js.length before <= i + 1 ->
    scanBackward before depth i = j -> j <> -1 ->
    exists mid rest',
      before = mid ++ LPAREN :: rest'
      /\ j = i - Js.length mid
      /\ depth - balance mid = 1
      /\ forall k, 1 <= depth - balance (firstn k mid).
Proof.
  induction before as [|c r IH]; intros depth i j Hd Hi Hscan Hj.
  - simpl in Hscan. congruence.
  - rewrite scanBackward_cons in Hscan. rewrite length_cons in Hi.
    pose proof (length_nonneg r) as Hr.
    pose proof (parenWeight_range c) as Hw.
    destruct (depth - parenWeight c =? 0) eqn:E.
    + apply Z.eqb_eq in E. exists [], r. repeat split.
      * simpl. f_equal. apply parenWeight_pos. lia.
      * unfold Js.length; simpl. lia.
      * simpl. assert (parenWeight c = 1) by lia. lia.
      * intros k. rewrite firstn_nil. simpl. lia.
    + apply Z.eqb_neq in E.
      destruct (IH (depth - parenWeight c) (i - 1) j) as [mid [rest' [H1 [H2 [H3 H4]]]]];
        try lia; try assumption.
      exists (c :: mid), rest'. repeat split.
      * simpl. f_equal. exact H1.
      * rewrite length_cons. lia.
      * simpl. lia.
      * intros [|k]; simpl; [lia|]. specialize (H4 k). lia.
Qed.

(** The converse pairing: when [expression[closePos]] is a closing
    parenthesis and [findMatchingOpenParen] returns an index [i] other
    than -1, then [findMatchingParen] at [i] returns [closePos]. *)
Theorem findMatchingParen_inverts_findMatchingOpenParen :
  forall expression closePos i,
    index expression closePos = Some RPAREN ->
    findMatchingOpenParen expression closePos = i ->
    i <> -1 ->
    findMatchingParen expression i = closePos.
Proof.
  intros expression closePos i Hclose Hfind Hi.
  unfold findMatchingOpenParen in Hfind. rewrite Hclose in Hfind. simpl in Hfind.
  destruct (index_Some_split _ _ _ Hclose) as [before [after [-> Hlen]]].
  replace (Z.to_nat closePos) with (List.length before) in Hfind
    by (unfold Js.length in Hlen; lia).
  rewrite firstn_app, firstn_all, Nat.sub_diag, firstn_O, app_nil_r in Hfind.
  destruct (scanBackward_found (rev before) 1 (closePos - 1) i)
    as [mid [rest' [Hrev [Hiv [Hbal Hpre]]]]]; try lia; try assumption.
  { unfold Js.length in *. rewrite length_rev. lia. }
  apply (f_equal (@rev codeUnit)) in Hrev.
  rewrite rev_involutive, rev_app_distr in Hrev. simpl in Hrev.
  rewrite <- app_assoc in Hrev. simpl in Hrev. subst before.
  assert (Hil : i = Js.length (rev rest')).
  { rewrite !length_app, length_cons in Hlen.
    assert (Js.length (rev mid) = Js.length mid)
      by (unfold Js.length; rewrite length_rev; reflexivity).
    lia. }
  unfold findMatchingParen.
  rewrite <- app_assoc. simpl app.
  rewrite Hil at 1. rewrite index_app_middle. simpl N.eqb. cbv iota.
  replace (Z.to_nat (i + 1)) with (List.length (rev rest') + 1)%nat
    by (rewrite Hil; unfold Js.length; lia).
  rewrite skipn_app, skipn_all2, Nat.add_comm by lia.
  replace (1 + List.length (rev rest') - List.length (rev rest'))%nat
    with 1%nat by lia.
  cbn [skipn app].
  rewrite scanForward_finds.
  - assert (Js.length (rev mid) = Js.length mid)
      by (unfold Js.length; rewrite length_rev; reflexivity).
    rewrite !length_app, length_cons in Hlen. lia.
  - rewrite balance_rev. lia.
  - intros k. rewrite firstn_rev, balance_rev.
    pose proof (balance_firstn_skipn (List.length mid - k) mid) as Hs.
    specialize (Hpre (List.length mid - k)%nat). lia.
Qed.

Lemma findMatchingParen_inverts_findMatchingOpenParen_witness :
  index (str "a((1) + (2))") 11 = Some RPAREN
  /\ findMatchingOpenParen (str "a((1) + (2))") 11 = 1
  /\ 1 <> -1
  /\ findMatchingParen (str "a((1) + (2))") 1 = 11.
Proof.
  split; [reflexivity|]. split; [reflexivity|]. split; [lia|].
  apply (findMatchingParen_inverts_findMatchingOpenParen (str "a((1) + (2))") 11 1).
  - reflexivity.
  - reflexivity.
  - lia.
Defined.

End ParenMore.

Section ParenValid.
Import Js ExpressionUtils Spec.

(** Once some prefix brings the depth to zero or below, the forward scan
    finds a match. *)
Lemma scanForward_reaches (rest : JsString) :
  forall depth i,
    1 <= depth -> 0 <= i ->
    (exists k, depth + balance (firstn k rest) <= 0) ->
    scanForward rest depth i <> -1.
Proof.
  induction rest as [|c r IH]; intros depth i Hd Hi [k Hk].
  - rewrite firstn_nil in Hk. simpl in Hk. lia.
  - rewrite scanForward_cons. pose proof (parenWeight_range c) as Hw.
    destruct (depth + parenWeight c =? 0) eqn:E; [lia|].
    apply Z.eqb_neq in E. apply IH; try lia.
    destruct k as [|k]; simpl in Hk; [lia|]. exists k. lia.
Qed.

Lemma scanBackward_reaches (before : JsString) :
  forall depth i,
    1 <= depth -> Js.length before <= i + 1 ->
    (exists k, depth - balance (firstn k before) <= 0) ->
    scanBackward before depth i <> -1.
Proof.
  induction before as [|c r IH]; intros depth i Hd Hi [k Hk].
  - rewrite firstn_nil in Hk. simpl in Hk. lia.
  - rewrite scanBackward_cons. rewrite length_cons in Hi.
    pose proof (length_nonneg r) as Hr.
    pose proof (parenWeight_range c) as Hw.
    destruct (depth - parenWeight c =? 0) eqn:E; [lia|].
    apply Z.eqb_neq in E. apply IH; try lia.
    destruct k as [|k]; simpl in Hk; [lia|]. exists k. lia.
Qed.

Lemma validateExpression_parens (s : JsString) :
  validateExpression s = true ->
  (forall k, 0 <= balance (firstn k s)) /\ balance s = 0.
Proof.
  rewrite validateExpression_counts, andb_true_iff, balancedCount_wellNested.
  intros [[Hp Hb] _]. split.
  - intros k. rewrite balance_delimiterBalance. apply Hp.
  - rewrite balance_delimiterBalance. exact Hb.
Qed.

(** In an expression that validates every parenthesis has its partner:
    neither search returns -1. *)
Theorem valid_parentheses_are_matched (s : JsString) :
  validateExpression s = true ->
  (forall i, index s i = Some LPAREN -> findMatchingParen s i <> -1)
  /\ (forall j, index s j = Some RPAREN -> findMatchingOpenParen s j <> -1).
Proof.
  intros Hv. apply validateExpression_parens in Hv. destruct Hv as [Hp Hb].
  split.
  - intros i Hi. unfold findMatchingParen. rewrite Hi. simpl N.eqb. cbv iota.
    destruct (index_Some_split _ _ _ Hi) as [before [after [-> Hlen]]].
    pose proof (length_nonneg before) as Hnn.
    replace (Z.to_nat (i + 1)) with (List.length before + 1)%nat
      by (unfold Js.length in Hlen; lia).
    rewrite skipn_app, skipn_all2, Nat.add_comm by lia.
    replace (1 + List.length before - List.length before)%nat with 1%nat by lia.
    cbn [skipn app].
    apply scanForward_reaches; try lia.
    exists (List.length after). rewrite firstn_all.
    specialize (Hp (List.length before)).
    rewrite firstn_app, firstn_all, Nat.sub_diag, firstn_O, app_nil_r in Hp.
    rewrite balance_app in Hb. cbn [balance] in Hb.
    change (parenWeight LPAREN) with 1 in Hb. lia.
  - intros j Hj. unfold findMatchingOpenParen. rewrite Hj. simpl N.eqb. cbv iota.
    destruct (index_Some_split _ _ _ Hj) as [before [after [-> Hlen]]].
    replace (Z.to_nat j) with (List.length before)
      by (unfold Js.length in Hlen; lia).
    rewrite firstn_app, firstn_all, Nat.sub_diag, firstn_O, app_nil_r.
    apply scanBackward_reaches; try lia.
    + unfold Js.length in *. rewrite length_rev. lia.
    + exists (List.length (rev before)). rewrite firstn_all, balance_rev.
      specialize (Hp (List.length before + 1)%nat).
      replace (before ++ RPAREN :: after) with ((before ++ [RPAREN]) ++ after) in Hp
        by (rewrite <- app_assoc; reflexivity).
      rewrite firstn_app in Hp.
      replace (List.length before + 1 - List.length (before ++ [RPAREN]))%nat
        with 0%nat in Hp by (rewrite List.length_app; simpl; lia).
      rewrite firstn_O, app_nil_r, firstn_all2 in Hp
        by (rewrite List.length_app; simpl; lia).
      rewrite balance_app in Hp. cbn [balance] in Hp.
      change (parenWeight RPAREN) with (-1) in Hp. lia.
Qed.

Lemma valid_parentheses_are_matched_witness :
  validateExpression (str "sin(x) + [cos(y)]") = true
  /\ findMatchingParen (str "sin(x) + [cos(y)]") 13 <> -1.
Proof.
  split; [reflexivity|].
  apply (proj1 (valid_parentheses_are_matched (str "sin(x) + [cos(y)]") eq_refl)).
  reflexivity.
Defined.

(** The loop of [isCursorInParentheses] computes the balance of the text
    before the cursor. *)
Lemma countOpenBefore_balance (rest : JsString) :
  forall i cursorPos openCount,
    countOpenBefore rest i cursorPos openCount
    = openCount + balance (firstn (Z.to_nat (cursorPos - i)) rest).
Proof.
  induction rest as [|c r IH]; intros i cursorPos openCount.
  - rewrite firstn_nil. simpl. lia.
  - simpl countOpenBefore. rewrite forward_step.
    destruct (i <? cursorPos) eqn:E.
    + apply Z.ltb_lt in E. rewrite IH.
      replace (Z.to_nat (cursorPos - i)) with (S (Z.to_nat (cursorPos - (i + 1))))
        by lia.
      simpl. lia.
    + apply Z.ltb_ge in E.
      replace (Z.to_nat (cursorPos - i)) with 0%nat by lia. simpl. lia.
Qed.

(** In an expression that validates, a cursor after an opening
    parenthesis and not after its partner is reported as inside
    parentheses. *)
Theorem cursor_inside_matched_pair (s : JsString) (openPos cursor : Z) :
  validateExpression s = true ->
  index s openPos = Some LPAREN ->
  openPos < cursor <= findMatchingParen s openPos ->
  isCursorInParentheses s cursor = true.
Proof.
  intros Hv Hopen Hc. apply validateExpression_parens in Hv. destruct Hv as [Hp _].
  destruct (index_Some_split _ _ _ Hopen) as [before [after [-> Hlen]]].
  pose proof (length_nonneg before) as Hnn.
  unfold findMatchingParen in Hc. rewrite Hopen in Hc.
  simpl N.eqb in Hc. cbv iota in Hc.
  replace (Z.to_nat (openPos + 1)) with (List.length before + 1)%nat in Hc
    by (unfold Js.length in Hlen; lia).
  rewrite skipn_app, skipn_all2, Nat.add_comm in Hc by lia.
  replace (1 + List.length before - List.length before)%nat with 1%nat in Hc by lia.
  cbn [skipn app] in Hc.
  destruct (scanForward_found after 1 (openPos + 1) _ ltac:(lia) ltac:(lia) eq_refl)
    as [mid [rest' [-> [Hj [_ Hpre]]]]]; [lia|].
  unfold isCursorInParentheses. rewrite countOpenBefore_balance.
  apply Z.gtb_lt.
  replace (Z.to_nat (cursor - 0))
    with (List.length before + S (Z.to_nat (cursor - openPos - 1)))%nat
    by (unfold Js.length in Hlen; lia).
  rewrite firstn_app_2. cbn [firstn]. rewrite balance_app. cbn [balance].
  change (parenWeight LPAREN) with 1.
  specialize (Hp (List.length before)).
  rewrite firstn_app, firstn_all, Nat.sub_diag, firstn_O, app_nil_r in Hp.
  rewrite firstn_app, balance_app.
  specialize (Hpre (Z.to_nat (cursor - openPos - 1))).
  replace (Z.to_nat (cursor - openPos - 1) - List.length mid)%nat with 0%nat
    by (unfold Js.length in Hj; lia).
  rewrite firstn_O. cbn [balance]. lia.
Qed.

Lemma cursor_inside_matched_pair_witness :
  validateExpression (str "(1 + 2)") = true
  /\ index (str "(1 + 2)") 0 = Some LPAREN
  /\ 0 < 3 <= findMatchingParen (str "(1 + 2)") 0
  /\ isCursorInParentheses (str "(1 + 2)") 3 = true.
Proof.
  assert (H : 0 < 3 <= findMatchingParen (str "(1 + 2)") 0)
    by (vm_compute; split; [reflexivity | discriminate]).
  split; [reflexivity|]. split; [reflexivity|]. split; [exact H|].
  apply (cursor_inside_matched_pair (str "(1 + 2)") 0 3 eq_refl eq_refl H).
Defined.

End ParenValid.

(* ================================================================== *)
(** * Inserting a function call                                         *)
(* ================================================================== *)

Section InsertFunction.
Import Js ExpressionUtils Spec.

(** [insertFunction] always puts an opening parenthesis just before the
    returned cursor and a closing parenthesis at the very end of the
    result, whatever the expression, the name and the cursor are.  When
    the stripped text after the cursor is well nested, these two
    parentheses match each other. *)
Theorem insertFunction_wraps_rest (s name : JsString) (pos : Z) :
  let after := trimStart (sliceFrom s pos) in
  let r := insertFunction s name pos in
  index (expression r) (cursorPos r - 1) = Some LPAREN
  /\ index (expression r) (Js.length (expression r) - 1) = Some RPAREN
  /\ (wellNested LPAREN RPAREN after ->
      findMatchingParen (expression r) (cursorPos r - 1)
      = Js.length (expression r) - 1
      /\ findMatchingOpenParen (expression r) (Js.length (expression r) - 1)
         = cursorPos r - 1).
Proof.
  intros after r. unfold r, insertFunction. fold after.
  cbn [expression cursorPos].
  set (head := trimEnd (slice s 0 pos) ++ name).
  replace (trimEnd (slice s 0 pos) ++ name ++ [LPAREN] ++ after ++ [RPAREN])
    with (head ++ LPAREN :: after ++ RPAREN :: [])
    by (unfold head; rewrite <- app_assoc; reflexivity).
  replace (Js.length (trimEnd (slice s 0 pos)) + Js.length name + 1 - 1)
    with (Js.length head) by (unfold head; rewrite length_app; lia).
  pose proof (length_nonneg head) as Hh. pose proof (length_nonneg after) as Ha.
  assert (Hlast : Js.length (head ++ LPAREN :: after ++ [RPAREN]) - 1
                  = Js.length (head ++ LPAREN :: after)).
  { rewrite !length_app, !length_cons, !length_app.
    change (Js.length [RPAREN]) with 1. lia. }
  assert (Hopen : index (head ++ LPAREN :: after ++ [RPAREN]) (Js.length head)
                  = Some LPAREN) by apply index_app_middle.
  assert (Hclose : index (head ++ LPAREN :: after ++ [RPAREN])
                     (Js.length (head ++ LPAREN :: after)) = Some RPAREN).
  { replace (head ++ LPAREN :: after ++ [RPAREN])
      with ((head ++ LPAREN :: after) ++ RPAREN :: [])
      by (rewrite <- app_assoc; reflexivity).
    apply index_app_middle. }
  rewrite Hlast. split; [exact Hopen|]. split; [exact Hclose|].
  intros [Hp Hb].
  assert (Hfind : findMatchingParen (head ++ LPAREN :: after ++ [RPAREN])
                    (Js.length head)
                  = Js.length (head ++ LPAREN :: after)).
  { unfold findMatchingParen. rewrite Hopen. simpl N.eqb. cbv iota.
    replace (Z.to_nat (Js.length head + 1)) with (List.length head + 1)%nat
      by (unfold Js.length; lia).
    rewrite skipn_app, skipn_all2, Nat.add_comm by lia.
    replace (1 + List.length head - List.length head)%nat with 1%nat by lia.
    cbn [skipn app].
    rewrite scanForward_finds.
    - rewrite length_app, length_cons. lia.
    - rewrite balance_delimiterBalance. lia.
    - intros k. rewrite balance_delimiterBalance. specialize (Hp k). lia. }
  split; [exact Hfind|].
  unfold findMatchingOpenParen. rewrite Hclose. simpl N.eqb. cbv iota.
  replace (Z.to_nat (Js.length (head ++ LPAREN :: after)))
    with (List.length (head ++ LPAREN :: after)) by (unfold Js.length; lia).
  replace (head ++ LPAREN :: after ++ [RPAREN])
    with ((head ++ LPAREN :: after) ++ [RPAREN])
    by (rewrite <- app_assoc; reflexivity).
  rewrite firstn_app, firstn_all, Nat.sub_diag, firstn_O, app_nil_r.
  rewrite rev_app_distr. cbn [rev]. rewrite <- app_assoc. cbn [app].
  rewrite scanBackward_finds.
  - rewrite length_app, length_cons. lia.
  - rewrite balance_delimiterBalance. lia.
  - intros k. pose proof (balance_firstn_skipn k after) as Hs.
    rewrite !balance_delimiterBalance in *. specialize (Hp k). lia.
Qed.

Lemma insertFunction_wraps_rest_witness :
  let r := insertFunction (str "2 + (x)") (str "sin") 4 in
  wellNested LPAREN RPAREN (trimStart (sliceFrom (str "2 + (x)") 4))
  /\ expression r = str "2 +sin((x))"
  /\ findMatchingParen (expression r) (cursorPos r - 1)
     = Js.length (expression r) - 1
  /\ findMatchingOpenParen (expression r) (Js.length (expression r) - 1)
     = cursorPos r - 1.
Proof.
  intros r.
  assert (H : wellNested LPAREN RPAREN (trimStart (sliceFrom (str "2 + (x)") 4))).
  { apply balancedCount_wellNested. reflexivity. }
  split; [exact H|]. split; [reflexivity|].
  exact (proj2 (proj2 (insertFunction_wraps_rest (str "2 + (x)") (str "sin") 4)) H).
Defined.

(** The positions hold even when the text after the cursor is not well
    nested; the parentheses then do not match each other. *)
Example insertFunction_unbalanced_rest :
  let r := insertFunction (str "1)") (str "f") 0 in
  expression r = str "f(1))"
  /\ index (expression r) (cursorPos r - 1) = Some LPAREN
  /\ index (expression r) (Js.length (expression r) - 1) = Some RPAREN
  /\ findMatchingParen (expression r) (cursorPos r - 1) = 3.
Proof. repeat split. Qed.

(** With nothing after the cursor the call is empty: [name()]. *)
Example insertFunction_scenario :
  insertFunction [] (str "sin") 0 = mkEdit (str "sin()") 4
  /\ insertParentheses [] 0 = mkEdit (str "()") 1.
Proof. split; reflexivity. Qed.

End InsertFunction.

(* ================================================================== *)
(** * What formatting keeps                                             *)
(* ================================================================== *)

Section FormatKeeps.
Import Js ExpressionUtils Spec Layout.

Lemma content_gap (g x : JsString) (c : codeUnit) :
  forallb isWhiteSpace g = true -> isWhiteSpace c = false ->
  content (g ++ c :: x) = c :: content x.
Proof.
  intros Hg Hc. rewrite content_app, content_whitespace by exact Hg.
  unfold content. cbn [filter app]. rewrite Hc. reflexivity.
Qed.

Lemma content_spaced (l : Layout) :
  forall afterOpen afterOp,
    wellFormed l = true ->
    content (render (spaced afterOpen afterOp l)) = content (render l).
Proof.
  induction l as [t|g c r IH]; intros afterOpen afterOp H.
  - pose proof (wellFormed_spaced _ afterOpen afterOp H) as H'.
    simpl in H, H'. cbn [render] in *.
    rewrite !content_whitespace; auto.
  - pose proof (wellFormed_spaced _ afterOpen afterOp H) as H'.
    apply wellFormed_Tok in H. destruct H as [Hg [Hc Hr]].
    unfold spaced in *. cbn [collapseGaps closeUpAfterOpen closeUpBeforeClose
                               spaceOperators render] in *.
    apply wellFormed_Tok in H'. destruct H' as [Hg' [_ _]].
    rewrite !content_gap by assumption. f_equal. apply IH. exact Hr.
Qed.

Lemma content_trimStartL (l : Layout) :
  wellFormed l = true -> content (render (trimStartL l)) = content (render l).
Proof.
  destruct l as [t|g c r]; intros H.
  - simpl in *. rewrite content_whitespace by exact H. reflexivity.
  - apply wellFormed_Tok in H. destruct H as [Hg [Hc _]].
    cbn [trimStartL render]. rewrite (content_gap g), (content_gap []); auto.
Qed.

Lemma content_trimEndL (l : Layout) :
  wellFormed l = true -> content (render (trimEndL l)) = content (render l).
Proof.
  induction l as [t|g c r IH]; intros H.
  - simpl in *. rewrite content_whitespace by exact H. reflexivity.
  - apply wellFormed_Tok in H. destruct H as [Hg [Hc Hr]].
    cbn [trimEndL render]. rewrite !content_gap by assumption.
    f_equal. apply IH. exact Hr.
Qed.

Lemma content_formatExpression (s : JsString) :
  content (formatExpression s) = content s.
Proof.
  rewrite <- (render_parse s) at 1.
  pose proof (wellFormed_parse s) as H.
  rewrite (formatExpression_render _ H). unfold formatL.
  pose proof (wellFormed_spaced _ false false H) as H1.
  rewrite content_trimEndL by (apply wellFormed_trimStartL; exact H1).
  rewrite content_trimStartL by exact H1.
  rewrite content_spaced by exact H.
  rewrite render_parse. reflexivity.
Qed.

Lemma validateExpression_content (s : JsString) :
  validateExpression (content s) = validateExpression s.
Proof.
  rewrite !validateExpression_counts. unfold balancedCount.
  rewrite !countDelimiters_content;
    try lia; try (intros a Ha; apply delimiterWeight_whitespace; exact Ha).
  reflexivity.
Qed.

(** Formatting only adds and removes whitespace: the other code units
    stay, in their order; so formatting never changes whether an
    expression validates. *)
Theorem formatExpression_keeps_content (s : JsString) :
  content (formatExpression s) = content s
  /\ validateExpression (formatExpression s) = validateExpression s.
Proof.
  split; [apply content_formatExpression|].
  rewrite <- (validateExpression_content (formatExpression s)).
  rewrite content_formatExpression. apply validateExpression_content.
Qed.

Lemma oneSpace_onlySpaces (g : JsString) : Forall (fun a => a = SPACE) (oneSpace g).
Proof. destruct g; repeat constructor. Qed.

Lemma onlySpaces_spaced (l : Layout) :
  forall afterOpen afterOp, onlySpaces (spaced afterOpen afterOp l).
Proof.
  induction l as [t|g c r IH]; intros afterOpen afterOp.
  - unfold spaced; simpl.
    destruct afterOp, afterOpen; try apply oneSpace_onlySpaces; repeat constructor.
  - unfold spaced in *. simpl. split; [|apply IH].
    destruct afterOp, (isArithmeticOperator c), (N.eqb c RPAREN), afterOpen;
      simpl; try apply oneSpace_onlySpaces; repeat constructor;
      apply oneSpace_onlySpaces.
Qed.

Lemma onlySpaces_trimStartL (l : Layout) : onlySpaces l -> onlySpaces (trimStartL l).
Proof. destruct l; simpl; [constructor|]. intros [_ H]. split; [constructor | exact H]. Qed.

Lemma onlySpaces_trimEndL (l : Layout) : onlySpaces l -> onlySpaces (trimEndL l).
Proof.
  induction l as [t|g c r IH]; simpl; [constructor|].
  intros [Hg H]. split; [exact Hg | apply IH; exact H].
Qed.

Lemma onlySpaces_render (l : Layout) :
  wellFormed l = true -> onlySpaces l ->
  forall a, In a (render l) -> isWhiteSpace a = true -> a = SPACE.
Proof.
  induction l as [t|g c r IH]; intros Hw Ho a Hin Ha.
  - simpl in *. rewrite Forall_forall in Ho. apply Ho. exact Hin.
  - apply wellFormed_Tok in Hw. destruct Hw as [_ [Hc Hr]].
    destruct Ho as [Hg Ho]. simpl in Hin. apply in_app_or in Hin.
    destruct Hin as [Hin|[<-|Hin]].
    + rewrite Forall_forall in Hg. apply Hg. exact Hin.
    + congruence.
    + apply IH; assumption.
Qed.

(** The result of formatting neither starts nor ends with whitespace,
    and all the whitespace in it is the space character. *)
Theorem formatExpression_normal_form (s : JsString) :
  startsOutside isWhiteSpace (formatExpression s)
  /\ endsOutside isWhiteSpace (formatExpression s)
  /\ (forall a, In a (formatExpression s) -> isWhiteSpace a = true -> a = SPACE).
Proof.
  split; [|split].
  - rewrite <- (render_parse s).
    pose proof (wellFormed_parse s) as H.
    rewrite (formatExpression_render _ H). unfold formatL.
    pose proof (wellFormed_spaced _ false false H) as H1.
    destruct (spaced false false (parse s)) as [t|g c r].
    + intros c s' E. discriminate.
    + apply wellFormed_Tok in H1. destruct H1 as [_ [Hc _]].
      intros c' s' E. simpl in E. injection E as <- _. exact Hc.
  - unfold formatExpression, trim.
    destruct (trimEnd_split
                (trimStart
                   (replaceAll reOperator 0
                      (replaceAll reSpacesClose 0
                         (replaceAll reOpenSpaces 0 (replaceAll reSpaces 0 s))))))
      as [run [_ [_ H]]].
    exact H.
  - rewrite <- (render_parse s).
    pose proof (wellFormed_parse s) as H.
    rewrite (formatExpression_render _ H).
    apply onlySpaces_render.
    + apply wellFormed_formatL. exact H.
    + apply onlySpaces_trimEndL, onlySpaces_trimStartL, onlySpaces_spaced.
Qed.

End FormatKeeps.

(* ================================================================== *)
(** * Tokens                                                            *)
(* ================================================================== *)

Section Tokens.
Import Js ExpressionUtils Spec Layout.

Lemma tokenizeLoop_tokens (s : JsString) :
  forall current tokens,
    tokenizeLoop s current tokens
    = (tokens ++ fst (tokenizeLoop s current []), snd (tokenizeLoop s current [])).
Proof.
  induction s as [|c s IH]; intros current tokens.
  - simpl. rewrite app_nil_r. reflexivity.
  - simpl. destruct (isTokenBoundary c).
    + rewrite IH. rewrite (IH _ (if truthy (trim [c]) then _ else _)).
      simpl. f_equal.
      destruct (truthy current), (truthy (trim [c])); simpl;
        rewrite <- ?app_assoc; reflexivity.
    + apply IH.
Qed.

Lemma tokenizeExpression_tokensFrom (s : JsString) :
  tokenizeExpression s = tokensFrom [] s.
Proof.
  unfold tokenizeExpression, tokensFrom, flush.
  destruct (tokenizeLoop s [] []) as [tokens last].
  destruct (truthy last); [reflexivity | rewrite app_nil_r; reflexivity].
Qed.

Lemma truthy_trim_single (c : codeUnit) : truthy (trim [c]) = negb (isWhiteSpace c).
Proof.
  unfold truthy, trim, trimStart, trimEnd. simpl.
  destruct (isWhiteSpace c) eqn:E; simpl; [reflexivity|].
  rewrite E. reflexivity.
Qed.

Lemma tokensFrom_nil (current : JsString) : tokensFrom current [] = flush current.
Proof. reflexivity. Qed.

Lemma tokensFrom_boundary (current r : JsString) (c : codeUnit) :
  isTokenBoundary c = true ->
  tokensFrom current (c :: r)
  = flush current ++ (if isWhiteSpace c then [] else [[c]]) ++ tokensFrom [] r.
Proof.
  intros Hc. unfold tokensFrom. simpl. rewrite Hc, tokenizeLoop_tokens.
  rewrite truthy_trim_single.
  assert (E : (if truthy current then [] else current) = []).
  { unfold truthy. destruct current; reflexivity. }
  rewrite E.
  destruct (tokenizeLoop r [] []) as [tokens last]. simpl.
  unfold flush at 2. destruct (truthy current), (isWhiteSpace c); simpl;
    rewrite <- ?app_assoc; reflexivity.
Qed.

Lemma tokensFrom_other (current r : JsString) (c : codeUnit) :
  isTokenBoundary c = false ->
  tokensFrom current (c :: r) = tokensFrom (current ++ [c]) r.
Proof. intros Hc. unfold tokensFrom. simpl. rewrite Hc. reflexivity. Qed.

Lemma whitespace_boundary (a : codeUnit) :
  isWhiteSpace a = true -> isTokenBoundary a = true.
Proof. intros H. unfold isTokenBoundary. rewrite H. reflexivity. Qed.

Lemma flush_nil : flush [] = [].
Proof. reflexivity. Qed.


(** Over a gap the loop flushes what is pending, once. *)
Lemma tokensFrom_gap (g x current : JsString) :
  forallb isWhiteSpace g = true ->
  tokensFrom current (g ++ x)
  = (match g with [] => [] | _ => flush current end)
    ++ tokensFrom (pendingAfterGap current g) x.
Proof.
  revert current. induction g as [|a g IH]; intros current H; [reflexivity|].
  simpl in H. apply andb_true_iff in H. destruct H as [Ha Hg].
  change ((a :: g) ++ x) with (a :: (g ++ x)).
  rewrite tokensFrom_boundary by (apply whitespace_boundary; exact Ha).
  rewrite Ha, IH by exact Hg. simpl.
  destruct g; simpl; rewrite ?flush_nil; reflexivity.
Qed.

Lemma tokensFrom_gap_char (g x current : JsString) (c : codeUnit) :
  forallb isWhiteSpace g = true -> isWhiteSpace c = false ->
  tokensFrom current (g ++ c :: x)
  = tokHead current g c ++ tokensFrom (tokNext current g c) x.
Proof.
  intros Hg Hc. rewrite tokensFrom_gap by exact Hg.
  unfold tokHead, tokNext. destruct (isTokenBoundary c) eqn:E.
  - rewrite tokensFrom_boundary, Hc by exact E. rewrite <- !app_assoc. reflexivity.
  - rewrite tokensFrom_other by exact E. rewrite app_nil_r. reflexivity.
Qed.

Lemma tokensFrom_whitespace (t current : JsString) :
  forallb isWhiteSpace t = true -> tokensFrom current t = flush current.
Proof.
  intros H. rewrite <- (app_nil_r t), tokensFrom_gap by exact H.
  rewrite tokensFrom_nil. destruct t; simpl; [reflexivity|].
  rewrite flush_nil. apply app_nil_r.
Qed.



End Tokens.

Section TokensOfFormatted.
Import Js ExpressionUtils Spec Layout.

Lemma not_boundary (c : codeUnit) :
  isTokenBoundary c = false ->
  isArithmeticOperator c = false /\ N.eqb c LPAREN = false /\ N.eqb c RPAREN = false.
Proof.
  unfold isTokenBoundary. intros H.
  repeat (apply orb_false_iff in H; destruct H as [H ?]). auto.
Qed.

(** Before a boundary character the gap makes no difference. *)
Lemma tok_boundary_any_gap (current g g' : JsString) (c : codeUnit) :
  isTokenBoundary c = true ->
  tokHead current g c = tokHead current g' c
  /\ tokNext current g c = tokNext current g' c.
Proof.
  intros H. unfold tokHead, tokNext. rewrite H. split; [|reflexivity].
  destruct g, g'; simpl; rewrite ?flush_nil, ?app_nil_r; reflexivity.
Qed.

(** With nothing pending the gap makes no difference either. *)
Lemma tok_nothing_pending (g g' : JsString) (c : codeUnit) :
  tokHead [] g c = tokHead [] g' c /\ tokNext [] g c = tokNext [] g' c.
Proof.
  unfold tokHead, tokNext. destruct g, g', (isTokenBoundary c); split; reflexivity.
Qed.

Lemma tok_oneSpace (current g : JsString) (c : codeUnit) :
  tokHead current (oneSpace g) c = tokHead current g c
  /\ tokNext current (oneSpace g) c = tokNext current g c.
Proof. destruct g; split; reflexivity. Qed.

Lemma tokensFrom_spaced (l : Layout) :
  forall current afterOpen afterOp,
    wellFormed l = true ->
    (afterOpen = true \/ afterOp = true -> current = []) ->
    tokensFrom current (render (spaced afterOpen afterOp l))
    = tokensFrom current (render l).
Proof.
  induction l as [t|g c r IH]; intros current afterOpen afterOp H Hcur.
  - pose proof (wellFormed_spaced _ afterOpen afterOp H) as H'.
    simpl in H, H'. cbn [render].
    rewrite !tokensFrom_whitespace; auto.
  - pose proof (wellFormed_spaced _ afterOpen afterOp H) as H'.
    apply wellFormed_Tok in H. destruct H as [Hg [Hc Hr]].
    unfold spaced in H' |- *.
    cbn [collapseGaps closeUpAfterOpen closeUpBeforeClose spaceOperators render]
      in H' |- *.
    apply wellFormed_Tok in H'. destruct H' as [Hg' _].
    rewrite !tokensFrom_gap_char by assumption.
    fold (spaced (N.eqb c LPAREN) (isArithmeticOperator c) r).
    match goal with
    | |- tokHead _ ?G _ ++ _ = _ =>
        assert (Hsame : tokHead current G c = tokHead current g c
                        /\ tokNext current G c = tokNext current g c)
    end.
    { destruct (isTokenBoundary c) eqn:E.
      - apply tok_boundary_any_gap. exact E.
      - destruct (not_boundary c E) as [-> [_ ->]].
        destruct afterOp; [rewrite Hcur by auto; apply tok_nothing_pending|].
        destruct afterOpen; [rewrite Hcur by auto; apply tok_nothing_pending|].
        apply tok_oneSpace. }
    destruct Hsame as [-> ->]. f_equal.
    apply IH; [exact Hr|].
    intros Hor. unfold tokNext.
    destruct (isTokenBoundary c) eqn:E; [reflexivity|].
    destruct (not_boundary c E) as [Hop [Hlp _]].
    rewrite Hop, Hlp in Hor. destruct Hor; discriminate.
Qed.

Lemma tokensFrom_trimStartL (l : Layout) :
  wellFormed l = true ->
  tokensFrom [] (render (trimStartL l)) = tokensFrom [] (render l).
Proof.
  destruct l as [t|g c r]; intros H.
  - simpl in H. cbn [trimStartL render].
    rewrite (tokensFrom_whitespace t) by exact H. reflexivity.
  - apply wellFormed_Tok in H. destruct H as [Hg [Hc _]].
    cbn [trimStartL render].
    rewrite (tokensFrom_gap_char g), (tokensFrom_gap_char []) by auto.
    destruct (tok_nothing_pending [] g c) as [-> ->]. reflexivity.
Qed.

Lemma tokensFrom_trimEndL (l : Layout) :
  forall current,
    wellFormed l = true ->
    tokensFrom current (render (trimEndL l)) = tokensFrom current (render l).
Proof.
  induction l as [t|g c r IH]; intros current H.
  - simpl in H. cbn [trimEndL render].
    rewrite (tokensFrom_whitespace t) by exact H. reflexivity.
  - apply wellFormed_Tok in H. destruct H as [Hg [Hc Hr]].
    cbn [trimEndL render]. rewrite !tokensFrom_gap_char by assumption.
    f_equal. apply IH. exact Hr.
Qed.

(** Formatting does not change the tokens. *)
Theorem tokenizeExpression_formatExpression (s : JsString) :
  tokenizeExpression (formatExpression s) = tokenizeExpression s.
Proof.
  rewrite !tokenizeExpression_tokensFrom.
  rewrite <- (render_parse s).
  pose proof (wellFormed_parse s) as H.
  rewrite (formatExpression_render _ H). unfold formatL.
  pose proof (wellFormed_spaced _ false false H) as H1.
  rewrite tokensFrom_trimEndL by (apply wellFormed_trimStartL; exact H1).
  rewrite tokensFrom_trimStartL by exact H1.
  apply tokensFrom_spaced; [exact H|].
  intros [E|E]; discriminate.
Qed.

(** A comma, a caret and a percent sign do not end a token. *)
Example tokenizeExpression_other_punctuation :
  tokenizeExpression (str "1,2") = [str "1,2"]
  /\ tokenizeExpression (str "^3%4") = [str "^3%4"]
  /\ tokenizeExpression (str "{a-b}") = [str "{"; str "a"; str "-"; str "b"; str "}"].
Proof. repeat split. Qed.

Example tokenizeExpression_scenario :
  tokenizeExpression (str "sin(" ++ [960%N] ++ str "/2)")
  = [str "sin"; str "("; [960%N]; str "/"; str "2"; str ")"].
Proof. reflexivity. Qed.

End TokensOfFormatted.

(* ================================================================== *)
(** * The word at the cursor                                            *)
(* ================================================================== *)

Section WordAtCursor.
Import Js ExpressionUtils.

Lemma takeWhile_dropWhile {A} (p : A -> bool) (l : list A) :
  takeWhile p l ++ dropWhile p l = l.
Proof.
  induction l as [|x l IH]; [reflexivity|]. simpl.
  destruct (p x); [simpl; rewrite IH|]; reflexivity.
Qed.

Lemma index_beyond {A} (l : list A) (i : Z) : Js.length l <= i -> index l i = None.
Proof.
  intros H. unfold index. pose proof (length_nonneg l).
  replace (i <? 0) with false by (symmetry; apply Z.ltb_ge; lia).
  apply nth_error_None. unfold Js.length in *. lia.
Qed.

(** The first loop walks back over the word characters that end the text
    before [start]. *)
Lemma wordStart_run (pre : JsString) :
  forall post fuel,
    (List.length pre <= fuel)%nat ->
    wordStart fuel (pre ++ post) (Js.length pre)
    = Js.length pre - Js.length (takeWhile isWordCharacter (rev pre)).
Proof.
  induction pre as [|c pre IH] using rev_ind; intros post fuel Hf.
  - destruct fuel; simpl; reflexivity.
  - rewrite List.length_app in Hf. simpl in Hf.
    destruct fuel as [|fuel]; [lia|].
    pose proof (length_nonneg pre) as Hp.
    cbn [wordStart]. rewrite length_app. change (Js.length [c]) with 1.
    replace (Js.length pre + 1 >? 0) with true by (symmetry; apply Z.gtb_lt; lia).
    replace (Js.length pre + 1 - 1) with (Js.length pre) by lia.
    rewrite <- app_assoc. cbn [app].
    rewrite index_app_middle. cbn [testWordCharacter andb].
    rewrite rev_unit. cbn [takeWhile].
    destruct (isWordCharacter c).
    + rewrite IH by lia. rewrite length_cons. lia.
    + change (Js.length (@nil codeUnit)) with 0. lia.
Qed.

(** Beyond the end every index reads [undefined], which the test
    accepts: the first loop comes back to the end of the string. *)
Lemma wordStart_beyond (s : JsString) (n fuel : nat) :
  wordStart (n + fuel) s (Js.length s + Z.of_nat n)
  = wordStart fuel s (Js.length s).
Proof.
  induction n as [|n IH].
  - simpl. f_equal. lia.
  - pose proof (length_nonneg s) as Hs.
    cbn [Nat.add wordStart].
    replace (Js.length s + Z.of_nat (S n) >? 0) with true
      by (symmetry; apply Z.gtb_lt; lia).
    rewrite index_beyond by lia. cbn [testWordCharacter andb].
    replace (Js.length s + Z.of_nat (S n) - 1) with (Js.length s + Z.of_nat n)
      by lia.
    exact IH.
Qed.

(** The second loop walks over the word characters that start the text
    from [end]. *)
Lemma wordEnd_run (post : JsString) :
  forall pre fuel,
    (List.length post <= fuel)%nat ->
    wordEnd fuel (pre ++ post) (Js.length pre)
    = Js.length pre + Js.length (takeWhile isWordCharacter post).
Proof.
  induction post as [|c post IH]; intros pre fuel Hf.
  - rewrite app_nil_r. change (Js.length (takeWhile isWordCharacter [])) with 0.
    destruct fuel; cbn [wordEnd]; [lia|].
    rewrite Z.ltb_irrefl. simpl. lia.
  - simpl in Hf. destruct fuel as [|fuel]; [lia|].
    pose proof (length_nonneg pre) as Hp. pose proof (length_nonneg post) as Hq.
    cbn [wordEnd]. rewrite length_app, length_cons.
    replace (Js.length pre <? Js.length pre + (1 + Js.length post)) with true
      by (symmetry; apply Z.ltb_lt; lia).
    rewrite index_app_middle. cbn [testWordCharacter andb takeWhile].
    destruct (isWordCharacter c).
    + replace (pre ++ c :: post) with ((pre ++ [c]) ++ post)
        by (rewrite <- app_assoc; reflexivity).
      replace (Js.length pre + 1) with (Js.length (pre ++ [c]))
        by (rewrite length_app; reflexivity).
      rewrite IH by lia. rewrite length_app, !length_cons.
      change (Js.length (@nil codeUnit)) with 0. lia.
    + change (Js.length (@nil codeUnit)) with 0. lia.
Qed.

Lemma wordEnd_done (fuel : nat) (s : JsString) (pos : Z) :
  Js.length s <= pos -> wordEnd fuel s pos = pos.
Proof.
  intros H. destruct fuel; cbn [wordEnd]; [reflexivity|].
  replace (pos <? Js.length s) with false by (symmetry; apply Z.ltb_ge; lia).
  reflexivity.
Qed.

Lemma slice_end_clamp {A} (l : list A) (a b : Z) :
  Js.length l <= b -> slice l a b = slice l a (Js.length l).
Proof.
  intros H. unfold slice. pose proof (length_nonneg l).
  replace (relIndex (Js.length l) b) with (relIndex (Js.length l) (Js.length l));
    [reflexivity|].
  unfold relIndex.
  destruct (Js.length l <? 0) eqn:E1; destruct (b <? 0) eqn:E2; lia.
Qed.

Lemma word_suffix (pre : JsString) :
  pre = rev (dropWhile isWordCharacter (rev pre))
        ++ rev (takeWhile isWordCharacter (rev pre)).
Proof.
  rewrite <- rev_app_distr, takeWhile_dropWhile, rev_involutive. reflexivity.
Qed.

(** With the cursor inside the expression the result is made of the word
    characters that end the text before the cursor and of those that
    start the text after it.  With the cursor at or beyond the end it is
    the run of word characters that ends the expression.  The word
    characters are the ASCII letters, the digits and the underscore. *)
Theorem getWordAtCursor_run :
  (forall pre post,
      getWordAtCursor (pre ++ post) (Js.length pre)
      = rev (takeWhile isWordCharacter (rev pre))
        ++ takeWhile isWordCharacter post)
  /\ (forall s pos,
         Js.length s <= pos ->
         getWordAtCursor s pos = rev (takeWhile isWordCharacter (rev s))).
Proof.
  split.
  - intros pre post. unfold getWordAtCursor.
    replace (Z.to_nat (Js.length pre)) with (List.length pre)
      by (unfold Js.length; lia).
    replace (Z.to_nat (Js.length (pre ++ post) - Js.length pre))
      with (List.length post)
      by (rewrite length_app; unfold Js.length; lia).
    rewrite wordStart_run, wordEnd_run by lia.
    set (left := rev (takeWhile isWordCharacter (rev pre))).
    set (right := takeWhile isWordCharacter post).
    set (pre0 := rev (dropWhile isWordCharacter (rev pre))).
    assert (Hpre : pre = pre0 ++ left) by apply word_suffix.
    assert (Hpost : post = right ++ dropWhile isWordCharacter post)
      by (symmetry; apply takeWhile_dropWhile).
    assert (Hl : Js.length (takeWhile isWordCharacter (rev pre)) = Js.length left)
      by (unfold left, Js.length; rewrite length_rev; reflexivity).
    rewrite Hl.
    replace (Js.length pre - Js.length left) with (Js.length pre0)
      by (rewrite Hpre at 1; rewrite length_app; lia).
    replace (Js.length pre + Js.length right)
      with (Js.length pre0 + Js.length (left ++ right))
      by (rewrite Hpre at 1; rewrite !length_app; lia).
    rewrite Hpre at 1. rewrite Hpost at 1.
    replace ((pre0 ++ left) ++ right ++ dropWhile isWordCharacter post)
      with (pre0 ++ (left ++ right) ++ dropWhile isWordCharacter post)
      by (rewrite <- !app_assoc; reflexivity).
    apply slice_middle.
  - intros s pos Hpos. unfold getWordAtCursor.
    pose proof (length_nonneg s) as Hs.
    rewrite wordEnd_done by exact Hpos.
    replace (Z.to_nat pos) with (Z.to_nat (pos - Js.length s) + List.length s)%nat
      by (unfold Js.length in *; lia).
    replace pos with (Js.length s + Z.of_nat (Z.to_nat (pos - Js.length s))) at 2
      by lia.
    rewrite wordStart_beyond.
    pose proof (wordStart_run s [] (List.length s) (Nat.le_refl _)) as Hrun.
    rewrite app_nil_r in Hrun. rewrite Hrun.
    rewrite slice_end_clamp by exact Hpos.
    set (left := rev (takeWhile isWordCharacter (rev s))).
    set (pre0 := rev (dropWhile isWordCharacter (rev s))).
    assert (Hpre : s = pre0 ++ left) by apply word_suffix.
    assert (Hl : Js.length (takeWhile isWordCharacter (rev s)) = Js.length left)
      by (unfold left, Js.length; rewrite length_rev; reflexivity).
    assert (Hls : Js.length s = Js.length pre0 + Js.length left)
      by (rewrite <- length_app, <- Hpre; reflexivity).
    rewrite Hl, Hls.
    replace (Js.length pre0 + Js.length left - Js.length left)
      with (Js.length pre0) by lia.
    rewrite Hpre at 1.
    replace (pre0 ++ left) with (pre0 ++ left ++ []) by (rewrite app_nil_r; reflexivity).
    apply slice_middle.
Qed.

Lemma getWordAtCursor_run_witness :
  Js.length (str "2 + cos") <= 20
  /\ getWordAtCursor (str "2 + cos") 20 = str "cos".
Proof.
  assert (H : Js.length (str "2 + cos") <= 20) by (vm_compute; discriminate).
  split; [exact H|].
  apply (proj2 getWordAtCursor_run (str "2 + cos") 20 H).
Defined.

Example getWordAtCursor_scenario :
  getWordAtCursor (str "sin(x) + cos(y)") 4 = str "x".
Proof. reflexivity. Qed.

(** The letter pi (U+03C0) is not a word character: in ['2π_r'] the word
    at cursor 2 is ['_r']. *)
Example getWordAtCursor_pi :
  getWordAtCursor ([50; 960] ++ str "_r")%N 2 = str "_r".
Proof. reflexivity. Qed.

End WordAtCursor.

(* ================================================================== *)
(** * More on the controller                                            *)
(* ================================================================== *)

Section HistoryAll.
Import Js UndoRedo Spec.

Lemma historyAll_setValue (P : JsString -> Prop) options (v : JsString) (h : Hook) :
  P v -> historyAll P h -> historyAll P (setValue options v h).
Proof.
  intros Hv [Hc [Hu Hr]]. unfold historyAll, setValue; simpl.
  split; [exact Hv|]. split; [|constructor].
  destruct (negb _ && negb _); [|exact Hu].
  apply Forall_sliceFrom, Forall_app. split; [exact Hu|].
  constructor; [exact Hc | constructor].
Qed.

Lemma historyAll_undo (P : JsString -> Prop) options (h : Hook) :
  historyAll P h -> historyAll P (undo options h).
Proof.
  intros [Hc [Hu Hr]]. unfold undo.
  destruct (pop (undoStack (state h))) as [[rest x]|] eqn:E;
    [|repeat split; assumption].
  apply pop_Some in E. rewrite E in Hu. apply Forall_app in Hu.
  destruct Hu as [Hrest Hx]. inversion Hx; subst.
  unfold historyAll; simpl. split; [assumption|]. split; [exact Hrest|].
  apply Forall_slice_0. constructor; assumption.
Qed.

Lemma historyAll_redo (P : JsString -> Prop) options (h : Hook) :
  historyAll P h -> historyAll P (redo options h).
Proof.
  intros [Hc [Hu Hr]]. unfold redo.
  destruct (redoStack (state h)) as [|next rest] eqn:E; simpl;
    [unfold historyAll; rewrite E; repeat split; assumption|].
  inversion Hr; subst. unfold historyAll; simpl.
  split; [assumption|]. split; [|assumption].
  apply Forall_sliceFrom, Forall_app. split; [exact Hu|].
  constructor; [exact Hc | constructor].
Qed.

End HistoryAll.

Section ControllerMore.
Import Js ExpressionEditor Spec.

Lemma accepted_mutation_cursor_in_bounds_witness :
  let options :=
    mkEditorOptions UndoRedo.defaultOptions (Some (str "sin(x)")) false
      (Some ExpressionUtils.validateExpression) in
  let e := setCursorPosition 4 (useExpressionEditor options 0) in
  let e' := mutate options 1 (MReplaceText 4 5 (str "2*y")) e in
  isValid e' = true
  /\ expression e' = str "sin(2*y)"
  /\ 0 <= cursorPosition e' <= Js.length (expression e').
Proof.
  intros options e e'.
  split; [reflexivity|]. split; [reflexivity|].
  apply (accepted_mutation_cursor_in_bounds options 1 (MReplaceText 4 5 (str "2*y")) e).
  - reflexivity.
  - vm_compute. split; discriminate.
  - vm_compute. split; discriminate.
Defined.

Lemma setExpression_history options now (s : JsString) (e : Editor) :
  undoRedo (setExpression options now s e)
  = if isValid (setExpression options now s e)
    then UndoRedo.setValue (undoRedoOptions options) s (undoRedo e)
    else undoRedo e.
Proof.
  unfold setExpression.
  destruct (match validator options with
            | Some validate => validate s
            | None => true
            end); reflexivity.
Qed.

Lemma setExpression_isValid options now (s : JsString) (e : Editor) :
  isValid (setExpression options now s e)
  = match validator options with
    | Some validate => validate s
    | None => true
    end.
Proof.
  unfold setExpression.
  destruct (match validator options with
            | Some validate => validate s
            | None => true
            end); reflexivity.
Qed.

(** Every mutation is one [setExpression] followed, at most, by a new
    cursor. *)
Lemma mutate_setExpression options now (m : Mutation) (e : Editor) :
  exists s,
    undoRedo (mutate options now m e) = undoRedo (setExpression options now s e)
    /\ isValid (mutate options now m e) = isValid (setExpression options now s e).
Proof.
  destruct m; simpl; eexists; split; reflexivity.
Qed.

Lemma historyAll_setExpression (P : JsString -> Prop) options now
  (s : JsString) (e : Editor) :
  (forall t, isValid (setExpression options now t e) = true -> P t) ->
  historyAll P (undoRedo e) ->
  historyAll P (undoRedo (setExpression options now s e)).
Proof.
  intros Hacc H. rewrite setExpression_history.
  destruct (isValid (setExpression options now s e)) eqn:E; [|exact H].
  apply historyAll_setValue; [apply Hacc; exact E | exact H].
Qed.

(** Whatever holds of the initial expression and of every string the
    validator accepts holds of everything in the history. *)
Lemma reachable_historyAll (P : JsString -> Prop) options (e : Editor) :
  (forall t, match validator options with
             | Some validate => validate t
             | None => true
             end = true -> P t) ->
  P (initialValue options) ->
  reachable options e ->
  historyAll P (undoRedo e).
Proof.
  intros Hacc Hi Hr. induction Hr as [now|now op e Hr IH].
  - unfold historyAll; simpl. repeat split; [exact Hi | constructor | constructor].
  - assert (Hset : forall t, isValid (setExpression options now t e) = true -> P t).
    { intros t Ht. apply Hacc. rewrite <- setExpression_isValid with (now := now) (e := e).
      exact Ht. }
    destruct op as [m| | |pos|a b|name|op]; simpl.
    + destruct (mutate_setExpression options now m e) as [s [-> _]].
      apply historyAll_setExpression; assumption.
    + apply historyAll_undo. exact IH.
    + apply historyAll_redo. exact IH.
    + exact IH.
    + exact IH.
    + apply historyAll_setExpression; assumption.
    + apply historyAll_setExpression; assumption.
Qed.

(** With a validator installed and an initial expression that it accepts,
    nothing it rejects ever enters the history: in every reachable state
    the expression, the undo stack and the redo stack hold accepted
    strings only, so undo and redo always land on an accepted expression.
    (The reachable states include those the builder's buttons lead to.) *)
Theorem history_holds_accepted_only options validate (e : Editor) :
  validator options = Some validate ->
  validate (initialValue options) = true ->
  reachable options e ->
  historyAll (fun s => validate s = true) (undoRedo e).
Proof.
  intros Hv Hi Hr.
  apply (reachable_historyAll (fun s => validate s = true) options e); auto.
  rewrite Hv. auto.
Qed.

Lemma history_holds_accepted_only_witness :
  let options :=
    mkEditorOptions UndoRedo.defaultOptions (Some (str "(1)")) false
      (Some ExpressionUtils.validateExpression) in
  let e :=
    operate options 3 OUndo
      (operate options 2 (OMutate (MInsertText (str ")")))
         (operate options 1 (OMutate (MSetExpression (str "(1) + (2)")))
            (useExpressionEditor options 0))) in
  ExpressionUtils.validateExpression (initialValue options) = true
  /\ reachable options e
  /\ expression e = str "(1)"
  /\ historyAll (fun s => ExpressionUtils.validateExpression s = true) (undoRedo e).
Proof.
  intros options e.
  assert (Hr : reachable options e) by (repeat constructor).
  split; [reflexivity|]. split; [exact Hr|]. split; [reflexivity|].
  apply (history_holds_accepted_only options ExpressionUtils.validateExpression e
           eq_refl eq_refl Hr).
Defined.

(** After [redo] the cursor is at the end of the expression; after an
    [undo] that had something to restore it is too; an [undo] with an
    empty undo stack leaves the expression and sends the cursor to 0. *)
Theorem undo_redo_cursor options now (e : Editor) :
  cursorPosition (redo options now e) = Js.length (expression (redo options now e))
  /\ (UndoRedo.undoStack (UndoRedo.state (undoRedo e)) <> [] ->
      cursorPosition (undo options now e)
      = Js.length (expression (undo options now e)))
  /\ (UndoRedo.undoStack (UndoRedo.state (undoRedo e)) = [] ->
      cursorPosition (undo options now e) = 0
      /\ expression (undo options now e) = expression e).
Proof.
  unfold redo, undo, expression; simpl. split; [|split].
  - unfold UndoRedo.redo.
    destruct (UndoRedo.redoStack (UndoRedo.state (undoRedo e))); reflexivity.
  - intros Hne. unfold UndoRedo.undo.
    destruct (pop (UndoRedo.undoStack (UndoRedo.state (undoRedo e))))
      as [[rest top]|] eqn:E; [reflexivity|].
    apply pop_None in E. contradiction.
  - intros E. unfold UndoRedo.undo. rewrite E. split; reflexivity.
Qed.

(** An accepted mutation that changes a non-empty expression can be taken
    back: [undo] right after it restores the expression it replaced, for
    any bound that is not negative. *)
Theorem undo_after_accepted_mutation options now now' (m : Mutation) (e : Editor) :
  0 <= UndoRedo.maxHistory (undoRedoOptions options) ->
  expression e <> [] ->
  isValid (mutate options now m e) = true ->
  expression (mutate options now m e) <> expression e ->
  expression (undo options now' (mutate options now m e)) = expression e
  /\ cursorPosition (undo options now' (mutate options now m e))
     = Js.length (expression e).
Proof.
  intros Hm Hne Hv Hdiff.
  destruct (mutate_setExpression options now m e) as [s [Hh Hi]].
  rewrite Hv in Hi. symmetry in Hi.
  rewrite setExpression_history, Hi in Hh.
  unfold expression in *. unfold undo. cbn [undoRedo cursorPosition].
  rewrite Hh in Hdiff |- *. unfold UndoRedo.setValue in Hdiff |- *.
  cbn [UndoRedo.state UndoRedo.value UndoRedo.undoStack] in Hdiff |- *.
  replace (strictEq (UndoRedo.value (UndoRedo.state (undoRedo e))) s) with false.
  - replace (strictEq (UndoRedo.value (UndoRedo.state (undoRedo e))) [])
      with false by (symmetry; apply strictEq_nil_false; exact Hne).
    cbn [negb andb].
    destruct (sliceFrom_neg_keeps_last
                (UndoRedo.undoStack (UndoRedo.state (undoRedo e)))
                (UndoRedo.value (UndoRedo.state (undoRedo e)))
                (UndoRedo.maxHistory (undoRedoOptions options)) Hm) as [kept Hk].
    unfold UndoRedo.undo. cbn [UndoRedo.state UndoRedo.undoStack].
    rewrite Hk, pop_snoc. split; reflexivity.
  - symmetry.
    destruct (strictEq (UndoRedo.value (UndoRedo.state (undoRedo e))) s) eqn:E;
      [|reflexivity].
    apply strictEq_spec in E. congruence.
Qed.

Lemma undo_after_accepted_mutation_witness :
  let options :=
    mkEditorOptions (UndoRedo.mkOptions (Some 0) None false) (Some (str "2 + 2"))
      false (Some ExpressionUtils.validateExpression) in
  let e := useExpressionEditor options 0 in
  let m := MInsertText (str " * 3") in
  0 <= UndoRedo.maxHistory (undoRedoOptions options)
  /\ expression e <> []
  /\ isValid (mutate options 1 m e) = true
  /\ expression (mutate options 1 m e) <> expression e
  /\ expression (undo options 2 (mutate options 1 m e)) = str "2 + 2".
Proof.
  intros options e m.
  assert (H1 : 0 <= UndoRedo.maxHistory (undoRedoOptions options))
    by (vm_compute; discriminate).
  assert (H2 : expression e <> []) by (vm_compute; discriminate).
  assert (H3 : isValid (mutate options 1 m e) = true) by reflexivity.
  assert (H4 : expression (mutate options 1 m e) <> expression e)
    by (vm_compute; discriminate).
  split; [exact H1|]. split; [exact H2|]. split; [exact H3|]. split; [exact H4|].
  apply (undo_after_accepted_mutation options 1 2 m e H1 H2 H3 H4).
Defined.

End ControllerMore.

Section SelectionAndBuilder.
Import Js ExpressionEditor Spec.


Lemma trimEnd_id (s : JsString) :
  endsOutside isWhiteSpace s -> trimEnd s = s.
Proof.
  intros H. destruct (trimEnd_split s) as [run [H1 [H2 _]]].
  destruct run as [|c run _] using rev_ind.
  - rewrite app_nil_r in H1. symmetry. exact H1.
  - exfalso. rewrite app_assoc in H1. apply H in H1.
    rewrite forallb_app in H2. simpl in H2. rewrite H1 in H2.
    rewrite andb_false_r in H2. discriminate.
Qed.

Lemma sliceFrom_end {A} (l : list A) : sliceFrom l (Js.length l) = [].
Proof.
  rewrite sliceFrom_skipn. apply skipn_all2.
  pose proof (length_nonneg l). unfold relIndex, Js.length in *.
  destruct (Z.of_nat (List.length l) <? 0) eqn:E; lia.
Qed.

(** The builder's function button, pressed with the cursor at the end of
    an expression that does not end with whitespace: the accepted result
    is the expression followed by [name()], yet the stored cursor is the
    old end of the expression, before the inserted name, because the
    clamp of [setCursorPosition] still reads the old expression. *)
Theorem builder_function_cursor options now (name : JsString) (e : Editor) :
  cursorPosition e = Js.length (expression e) ->
  endsOutside isWhiteSpace (expression e) ->
  let e' := builderInsertFunction options now name e in
  cursorPosition e' = Js.length (expression e)
  /\ (isValid e' = true ->
      expression e' = expression e ++ name ++ [LPAREN; RPAREN]).
Proof.
  intros Hc Hend e'. unfold e', builderInsertFunction, builderApply.
  unfold ExpressionUtils.insertFunction.
  cbn [ExpressionUtils.expression ExpressionUtils.cursorPos].
  rewrite Hc, slice_0_all, sliceFrom_end, trimEnd_id by (auto; lia).
  pose proof (length_nonneg (expression e)) as Hl.
  pose proof (length_nonneg name) as Hn.
  split.
  - unfold setCursorPosition. cbn [cursorPosition withCursorPosition]. lia.
  - intros Hv.
    change (isValid (withCursorPosition ?p ?x)) with (isValid x) in Hv.
    change (expression (withCursorPosition ?p ?x)) with (expression x).
    rewrite setExpression_accepted by exact Hv. reflexivity.
Qed.

Lemma builder_function_cursor_witness :
  let options :=
    mkEditorOptions UndoRedo.defaultOptions (Some (str "2 +")) false
      (Some ExpressionUtils.validateExpression) in
  let e := useExpressionEditor options 0 in
  let e' := builderInsertFunction options 1 (str "sin") e in
  cursorPosition e = Js.length (expression e)
  /\ endsOutside isWhiteSpace (expression e)
  /\ expression e' = str "2 +sin()"
  /\ cursorPosition e' = 3.
Proof.
  intros options e e'.
  assert (H1 : cursorPosition e = Js.length (expression e)) by reflexivity.
  assert (H2 : endsOutside isWhiteSpace (expression e)).
  { intros s' c E. change (expression e) with (str "2 " ++ [PLUS]) in E.
    apply app_inj_tail in E. destruct E as [_ <-]. reflexivity. }
  split; [exact H1|]. split; [exact H2|]. split; [reflexivity|].
  apply (proj1 (builder_function_cursor options 1 (str "sin") e H1 H2)).
Defined.

End SelectionAndBuilder.

(* ================================================================== *)
(** * Smart insertion and validation                                    *)
(* ================================================================== *)

Section InsertionKeepsValidity.
Import Js ExpressionUtils Spec.

Lemma delimiterWeight_other (o c a : codeUnit) :
  isValidatedDelimiter o = true -> isValidatedDelimiter c = true ->
  isValidatedDelimiter a = false -> delimiterWeight o c a = 0.
Proof.
  intros Ho Hc Ha. unfold delimiterWeight.
  destruct (N.eqb_spec a o); [subst; congruence|].
  destruct (N.eqb_spec a c); [subst; congruence|]. reflexivity.
Qed.

(** The loops of [validateExpression] see parentheses and brackets only. *)
Lemma countDelimiters_delimiters (o c : codeUnit) (s : JsString) :
  isValidatedDelimiter o = true -> isValidatedDelimiter c = true ->
  forall n, 0 <= n ->
    countDelimiters o c n (delimiters s) = countDelimiters o c n s.
Proof.
  intros Ho Hc. induction s as [|x s IH]; intros n Hn; [reflexivity|].
  rewrite (countDelimiters_cons o c x n s). unfold delimiters. cbn [filter].
  fold (delimiters s).
  destruct (isValidatedDelimiter x) eqn:E.
  - rewrite countDelimiters_cons.
    destruct (n + delimiterWeight o c x <? 0) eqn:En; [reflexivity|].
    apply IH. apply Z.ltb_ge in En. exact En.
  - rewrite (delimiterWeight_other o c x Ho Hc E), Z.add_0_r.
    replace (n <? 0) with false by (symmetry; apply Z.ltb_ge; lia).
    apply IH. exact Hn.
Qed.

Lemma validateExpression_delimiters (s : JsString) :
  validateExpression s
  = balancedCount LPAREN RPAREN (delimiters s)
    && balancedCount LBRACKET RBRACKET (delimiters s).
Proof.
  rewrite validateExpression_counts. unfold balancedCount.
  rewrite !countDelimiters_delimiters by (reflexivity || lia). reflexivity.
Qed.

Lemma delimiters_app (a b : JsString) :
  delimiters (a ++ b) = delimiters a ++ delimiters b.
Proof. apply filter_app. Qed.

Lemma delimiters_whitespace (w : JsString) :
  forallb isWhiteSpace w = true -> delimiters w = [].
Proof.
  induction w as [|a w IH]; [reflexivity|]. simpl.
  intros H. apply andb_true_iff in H. destruct H as [Ha Hw].
  unfold delimiters, isValidatedDelimiter. cbn [filter].
  destruct (whitespace_not_delimiter a Ha) as [-> [-> _]].
  destruct (whitespace_not_bracket a Ha) as [-> [-> _]].
  apply IH. exact Hw.
Qed.

Lemma delimiters_trimEnd (s : JsString) : delimiters (trimEnd s) = delimiters s.
Proof.
  destruct (trimEnd_split s) as [run [H1 [H2 _]]].
  rewrite H1 at 2. rewrite delimiters_app, (delimiters_whitespace run H2).
  symmetry. apply app_nil_r.
Qed.

Lemma delimiters_trimStart (s : JsString) : delimiters (trimStart s) = delimiters s.
Proof.
  destruct (dropWhile_split isWhiteSpace s) as [run [H1 [H2 _]]].
  rewrite H1 at 2. rewrite delimiters_app, (delimiters_whitespace run H2).
  reflexivity.
Qed.

Lemma delimiters_operator (c : codeUnit) :
  isArithmeticOperator c = true -> delimiters [c] = [].
Proof.
  unfold isArithmeticOperator, delimiters, isValidatedDelimiter. cbn [filter].
  intros H.
  repeat match goal with
    | |- context [N.eqb c ?k] =>
        destruct (N.eqb_spec c k); [subst c; vm_compute in H; discriminate H|]
    end.
  reflexivity.
Qed.

Lemma endsWithOperator_true (s : JsString) :
  endsWithOperator s = true ->
  exists kept c, s = kept ++ [c] /\ isArithmeticOperator c = true.
Proof.
  unfold endsWithOperator. destruct (pop s) as [[kept c]|] eqn:E; [|discriminate].
  intros H. apply pop_Some in E. eauto.
Qed.

(** [insertOperator] leaves the parentheses and brackets as they are. *)
Lemma insertOperator_delimiters (s op : JsString) (pos : Z) :
  delimiters op = [] ->
  delimiters (expression (insertOperator s op pos)) = delimiters s.
Proof.
  intros Hop.
  rewrite <- (slice_sliceFrom s pos) at 2. rewrite delimiters_app.
  rewrite <- (delimiters_trimEnd (slice s 0 pos)).
  rewrite <- (delimiters_trimStart (sliceFrom s pos)).
  unfold insertOperator.
  destruct ((Js.length (trimEnd (slice s 0 pos)) >? 0)
            && endsWithOperator (trimEnd (slice s 0 pos))) eqn:E;
    cbn [expression]; rewrite !delimiters_app, Hop;
    change (delimiters [SPACE]) with (@nil codeUnit); cbn [app].
  - apply andb_true_iff in E. destruct E as [_ E].
    apply endsWithOperator_true in E. destruct E as [kept [c [Hk Hc]]].
    rewrite Hk, slice_drop_last, delimiters_app, (delimiters_operator c Hc).
    rewrite app_nil_r. reflexivity.
  - reflexivity.
Qed.

(** An operator without parentheses or brackets, inserted at any cursor,
    never changes whether the expression validates. *)
Theorem insertOperator_preserves_validity (s op : JsString) (pos : Z) :
  delimiters op = [] ->
  validateExpression (expression (insertOperator s op pos)) = validateExpression s.
Proof.
  intros Hop.
  rewrite (validateExpression_delimiters s), <- (insertOperator_delimiters s op pos Hop).
  apply validateExpression_delimiters.
Qed.

Lemma insertOperator_preserves_validity_witness :
  delimiters (str "+") = []
  /\ validateExpression (expression (insertOperator (str "(1 -") (str "+") 4))
     = validateExpression (str "(1 -").
Proof.
  split; [reflexivity|].
  apply (insertOperator_preserves_validity (str "(1 -") (str "+") 4 eq_refl).
Defined.

Lemma countDelimiters_shift (o c : codeUnit) (s : JsString) (k : Z) :
  0 <= k ->
  forall n m,
    countDelimiters o c n s = Some m ->
    countDelimiters o c (n + k) s = Some (m + k).
Proof.
  intros Hk. induction s as [|x s IH]; intros n m.
  - simpl. intros [= <-]. reflexivity.
  - rewrite !countDelimiters_cons.
    destruct (n + delimiterWeight o c x <? 0) eqn:E; [discriminate|].
    apply Z.ltb_ge in E.
    replace (n + k + delimiterWeight o c x <? 0) with false
      by (symmetry; apply Z.ltb_ge; lia).
    replace (n + k + delimiterWeight o c x) with (n + delimiterWeight o c x + k)
      by lia.
    apply IH.
Qed.

Lemma balancedCount_wrap (o c : codeUnit) (a b : JsString) :
  (o = LPAREN /\ c = RPAREN) \/ (o = LBRACKET /\ c = RBRACKET) ->
  balancedCount o c (a ++ b) = true ->
  balancedCount o c (a ++ [LPAREN] ++ b ++ [RPAREN]) = true.
Proof.
  intros Hoc. unfold balancedCount.
  rewrite !countDelimiters_app.
  destruct (countDelimiters o c 0 a) as [m|] eqn:Ea; [|discriminate].
  pose proof (countDelimiters_nonneg _ _ _ _ _ (Z.le_refl 0) Ea) as Hm.
  destruct (countDelimiters o c m b) as [m'|] eqn:Eb; [|discriminate].
  intros H. apply Z.eqb_eq in H. subst m'.
  rewrite countDelimiters_app.
  destruct Hoc as [[-> ->]|[-> ->]].
  - replace (countDelimiters LPAREN RPAREN m [LPAREN]) with (Some (m + 1))
      by (simpl; destruct (m + 1 <? 0) eqn:E; [lia | reflexivity]).
    rewrite countDelimiters_app.
    rewrite (countDelimiters_shift _ _ _ 1 ltac:(lia) _ _ Eb). reflexivity.
  - replace (countDelimiters LBRACKET RBRACKET m [LPAREN]) with (Some m)
      by (simpl; destruct (m <? 0) eqn:E; [lia | reflexivity]).
    rewrite countDelimiters_app, Eb. reflexivity.
Qed.

Lemma wrapped_balanced (a b : JsString) :
  balancedCount LPAREN RPAREN (a ++ b)
  && balancedCount LBRACKET RBRACKET (a ++ b) = true ->
  balancedCount LPAREN RPAREN (a ++ [LPAREN] ++ b ++ [RPAREN])
  && balancedCount LBRACKET RBRACKET (a ++ [LPAREN] ++ b ++ [RPAREN]) = true.
Proof.
  intros H. apply andb_true_iff in H. destruct H as [H1 H2].
  apply andb_true_iff. split.
  - apply (balancedCount_wrap LPAREN RPAREN); auto.
  - apply (balancedCount_wrap LBRACKET RBRACKET); auto.
Qed.

(** [insertFunction] adds one pair of parentheses to the parentheses and
    brackets of the expression. *)
Lemma insertFunction_delimiters (s name : JsString) (pos : Z) :
  delimiters name = [] ->
  delimiters (expression (insertFunction s name pos))
  = delimiters (slice s 0 pos) ++ [LPAREN]
    ++ delimiters (sliceFrom s pos) ++ [RPAREN].
Proof.
  intros Hname. unfold insertFunction. cbn [expression].
  rewrite !delimiters_app, Hname, delimiters_trimEnd, delimiters_trimStart.
  reflexivity.
Qed.

(** A function whose name has no parentheses or brackets, inserted at any
    cursor of an expression that validates, gives an expression that
    validates. *)
Theorem insertFunction_keeps_valid (s name : JsString) (pos : Z) :
  delimiters name = [] ->
  validateExpression s = true ->
  validateExpression (expression (insertFunction s name pos)) = true.
Proof.
  intros Hname Hv.
  rewrite validateExpression_delimiters in Hv |- *.
  rewrite (insertFunction_delimiters s name pos Hname).
  rewrite <- (slice_sliceFrom s pos), delimiters_app in Hv.
  apply wrapped_balanced. exact Hv.
Qed.

Lemma insertFunction_keeps_valid_witness :
  delimiters (str "sqrt") = []
  /\ validateExpression (str "[1, (2)]") = true
  /\ validateExpression (expression (insertFunction (str "[1, (2)]") (str "sqrt") 4))
     = true.
Proof.
  split; [reflexivity|]. split; [reflexivity|].
  apply (insertFunction_keeps_valid (str "[1, (2)]") (str "sqrt") 4 eq_refl eq_refl).
Defined.

(** The converse fails: wrapping the rest in parentheses can repair an
    expression that does not validate. *)
Example insertFunction_can_repair :
  validateExpression (str "a)(") = false
  /\ validateExpression (expression (insertFunction (str "a)(") (str "sin") 1)) = true.
Proof. split; reflexivity. Qed.

End InsertionKeepsValidity.

(* ================================================================== *)
(** * The builder's buttons under the validator of the examples         *)
(* ================================================================== *)

Section BuilderAccepted.
Import Js ExpressionEditor Spec.

(** With [validateExpression] as the validator and an initial expression
    that validates, the builder's operator and function buttons are never
    rejected, in any reachable state, for operators and names without
    parentheses or brackets: the edit is committed as computed. *)
Theorem builder_buttons_accepted options now (e : Editor) :
  validator options = Some ExpressionUtils.validateExpression ->
  ExpressionUtils.validateExpression (initialValue options) = true ->
  reachable options e ->
  (forall op,
      delimiters op = [] ->
      isValid (builderInsertOperator options now op e) = true
      /\ expression (builderInsertOperator options now op e)
         = ExpressionUtils.expression
             (ExpressionUtils.insertOperator (expression e) op (cursorPosition e)))
  /\ (forall name,
         delimiters name = [] ->
         isValid (builderInsertFunction options now name e) = true
         /\ expression (builderInsertFunction options now name e)
            = ExpressionUtils.expression
                (ExpressionUtils.insertFunction (expression e) name (cursorPosition e))).
Proof.
  intros Hv Hi Hr.
  assert (Hcur : ExpressionUtils.validateExpression (expression e) = true).
  { apply (reachable_historyAll
             (fun s => ExpressionUtils.validateExpression s = true) options e);
      auto.
    rewrite Hv. auto. }
  assert (Hcommit : forall edit,
             ExpressionUtils.validateExpression (ExpressionUtils.expression edit) = true ->
             isValid (builderApply options now edit e) = true
             /\ expression (builderApply options now edit e)
                = ExpressionUtils.expression edit).
  { intros edit Hedit. unfold builderApply.
    change (isValid (withCursorPosition ?p ?x)) with (isValid x).
    change (expression (withCursorPosition ?p ?x)) with (expression x).
    assert (Hval : isValid (setExpression options now (ExpressionUtils.expression edit) e)
                   = true)
      by (rewrite setExpression_isValid, Hv; exact Hedit).
    split; [exact Hval | apply setExpression_accepted; exact Hval]. }
  split.
  - intros op Hop. apply Hcommit.
    rewrite validateExpression_delimiters, (insertOperator_delimiters _ _ _ Hop).
    rewrite <- validateExpression_delimiters. exact Hcur.
  - intros name Hname. apply Hcommit.
    rewrite validateExpression_delimiters, (insertFunction_delimiters _ _ _ Hname).
    apply wrapped_balanced.
    rewrite <- delimiters_app, slice_sliceFrom, <- validateExpression_delimiters.
    exact Hcur.
Qed.

Lemma builder_buttons_accepted_witness :
  let options :=
    mkEditorOptions UndoRedo.defaultOptions (Some (str "(1)")) false
      (Some ExpressionUtils.validateExpression) in
  let e :=
    operate options 2 (OBuilderInsertOperator (str "+"))
      (operate options 1 (OSetCursorPosition 3)
         (useExpressionEditor options 0)) in
  ExpressionUtils.validateExpression (initialValue options) = true
  /\ reachable options e
  /\ expression e = str "(1) + "
  /\ isValid (builderInsertFunction options 3 (str "sin") e) = true
  /\ expression (builderInsertFunction options 3 (str "sin") e)
     = ExpressionUtils.expression
         (ExpressionUtils.insertFunction (expression e) (str "sin") (cursorPosition e)).
Proof.
  intros options e.
  assert (Hr : reachable options e) by (repeat constructor).
  split; [reflexivity|]. split; [exact Hr|]. split; [reflexivity|].
  exact (proj2 (builder_buttons_accepted options 3 e eq_refl eq_refl Hr)
           (str "sin") eq_refl).
Defined.

End BuilderAccepted.
